(** * BrainBrowser event model (src/brainbrowser/lib/events.js)

    A shallow embedding of [BrainBrowser.events.addEventModel] and of the
    methods it installs on an object, followed by the properties of the
    event model that the specification states.

    Modelling choices.
    - Objects are identified by a number; [root] is [BrainBrowser.events].
      The store maps every object that carries the event model to the two
      registries its closure owns ([event_listeners], [propagated_events]).
    - [event_listeners] is only ever read by key: a finite map.
      [propagated_events] is also enumerated ([Object.keys]): an association
      list in insertion order.  (JavaScript enumerates the keys that are
      array indices first, as [own_keys] does for the query without a name;
      the program uses the enumeration for one membership test only, in
      [propagateEventTo].)
    - The two registries are a JavaScript array and a plain object, so a
      lookup [registry[event_name]] that finds no key of the registry goes
      on in [Array.prototype] and [Object.prototype].  The methods are given
      twice.  The definitions that carry the names of the methods read the
      registries by their own keys: they are the methods at the event names
      that no prototype defines ([not_inherited]).  The definitions whose
      names end in [_run] follow the lookups through the prototypes, where
      the program throws a [TypeError] at a name such as "constructor" or
      "filter".  Whenever the second return, the first return the same, and
      at the names that no prototype defines the two agree altogether
      ([own_keys_decide_at_other_names]).  Statements that assume that a
      call returned, or that are about a fixed name, are made on the first;
      statements that a call returns for whatever name are made on the
      second.  The prototypes are those of the standard: a host that adds
      properties to them, or that registers a listener under "__proto__"
      (line 74 then pushes onto [Array.prototype]), is not modelled.
    - A callback is either an opaque handler of the host application or the
      cleanup closure that [propagateEventTo] registers.  Host handlers are
      observers: a call is recorded in the trace, returns normally and
      leaves the registries alone.  Every entry into [triggerEvent] is
      recorded in the trace as well.
    - [allPropagationTargets] and [triggerEvent] recurse along the
      propagation edges and need not return; they take a fuel argument that
      bounds the depth of the call stack.  [None] (and [Abort] for
      [propagateEventTo]) is the run that exhausts it, or that calls a
      method on an object without the event model. *)

From stdpp Require Import base option list strings gmap sorting.

Open Scope string_scope.
Open Scope nat_scope.
Open Scope list_scope.
Open Scope stdpp_scope.

(** ** Data model *)

(** [BrainBrowser.events], the process-wide root node. *)
Definition root : nat := 0.

(** The reserved name of the cleanup event. *)
Definition eventmodelcleanup : string := "eventmodelcleanup".

(** The reserved wildcard name. *)
Definition wildcard : string := "*".

Inductive value :=
  | VUndefined
  | VNum (n : Z)
  | VStr (s : string)
  | VObj (o : nat).

(** [Handler id]: a function of the host application.
    [Cleanup object other]: the closure of lines 154-158,
    [function() { if (this === other) object.stopPropagatingTo(other); }]. *)
Inductive callback :=
  | Handler (id : nat)
  | Cleanup (object other : nat).

#[global] Instance value_eq_dec : EqDecision value.
Proof. solve_decision. Defined.

#[global] Instance callback_eq_dec : EqDecision callback.
Proof. solve_decision. Defined.

Record Obj := mkObj {
  event_listeners : gmap string (list callback);
  propagated_events : list (string * list nat)
}.

Abbreviation heap := (gmap nat Obj) (only parsing).

(** What a run of [triggerEvent] lets the outside see. *)
Inductive event :=
  | Fired (object this : nat) (event_name : string) (args : list value)
  | Called (cb : callback) (this : nat) (args : list value).

#[global] Instance event_eq_dec : EqDecision event.
Proof. solve_decision. Defined.

(** The two errors of [propagateEventTo]; both are a plain [Error] in the
    source and differ by their message. *)
Inductive error :=
  | MissingCapabilityError
  | CycleError.

Inductive outcome (A : Type) :=
  | Return (a : A)
  | Throw (e : error)
  | Abort.
Arguments Return {A} a.
Arguments Throw {A} e.
Arguments Abort {A}.

(** ** The registry of propagated events *)

Fixpoint pe_get (k : string) (pe : list (string * list nat)) : option (list nat) :=
  match pe with
  | [] => None
  | (k', v) :: pe' => if decide (k' = k) then Some v else pe_get k pe'
  end.

Fixpoint pe_set (k : string) (v : list nat) (pe : list (string * list nat))
  : list (string * list nat) :=
  match pe with
  | [] => [(k, v)]
  | (k', v') :: pe' =>
      if decide (k' = k) then (k, v) :: pe' else (k', v') :: pe_set k v pe'
  end.

Definition pe_keys (pe : list (string * list nat)) : list string := pe.*1.

(** [propagated_events[name] || []], for a key of the registry or a name
    that is defined nowhere. *)
Definition pe_targets (name : string) (pe : list (string * list nat)) : list nat :=
  default [] (pe_get name pe).

Definition with_listeners (f : gmap string (list callback) → gmap string (list callback))
    (ob : Obj) : Obj :=
  mkObj (f (event_listeners ob)) (propagated_events ob).

Definition with_propagated (f : list (string * list nat) → list (string * list nat))
    (ob : Obj) : Obj :=
  mkObj (event_listeners ob) (f (propagated_events ob)).

(** ** The methods *)

(** [BrainBrowser.events.addEventModel(object)]: fresh, empty registries. *)
Definition addEventModel (object : nat) (h : heap) : heap :=
  <[object := mkObj ∅ []]> h.

(** The store right after the module is loaded (line 278). *)
Definition initial : heap := addEventModel root ∅.

(** [event_listeners[name]] for a key of the registry, read as the empty
    sequence when the name is defined nowhere. *)
Definition listeners (h : heap) (object : nat) (name : string) : list callback :=
  default [] (ob ← h !! object; event_listeners ob !! name).

(** [object.addEventListener(event_name, callback)], for a key of the
    registry or a name that is defined nowhere (at a name that the array
    inherits nothing is registered: line 74 calls [push] on the inherited
    value). *)
Definition addEventListener (object : nat) (event_name : string) (cb : callback)
    (h : heap) : heap :=
  alter (with_listeners (λ m, <[event_name := default [] (m !! event_name) ++ [cb]]> m))
        object h.

(** [if (propagation_targets.indexOf(other) === -1) propagation_targets.push(other)] *)
Definition push_new (acc : list nat) (other : nat) : list nat :=
  if decide (other ∈ acc) then acc else acc ++ [other].

(** The body of [directPropagationTargets] over the registry of the object. *)
Definition collect_targets (pe : list (string * list nat)) (event_name : option string)
  : list nat :=
  let event_names :=
    match event_name with
    | None => pe_keys pe
    | Some e => [e; wildcard]
    end in
  foldl (λ acc name, foldl push_new acc (pe_targets name pe)) [] event_names.

(** [object.directPropagationTargets(event_name)] *)
Definition directPropagationTargets (h : heap) (object : nat)
    (event_name : option string) : list nat :=
  from_option (λ ob, collect_targets (propagated_events ob) event_name) [] (h !! object).

(** The loop of [allPropagationTargets] over the direct targets: the targets
    of each one, as [f] computes them, are pushed when new. *)
Fixpoint forEach_collect (f : nat → option (list nat)) (targets : list nat)
    (propagation_targets : list nat) : option (list nat) :=
  match targets with
  | [] => Some propagation_targets
  | target :: targets' =>
      recursive ← f target;
      forEach_collect f targets' (foldl push_new propagation_targets recursive)
  end.

(** [object.allPropagationTargets(event_name)] *)
Fixpoint allPropagationTargets (fuel : nat) (h : heap) (object : nat)
    (event_name : option string) : option (list nat) :=
  match fuel with
  | 0 => None
  | S n =>
      ob ← h !! object;
      let direct_targets := collect_targets (propagated_events ob) event_name in
      forEach_collect (λ target, allPropagationTargets n h target event_name)
                      direct_targets direct_targets
  end.

(** [propagated_events[event_name] = propagated_events[event_name].filter(...)]
    for every key of the registry. *)
Definition prune (other : nat) (pe : list (string * list nat)) : list (string * list nat) :=
  map (λ kv, (kv.1, filter (λ target, target ≠ other) kv.2)) pe.

(** [object.stopPropagatingTo(other)] *)
Definition stopPropagatingTo (object other : nat) (h : heap) : heap :=
  alter (with_propagated (prune other)) object h.

(** Lines 151-163 of [propagateEventTo]: what happens once the checks passed. *)
Definition add_edge (object : nat) (event_name : string) (other : nat) (h : heap) : heap :=
  let h1 :=
    alter (with_propagated (λ pe, pe_set event_name (pe_targets event_name pe) pe))
          object h in
  let h2 :=
    if decide (other ∈ directPropagationTargets h1 object None) then h1
    else addEventListener other eventmodelcleanup (Cleanup object other) h1 in
  alter (with_propagated
           (λ pe, if decide (other ∈ pe_targets event_name pe) then pe
                  else pe_set event_name (pe_targets event_name pe ++ [other]) pe))
        object h2.

(** Modelled from the spec: [BrainBrowser.utils.isFunction] is defined outside
    the source file; the test [isFunction(other.allPropagationTargets)] holds
    of exactly the objects that expose the query of the transitive targets,
    that is, of the objects that received the event model. *)
Definition has_event_model (h : heap) (other : nat) : bool :=
  bool_decide (is_Some (h !! other)).

(** [object.propagateEventTo(event_name, other)] *)
Definition propagateEventTo (fuel : nat) (h : heap) (object : nat)
    (event_name : string) (other : nat) : outcome (gmap nat Obj) :=
  match h !! object with
  | None => Abort
  | Some _ =>
      if negb (has_event_model h other) then Throw MissingCapabilityError
      else if decide (object = root) then Throw CycleError
      else
        match allPropagationTargets fuel h other (Some event_name) with
        | None => Abort
        | Some all =>
            if decide (object ∈ all) then Throw CycleError
            else Return (add_edge object event_name other h)
        end
  end.

(** [object.propagateEventFrom(event_name, other)] *)
Definition propagateEventFrom (fuel : nat) (h : heap) (object : nat)
    (event_name : string) (other : nat) : outcome (gmap nat Obj) :=
  propagateEventTo fuel h other event_name object.

(** [callback.apply(this, args)] *)
Definition call (cb : callback) (this : nat) (h : heap) : heap :=
  match cb with
  | Handler _ => h
  | Cleanup object other =>
      if decide (this = other) then stopPropagatingTo object other h else h
  end.

(** [callbacks.forEach(function(callback) { callback.apply(this, args); })] *)
Fixpoint apply_all (cbs : list callback) (this : nat) (args : list value) (h : heap)
  : gmap nat Obj * list event :=
  match cbs with
  | [] => (h, [])
  | cb :: cbs' =>
      let '(h', t) := apply_all cbs' this args (call cb this h) in
      (h', Called cb this args :: t)
  end.

(** [propagate_to.forEach(function(other) { ... })] for a given callee. *)
Fixpoint forEach_target (f : nat → gmap nat Obj → option (gmap nat Obj * list event))
    (targets : list nat) (h : heap) : option (gmap nat Obj * list event) :=
  match targets with
  | [] => Some (h, [])
  | other :: targets' =>
      '(h1, t1) ← f other h;
      '(h2, t2) ← forEach_target f targets' h1;
      Some (h2, t1 ++ t2)
  end.

(** Lines 96-106 of [triggerEvent]: the listeners of the object itself. *)
Definition own_listeners (h : heap) (object this : nat) (event_name : string)
    (args : list value) : gmap nat Obj * list event :=
  let full_args := VStr event_name :: args in
  let '(h1, t1) := apply_all (listeners h object event_name) this args h in
  let '(h2, t2) := apply_all (listeners h1 object wildcard) this full_args h1 in
  (h2, t1 ++ t2).

(** [object.triggerEvent.apply(this, [event_name].concat(args))] *)
Fixpoint triggerEvent (fuel : nat) (object this : nat) (event_name : string)
    (args : list value) (h : heap) : option (gmap nat Obj * list event) :=
  match fuel with
  | 0 => None
  | S n =>
      match h !! object with
      | None => None
      | Some _ =>
          let propagate_to := directPropagationTargets h object (Some event_name) in
          let '(h2, t2) := own_listeners h object this event_name args in
          '(h3, t3) ← forEach_target (λ other, triggerEvent n other this event_name args)
                                     propagate_to h2;
          if decide (propagate_to = [] ∧ object ≠ root) then
            '(h4, t4) ← triggerEvent n root this event_name args h3;
            Some (h4, Fired object this event_name args :: t2 ++ t3 ++ t4)
          else
            Some (h3, Fired object this event_name args :: t2 ++ t3)
      end
  end.

(** [object.triggerEvent(event_name, ...args)] called as a method. *)
Definition trigger (fuel : nat) (object : nat) (event_name : string)
    (args : list value) (h : heap) : option (gmap nat Obj * list event) :=
  triggerEvent fuel object object event_name args h.

(** ** Notions used by the statements *)

(** During a dispatch the store changes only through cleanup closures, and
    only those whose [other] is the [this] of the dispatch act: an object
    either keeps its registries or has [this] removed from every target
    sequence. *)
Definition pruned (this : nat) (h h' : gmap nat Obj) : Prop :=
  ∀ o, h' !! o = h !! o ∨ h' !! o = with_propagated (prune this) <$> h !! o.

(** The calls that one entry into [triggerEvent] makes to the listeners of
    [object]: those under the name, then those under the wildcard. *)
Definition calls (h : heap) (object this : nat) (event_name : string)
    (args : list value) : list event :=
  ((λ cb, Called cb this args) <$> listeners h object event_name)
  ++ ((λ cb, Called cb this (VStr event_name :: args)) <$> listeners h object wildcard).

(** The objects on which the event fired, in order. *)
Definition fires (t : list event) : list nat :=
  omap (λ ev, match ev with Fired o _ _ _ => Some o | Called _ _ _ => None end) t.

(** Every propagation edge for [event_name] leads to an object of the store
    of strictly smaller rank: the graph of the event is acyclic. *)
Definition descending (h : heap) (event_name : string) (rank : nat → nat) : Prop :=
  ∀ o t, t ∈ directPropagationTargets h o (Some event_name) →
         is_Some (h !! t) ∧ rank t < rank o.

(** The root carries the event model and propagates [event_name] nowhere. *)
Definition root_sink (h : heap) (event_name : string) : Prop :=
  is_Some (h !! root) ∧ directPropagationTargets h root (Some event_name) = [].

(** Every target of an edge holds the cleanup closure of that edge. *)
Definition cleanup_wired (h : heap) : Prop :=
  ∀ object other, other ∈ directPropagationTargets h object None →
                  Cleanup object other ∈ listeners h other eventmodelcleanup.

(** No object propagates any event to [other]. *)
Definition no_edge_to (h : heap) (other : nat) : Prop :=
  ∀ o e, other ∉ directPropagationTargets h o e.

(** The store after a call of [propagateEventTo] on [h]: a call that throws
    has recorded nothing (the checks come before line 151). *)
Definition store_after (r : outcome (gmap nat Obj)) (h : heap) : gmap nat Obj :=
  match r with
  | Return h' => h'
  | Throw _ | Abort => h
  end.


(** The propagation registry of the source once lines 151 and 161-163 ran. *)
Definition pe_add (event_name : string) (other : nat) (pe : list (string * list nat))
  : list (string * list nat) :=
  let pe1 := pe_set event_name (pe_targets event_name pe) pe in
  if decide (other ∈ pe_targets event_name pe1) then pe1
  else pe_set event_name (pe_targets event_name pe1 ++ [other]) pe1.

(** Every target of an edge carries the event model. *)
Definition closed (h : heap) : Prop :=
  ∀ o e t, t ∈ directPropagationTargets h o e → is_Some (h !! t).

(** The stores that the methods build from the initial one.  The host
    attaches the model to objects that do not have it yet and registers
    handlers of its own.  (A call that throws leaves the registries as they
    were, and a call that returns at a name that a prototype defines returns
    what is given here: the stores that the program reaches are among
    these.) *)
Inductive built : gmap nat Obj → Prop :=
  | built_initial : built initial
  | built_addEventModel o h :
      built h → h !! o = None → built (addEventModel o h)
  | built_addEventListener o name id h :
      built h → built (addEventListener o name (Handler id) h)
  | built_propagateEventTo fuel A E B h h1 :
      built h → propagateEventTo fuel h A E B = Return h1 → built h1
  | built_stopPropagatingTo o other h :
      built h → built (stopPropagatingTo o other h)
  | built_triggerEvent fuel o this E args h h1 t :
      built h → triggerEvent fuel o this E args h = Some (h1, t) → built h1.

(** Executable test of [descending] over the objects of the store. *)
Definition descendingb (h : heap) (event_name : string) (rank : nat → nat) : bool :=
  forallb (λ entry : nat * Obj,
             forallb (λ t, bool_decide (is_Some (h !! t)) && bool_decide (rank t < rank entry.1))
                     (collect_targets (propagated_events entry.2) (Some event_name)))
          (map_to_list h).

(** Executable test of [cleanup_wired] over the objects of the store. *)
Definition cleanup_wiredb (h : heap) : bool :=
  forallb (λ entry : nat * Obj,
             forallb (λ t, bool_decide (Cleanup entry.1 t ∈ listeners h t eventmodelcleanup))
                     (collect_targets (propagated_events entry.2) None))
          (map_to_list h).

(** ** Small scenarios *)

(** [A.propagateEventTo(E, B)] as a step of a script. *)
Definition link (A : nat) (E : string) (B : nat) (h : heap) : gmap nat Obj :=
  store_after (propagateEventTo 8 h A E B) h.

(** The root and two fresh objects, 1 and 2. *)
Definition two_objects : gmap nat Obj := addEventModel 2 (addEventModel 1 initial).

(** [A.register("load", h1); A.register("*", h2)] with A the object 1. *)
Definition load_listeners : gmap nat Obj :=
  addEventListener 1 wildcard (Handler 2) (addEventListener 1 "load" (Handler 1) two_objects).

(** Object 1 propagates "e" to object 2; the root listens to "e". *)
Definition pair : gmap nat Obj :=
  addEventListener root "e" (Handler 0) (link 1 "e" 2 two_objects).

(** 1 propagates "e" to 2 and 2 propagates "e" to 3; each of them and the
    root has a handler for "e", and 2 has a wildcard handler as well. *)
Definition chain : gmap nat Obj :=
  addEventListener 2 wildcard (Handler 20)
    (addEventListener root "e" (Handler 0)
       (addEventListener 3 "e" (Handler 3)
          (addEventListener 2 "e" (Handler 2)
             (addEventListener 1 "e" (Handler 1)
                (link 2 "e" 3 (link 1 "e" 2 (addEventModel 3 two_objects))))))).

Definition chain_rank (o : nat) : nat := 3 - o.

(** ** Notions used by the further properties *)

(** [x] is reached from [o] along one or more propagation edges of the
    event ([e] as for [directPropagationTargets]). *)
Inductive reaches (h : gmap nat Obj) (e : option string) : nat → nat → Prop :=
  | reaches_direct o x :
      x ∈ directPropagationTargets h o e → reaches h e o x
  | reaches_step o t x :
      t ∈ directPropagationTargets h o e → reaches h e t x → reaches h e o x.

(** No object reaches itself along the edges of the event. *)
Definition acyclic (h : heap) (e : option string) : Prop :=
  ∀ o, ¬ reaches h e o o.

(** Cleanup closures are registered under the cleanup event only, on the
    target they unlink. *)
Definition cleanup_in_place (h : heap) : Prop :=
  ∀ o name object other,
    Cleanup object other ∈ listeners h o name → name = eventmodelcleanup ∧ o = other.

(** No target sequence lists an object twice. *)
Definition nodup_targets (h : heap) : Prop :=
  ∀ o ob name, h !! o = Some ob → NoDup (pe_targets name (propagated_events ob)).

(** Every record of a dispatch carries the execution context, the event name
    and the arguments of the trigger that started it. *)
Definition of_dispatch (this : nat) (event_name : string) (args : list value)
    (ev : event) : Prop :=
  match ev with
  | Fired _ this' name args' => this' = this ∧ name = event_name ∧ args' = args
  | Called _ this' args' =>
      this' = this ∧ (args' = args ∨ args' = VStr event_name :: args)
  end.

(** Object 1 propagates "e" to itself (the call is accepted). *)
Definition looped : gmap nat Obj := link 1 "e" 1 two_objects.

(** Object 1 propagates "e" to the objects 2 and 3, in that order; each of
    the three has a handler for "e". *)
Definition fan : gmap nat Obj :=
  addEventListener 3 "e" (Handler 3)
    (addEventListener 2 "e" (Handler 2)
       (addEventListener 1 "e" (Handler 1)
          (link 1 "e" 3 (link 1 "e" 2 (addEventModel 3 two_objects))))).

(** Object 1 propagates every event to 3, then "e" to 2. *)
Definition wild_first : gmap nat Obj :=
  link 1 "e" 2 (link 1 wildcard 3 (addEventModel 3 two_objects)).

(** Object 1 propagates "b" to 3, then "7" to 2. *)
Definition numbered : gmap nat Obj :=
  link 1 "7" 2 (link 1 "b" 3 (addEventModel 3 two_objects)).

(** Object 1 propagates "e" to the root. *)
Definition to_root : gmap nat Obj := link 1 "e" root two_objects.

(** ** Event names that the registries inherit

    [propagated_events] is a plain object and [event_listeners] an array
    (lines 44-45), and both are read with [registry[event_name]]: when the
    registry has no key of that name of its own, JavaScript looks the name up
    in the prototype of the registry.  The definitions above read own keys
    only: they are the methods at the event names that no prototype defines.
    The definitions below follow the lookup through the prototypes and give
    the methods at every name. *)

(** Modelled from the ECMAScript standard, since the built-in prototypes are
    not among the sources: the properties with a string name of
    [Object.prototype], taken as the engine provides it (no property added by
    the host). *)
Definition object_prototype : list string :=
  ["constructor"; "hasOwnProperty"; "isPrototypeOf"; "propertyIsEnumerable";
   "toLocaleString"; "toString"; "valueOf"; "__proto__";
   "__defineGetter__"; "__defineSetter__"; "__lookupGetter__"; "__lookupSetter__"].

(** Modelled from the ECMAScript standard: the methods of [Array.prototype]
    (which itself inherits from [Object.prototype]). *)
Definition array_prototype : list string :=
  ["at"; "concat"; "copyWithin"; "entries"; "every"; "fill"; "filter"; "find";
   "findIndex"; "findLast"; "findLastIndex"; "flat"; "flatMap"; "forEach";
   "includes"; "indexOf"; "join"; "keys"; "lastIndexOf"; "map"; "pop"; "push";
   "reduce"; "reduceRight"; "reverse"; "shift"; "slice"; "some"; "sort";
   "splice"; "toReversed"; "toSorted"; "toSpliced"; "unshift"; "values"; "with"].

(** The event names for which a lookup in either registry can only find a
    key of the registry itself: not a property of the prototypes, and not
    the [length] of the array. *)
Definition not_inherited (name : string) : Prop :=
  (name ∉ object_prototype) ∧ (name ∉ array_prototype) ∧ (name ≠ "length").

#[global] Instance not_inherited_dec name : Decision (not_inherited name).
Proof. unfold not_inherited. apply _. Defined.

(** How a call ends: it returns, it throws one of the two errors of
    [propagateEventTo], it throws a [TypeError] (a method called on a value
    that has none of that name), or it exhausts the call stack.  A call that
    throws leaves no result; the store it leaves is not described. *)
Inductive run (A : Type) :=
  | Done (a : A)
  | Thrown (e : error)
  | TypeError
  | StackOverflow.
Arguments Done {A} a.
Arguments Thrown {A} e.
Arguments TypeError {A}.
Arguments StackOverflow {A}.

Definition returned {A} (r : run A) : option A :=
  match r with
  | Done a => Some a
  | Thrown _ | TypeError | StackOverflow => None
  end.

Definition outcome_of {A} (r : run A) : outcome A :=
  match r with
  | Done a => Return a
  | Thrown e => Throw e
  | TypeError | StackOverflow => Abort
  end.

(** The value of a decimal digit. *)
Definition digit (a : Ascii.ascii) : option N :=
  let n := Ascii.N_of_ascii a in
  if decide (48 ≤ n ∧ n ≤ 57)%N then Some (n - 48)%N else None.

Fixpoint digits (s : string) (acc : N) : option N :=
  match s with
  | EmptyString => Some acc
  | String a s' => d ← digit a; digits s' (10 * acc + d)%N
  end.

(** The keys that an array counts as indices: the canonical decimal numerals
    below 2^32 - 1. *)
Definition array_index (s : string) : option N :=
  match s with
  | EmptyString => None
  | String a s' =>
      if decide (Ascii.N_of_ascii a = 48%N ∧ s' ≠ EmptyString) then None
      else i ← digits s 0%N; if decide (i < 4294967295)%N then Some i else None
  end.

(** [Object.keys(propagated_events)]: the keys that are array indices come
    first, in ascending order, then the other keys in the order in which
    they were created. *)
Definition index_le (a b : string) : Prop :=
  (default 0 (array_index a) ≤ default 0 (array_index b))%N.

#[global] Instance index_le_dec a b : Decision (index_le a b).
Proof. unfold index_le. apply _. Defined.

Definition own_keys (pe : list (string * list nat)) : list string :=
  merge_sort index_le (filter (λ name, is_Some (array_index name)) (pe_keys pe))
  ++ filter (λ name, ¬ is_Some (array_index name)) (pe_keys pe).

(** [propagated_events[name] || []] as a value on which [forEach] can be
    called (lines 234-235): the sequence under a key of the registry; the
    empty sequence for a name that is nowhere defined; and for a name of
    [Object.prototype] the inherited property, which has no [forEach]. *)
Definition targets_lookup (pe : list (string * list nat)) (name : string)
  : option (list nat) :=
  match pe_get name pe with
  | Some targets => Some targets
  | None => if decide (name ∈ object_prototype) then None else Some []
  end.

(** The loop of lines 233-240 over the event names. *)
Fixpoint forEach_name (pe : list (string * list nat)) (event_names : list string)
    (propagation_targets : list nat) : option (list nat) :=
  match event_names with
  | [] => Some propagation_targets
  | name :: event_names' =>
      targets ← targets_lookup pe name;
      forEach_name pe event_names' (foldl push_new propagation_targets targets)
  end.

Definition collect_targets_run (pe : list (string * list nat))
    (event_name : option string) : option (list nat) :=
  forEach_name pe
    match event_name with
    | None => own_keys pe
    | Some e => [e; wildcard]
    end [].

(** [object.directPropagationTargets(event_name)] at every name. *)
Definition directPropagationTargets_run (h : heap) (object : nat)
    (event_name : option string) : run (list nat) :=
  match h !! object with
  | None => TypeError
  | Some ob =>
      match collect_targets_run (propagated_events ob) event_name with
      | None => TypeError
      | Some propagation_targets => Done propagation_targets
      end
  end.

(** [event_listeners.length]: one more than the largest index among the keys. *)
Definition array_length (ls : gmap string (list callback)) : N :=
  map_fold (λ name _ len,
              match array_index name with
              | Some i => N.max len (i + 1)
              | None => len
              end) 0%N ls.

(** [if (event_listeners[name]) event_listeners[name].forEach(...)] (lines
    96-97 and 102-103): the callbacks that the loop calls, or [None] when the
    value is truthy and has no [forEach].  A key of the registry holds a
    sequence of callbacks (registration creates no key under a name the
    array defines: the call of [push] in line 74 throws there).  Otherwise
    [length] is the number above, [__proto__] is [Array.prototype], an array
    without elements, and every other inherited name is a function. *)
Definition listeners_lookup (ls : gmap string (list callback)) (name : string)
  : option (list callback) :=
  match ls !! name with
  | Some callbacks => Some callbacks
  | None =>
      if decide (name = "length") then
        if decide (array_length ls = 0%N) then Some [] else None
      else if decide (name = "__proto__") then Some []
      else if decide (name ∈ array_prototype ∨ name ∈ object_prototype) then None
      else Some []
  end.

Definition listeners_run (h : heap) (object : nat) (name : string)
  : option (list callback) :=
  ob ← h !! object; listeners_lookup (event_listeners ob) name.

(** [object.addEventListener(event_name, callback)] at every name.  Under a
    key of the registry, or a name that is defined nowhere, the callback is
    appended.  Under [length] line 74 calls [push] on a number and under the
    name of an inherited function on that function: a [TypeError], and the
    registry is as before.  Under [__proto__] line 74 pushes the callback
    onto [Array.prototype], which the store does not describe: the
    registries are as before. *)
Definition addEventListener_run (object : nat) (event_name : string) (cb : callback)
    (h : heap) : run (gmap nat Obj) :=
  match h !! object with
  | None => TypeError
  | Some ob =>
      match event_listeners ob !! event_name with
      | Some _ => Done (addEventListener object event_name cb h)
      | None =>
          if decide (event_name = "length") then TypeError
          else if decide (event_name = "__proto__") then Done h
          else if decide (event_name ∈ array_prototype ∨ event_name ∈ object_prototype)
               then TypeError
          else Done (addEventListener object event_name cb h)
      end
  end.

(** [propagate_to.forEach(function(other) { ... })] when a call can throw. *)
Fixpoint forEach_target_run (f : nat → gmap nat Obj → run (gmap nat Obj * list event))
    (targets : list nat) (h : heap) : run (gmap nat Obj * list event) :=
  match targets with
  | [] => Done (h, [])
  | other :: targets' =>
      match f other h with
      | Done (h1, t1) =>
          match forEach_target_run f targets' h1 with
          | Done (h2, t2) => Done (h2, t1 ++ t2)
          | r => r
          end
      | r => r
      end
  end.

(** [object.triggerEvent.apply(this, [event_name].concat(args))] at every
    name: line 94 computes the direct targets, lines 96-106 look the
    listeners up and call them, lines 108-114 propagate. *)
Fixpoint triggerEvent_run (fuel : nat) (object this : nat) (event_name : string)
    (args : list value) (h : heap) : run (gmap nat Obj * list event) :=
  match fuel with
  | 0 => StackOverflow
  | S n =>
      match directPropagationTargets_run h object (Some event_name) with
      | Done propagate_to =>
          match listeners_run h object event_name with
          | None => TypeError
          | Some named =>
              let '(h1, t1) := apply_all named this args h in
              match listeners_run h1 object wildcard with
              | None => TypeError
              | Some any =>
                  let '(h2, t2) := apply_all any this (VStr event_name :: args) h1 in
                  match forEach_target_run
                          (λ other, triggerEvent_run n other this event_name args)
                          propagate_to h2 with
                  | Done (h3, t3) =>
                      if decide (propagate_to = [] ∧ object ≠ root) then
                        match triggerEvent_run n root this event_name args h3 with
                        | Done (h4, t4) =>
                            Done (h4, Fired object this event_name args
                                        :: (t1 ++ t2) ++ t3 ++ t4)
                        | r => r
                        end
                      else
                        Done (h3, Fired object this event_name args :: (t1 ++ t2) ++ t3)
                  | r => r
                  end
              end
          end
      | Thrown e => Thrown e
      | TypeError => TypeError
      | StackOverflow => StackOverflow
      end
  end.

(** The loop of [allPropagationTargets] when a call can throw. *)
Fixpoint forEach_collect_run (f : nat → run (list nat)) (targets : list nat)
    (propagation_targets : list nat) : run (list nat) :=
  match targets with
  | [] => Done propagation_targets
  | target :: targets' =>
      match f target with
      | Done recursive =>
          forEach_collect_run f targets' (foldl push_new propagation_targets recursive)
      | r => r
      end
  end.

(** [object.allPropagationTargets(event_name)] at every name. *)
Fixpoint allPropagationTargets_run (fuel : nat) (h : heap) (object : nat)
    (event_name : option string) : run (list nat) :=
  match fuel with
  | 0 => StackOverflow
  | S n =>
      match directPropagationTargets_run h object event_name with
      | Done direct_targets =>
          forEach_collect_run (λ target, allPropagationTargets_run n h target event_name)
                              direct_targets direct_targets
      | r => r
      end
  end.

(** [object.propagateEventTo(event_name, other)] at every name.  Line 151
    stores [propagated_events[event_name] || []] under the name: for a name
    of [Object.prototype] that is the inherited property, and the loops of
    lines 153 and 161 then throw on it. *)
Definition propagateEventTo_run (fuel : nat) (h : heap) (object : nat)
    (event_name : string) (other : nat) : run (gmap nat Obj) :=
  match h !! object with
  | None => TypeError
  | Some ob =>
      if negb (has_event_model h other) then Thrown MissingCapabilityError
      else if decide (object = root) then Thrown CycleError
      else
        match allPropagationTargets_run fuel h other (Some event_name) with
        | Done all =>
            if decide (object ∈ all) then Thrown CycleError
            else
              match targets_lookup (propagated_events ob) event_name with
              | None => TypeError
              | Some _ => Done (add_edge object event_name other h)
              end
        | Thrown e => Thrown e
        | TypeError => TypeError
        | StackOverflow => StackOverflow
        end
  end.

(** ** The registry: lookups and updates *)

Section registry.
Implicit Types (pe : list (string * list nat)) (k : string) (l acc : list nat).

Lemma pe_get_set_eq k l pe : pe_get k (pe_set k l pe) = Some l.
Proof.
  induction pe as [|[k' v] pe IH]; simpl.
  - by rewrite decide_True.
  - destruct (decide (k' = k)) as [->|Hne]; simpl.
    + by rewrite decide_True.
    + by rewrite decide_False.
Qed.

Lemma pe_get_set_ne k k' l pe : k ≠ k' → pe_get k' (pe_set k l pe) = pe_get k' pe.
Proof.
  intros Hne. induction pe as [|[k0 v] pe IH]; simpl.
  - by rewrite decide_False.
  - destruct (decide (k0 = k)) as [->|Hne0]; simpl.
    + by rewrite !decide_False.
    + destruct (decide (k0 = k')); auto.
Qed.


Lemma pe_keys_set k l pe : k ∈ pe_keys (pe_set k l pe).
Proof.
  unfold pe_keys. induction pe as [|[k' v] pe IH]; simpl.
  - apply list_elem_of_here.
  - destruct (decide (k' = k)); simpl.
    + apply list_elem_of_here.
    + by apply list_elem_of_further.
Qed.

Lemma pe_get_Some_keys k l pe : pe_get k pe = Some l → k ∈ pe_keys pe.
Proof.
  unfold pe_keys. induction pe as [|[k' v] pe IH]; simpl; [done|].
  destruct (decide (k' = k)) as [->|Hne]; intros H.
  - apply list_elem_of_here.
  - apply list_elem_of_further; auto.
Qed.

Lemma pe_targets_set_eq k l pe : pe_targets k (pe_set k l pe) = l.
Proof. unfold pe_targets. by rewrite pe_get_set_eq. Qed.

Lemma pe_targets_set_ne k k' l pe :
  k ≠ k' → pe_targets k' (pe_set k l pe) = pe_targets k' pe.
Proof. intros. unfold pe_targets. by rewrite pe_get_set_ne. Qed.

Lemma pe_keys_prune o pe : pe_keys (prune o pe) = pe_keys pe.
Proof.
  unfold pe_keys, prune. induction pe as [|[k v] pe IH]; simpl; [done|].
  f_equal. exact IH.
Qed.

Lemma pe_get_prune o k pe :
  pe_get k (prune o pe) = filter (λ target, target ≠ o) <$> pe_get k pe.
Proof.
  unfold prune. induction pe as [|[k' v] pe IH]; simpl; [done|].
  destruct (decide (k' = k)); simpl; auto.
Qed.

Lemma pe_targets_prune o k pe :
  pe_targets k (prune o pe) = filter (λ target, target ≠ o) (pe_targets k pe).
Proof.
  unfold pe_targets. rewrite pe_get_prune. by destruct (pe_get k pe).
Qed.

Lemma filter_ne_id o l : o ∉ l → filter (λ target, target ≠ o) l = l.
Proof.
  induction l as [|x l IH]; [done|].
  rewrite not_elem_of_cons. intros [Hne Hl].
  rewrite filter_cons_True; [|congruence]. by rewrite IH.
Qed.

Lemma filter_ne_idemp o l :
  filter (λ target, target ≠ o) (filter (λ target, target ≠ o) l)
  = filter (λ target, target ≠ o) l.
Proof.
  apply filter_ne_id. rewrite list_elem_of_filter. naive_solver.
Qed.

Lemma prune_idemp o pe : prune o (prune o pe) = prune o pe.
Proof.
  unfold prune. induction pe as [|[k v] pe IH]; simpl; [done|].
  by rewrite filter_ne_idemp, IH.
Qed.

End registry.

(** ** De-duplicated collection of targets *)

Section collect.
Implicit Types (pe : list (string * list nat)) (l acc : list nat).

Lemma elem_of_push_new x acc y : x ∈ push_new acc y ↔ x ∈ acc ∨ x = y.
Proof.
  unfold push_new. case_decide.
  - naive_solver.
  - rewrite elem_of_app, list_elem_of_singleton. done.
Qed.

Lemma elem_of_foldl_push_new x acc l : x ∈ foldl push_new acc l ↔ x ∈ acc ∨ x ∈ l.
Proof.
  revert acc. induction l as [|y l IH]; intros acc; simpl.
  - rewrite elem_of_nil. naive_solver.
  - rewrite IH, elem_of_push_new, elem_of_cons. naive_solver.
Qed.

Lemma NoDup_push_new acc y : NoDup acc → NoDup (push_new acc y).
Proof.
  intros Hnd. unfold push_new. case_decide; [done|].
  apply NoDup_app. split_and!; [done| |apply NoDup_singleton].
  intros x Hx Hy. apply list_elem_of_singleton in Hy. congruence.
Qed.

Lemma NoDup_foldl_push_new acc l : NoDup acc → NoDup (foldl push_new acc l).
Proof.
  revert acc. induction l as [|y l IH]; intros acc Hnd; simpl; [done|].
  by apply IH, NoDup_push_new.
Qed.

Lemma foldl_push_new_filter o acc l :
  foldl push_new (filter (λ t, t ≠ o) acc) (filter (λ t, t ≠ o) l)
  = filter (λ t, t ≠ o) (foldl push_new acc l).
Proof.
  revert acc. induction l as [|y l IH]; intros acc; simpl; [done|].
  destruct (decide (y = o)) as [->|Hne].
  - rewrite filter_cons_False by naive_solver.
    rewrite <- IH. f_equal. unfold push_new. case_decide; [done|].
    rewrite filter_app, filter_cons_False by naive_solver.
    by rewrite filter_nil, app_nil_r.
  - rewrite filter_cons_True by done. simpl.
    rewrite <- IH. f_equal. unfold push_new.
    destruct (decide (y ∈ acc)) as [Hin|Hnin].
    + rewrite decide_True; [done|]. rewrite list_elem_of_filter. done.
    + rewrite decide_False.
      * rewrite filter_app, filter_cons_True by done. by rewrite filter_nil.
      * rewrite list_elem_of_filter. naive_solver.
Qed.

Lemma foldl_names_filter o pe names acc :
  foldl (λ acc name, foldl push_new acc (pe_targets name (prune o pe)))
        (filter (λ t, t ≠ o) acc) names
  = filter (λ t, t ≠ o)
      (foldl (λ acc name, foldl push_new acc (pe_targets name pe)) acc names).
Proof.
  revert acc. induction names as [|n names IH]; intros acc; simpl; [done|].
  rewrite pe_targets_prune, foldl_push_new_filter. apply IH.
Qed.

Lemma collect_targets_prune o pe e :
  collect_targets (prune o pe) e = filter (λ t, t ≠ o) (collect_targets pe e).
Proof.
  unfold collect_targets. rewrite <- foldl_names_filter.
  rewrite filter_nil. destruct e; [done|]. by rewrite pe_keys_prune.
Qed.

Lemma elem_of_foldl_names x pe names acc :
  x ∈ foldl (λ acc name, foldl push_new acc (pe_targets name pe)) acc names
  ↔ x ∈ acc ∨ ∃ k, k ∈ names ∧ x ∈ pe_targets k pe.
Proof.
  revert acc. induction names as [|n names IH]; intros acc; simpl.
  - split; [auto|]. intros [?|(k & Hk & _)]; [done|]. by apply elem_of_nil in Hk.
  - rewrite IH, elem_of_foldl_push_new. split.
    + intros [[?|?]|(k & Hk & ?)]; [auto| |].
      * right. exists n. split; [apply list_elem_of_here|done].
      * right. exists k. split; [by apply list_elem_of_further|done].
    + intros [?|(k & Hk & ?)]; [auto|].
      apply elem_of_cons in Hk as [->|Hk]; [auto|].
      right. eauto.
Qed.

Lemma elem_of_collect_targets_Some x pe e :
  x ∈ collect_targets pe (Some e) ↔ x ∈ pe_targets e pe ∨ x ∈ pe_targets wildcard pe.
Proof.
  unfold collect_targets. simpl. rewrite !elem_of_foldl_push_new, elem_of_nil.
  naive_solver.
Qed.

Lemma elem_of_collect_targets_None x pe :
  x ∈ collect_targets pe None ↔ ∃ k, k ∈ pe_keys pe ∧ x ∈ pe_targets k pe.
Proof.
  unfold collect_targets. rewrite elem_of_foldl_names, elem_of_nil. naive_solver.
Qed.

Lemma NoDup_foldl_names pe names acc :
  NoDup acc →
  NoDup (foldl (λ acc name, foldl push_new acc (pe_targets name pe)) acc names).
Proof.
  revert acc. induction names as [|n names IH]; intros acc Hnd; simpl; [done|].
  by apply IH, NoDup_foldl_push_new.
Qed.

Lemma NoDup_collect_targets pe e : NoDup (collect_targets pe e).
Proof. apply NoDup_foldl_names, NoDup_nil_2. Qed.

Lemma collect_targets_nil (e : option string) : collect_targets [] e = [].
Proof. by destruct e. Qed.

Lemma collect_targets_Some_None x pe e :
  x ∈ collect_targets pe (Some e) → x ∈ collect_targets pe None.
Proof.
  rewrite elem_of_collect_targets_Some, elem_of_collect_targets_None.
  unfold pe_targets.
  intros [H|H]; [exists e|exists wildcard];
    (split; [|done]); destruct (pe_get _ pe) eqn:E;
    try (by apply elem_of_nil in H); by eapply pe_get_Some_keys.
Qed.
End collect.

(** ** What a dispatch can do to the store *)

Section pruned.
Implicit Types (h : gmap nat Obj) (this o : nat).

Lemma with_propagated_prune_idemp this (x : option Obj) :
  with_propagated (prune this) <$> (with_propagated (prune this) <$> x)
  = with_propagated (prune this) <$> x.
Proof.
  destruct x as [[ls pe]|]; simpl; [|done].
  unfold with_propagated; simpl. by rewrite prune_idemp.
Qed.

Lemma pruned_refl this h : pruned this h h.
Proof. intros o. by left. Qed.

Lemma pruned_trans this h1 h2 h3 :
  pruned this h1 h2 → pruned this h2 h3 → pruned this h1 h3.
Proof.
  intros H12 H23 o. destruct (H12 o) as [E1|E1], (H23 o) as [E2|E2];
    rewrite E2, E1; auto.
  right. apply with_propagated_prune_idemp.
Qed.

Lemma stopPropagatingTo_pruned object this h :
  pruned this h (stopPropagatingTo object this h).
Proof.
  intros o. unfold stopPropagatingTo.
  destruct (decide (object = o)) as [->|Hne].
  - right. by rewrite lookup_alter_eq.
  - left. by rewrite lookup_alter_ne.
Qed.

Lemma call_pruned cb this h : pruned this h (call cb this h).
Proof.
  destruct cb as [id|object other]; simpl; [apply pruned_refl|].
  case_decide as E; [|apply pruned_refl]. subst other.
  apply stopPropagatingTo_pruned.
Qed.

Lemma apply_all_spec cbs this args h :
  ∃ h', apply_all cbs this args h = (h', (λ cb, Called cb this args) <$> cbs)
        ∧ pruned this h h'.
Proof.
  revert h. induction cbs as [|cb cbs IH]; intros h; simpl.
  - exists h. split; [done|apply pruned_refl].
  - destruct (IH (call cb this h)) as (h' & -> & Hp).
    exists h'. split; [done|].
    eapply pruned_trans; [apply call_pruned|done].
Qed.

Lemma pruned_lookup_Some this h h' o ob :
  pruned this h h' → h !! o = Some ob →
  ∃ ob', h' !! o = Some ob' ∧ event_listeners ob' = event_listeners ob
         ∧ (propagated_events ob' = propagated_events ob
            ∨ propagated_events ob' = prune this (propagated_events ob)).
Proof.
  intros Hp Ho. destruct (Hp o) as [E|E]; rewrite Ho in E.
  - exists ob. auto.
  - exists (with_propagated (prune this) ob). simpl. auto.
Qed.

Lemma pruned_lookup_None this h h' o :
  pruned this h h' → h !! o = None → h' !! o = None.
Proof. intros Hp Ho. destruct (Hp o) as [E|E]; by rewrite Ho in E. Qed.

Lemma pruned_is_Some this h h' o :
  pruned this h h' → is_Some (h !! o) → is_Some (h' !! o).
Proof.
  intros Hp [ob Ho]. destruct (pruned_lookup_Some _ _ _ _ _ Hp Ho) as (ob' & ? & _).
  eauto.
Qed.

Lemma pruned_listeners this h h' o name :
  pruned this h h' → listeners h' o name = listeners h o name.
Proof.
  intros Hp. unfold listeners. destruct (h !! o) as [ob|] eqn:Ho.
  - destruct (pruned_lookup_Some _ _ _ _ _ Hp Ho) as (ob' & Ho' & El & _).
    rewrite Ho'. simpl. by rewrite El.
  - by rewrite (pruned_lookup_None _ _ _ _ Hp Ho).
Qed.

Lemma pruned_direct this h h' o e :
  pruned this h h' →
  directPropagationTargets h' o e = directPropagationTargets h o e
  ∨ directPropagationTargets h' o e
    = filter (λ t, t ≠ this) (directPropagationTargets h o e).
Proof.
  intros Hp. unfold directPropagationTargets. destruct (h !! o) as [ob|] eqn:Ho.
  - destruct (pruned_lookup_Some _ _ _ _ _ Hp Ho) as (ob' & Ho' & _ & [E|E]);
      rewrite Ho'; simpl; rewrite E.
    + by left.
    + right. apply collect_targets_prune.
  - rewrite (pruned_lookup_None _ _ _ _ Hp Ho). by left.
Qed.

Lemma pruned_direct_subseteq this h h' o e :
  pruned this h h' →
  directPropagationTargets h' o e ⊆ directPropagationTargets h o e.
Proof.
  intros Hp x. destruct (pruned_direct _ _ _ o e Hp) as [-> | ->]; [done|].
  rewrite list_elem_of_filter. naive_solver.
Qed.

Lemma pruned_direct_notin this h h' o e :
  pruned this h h' → this ∉ directPropagationTargets h o e →
  directPropagationTargets h' o e = directPropagationTargets h o e.
Proof.
  intros Hp Hn. destruct (pruned_direct _ _ _ o e Hp) as [-> | ->]; [done|].
  by apply filter_ne_id.
Qed.

Lemma pruned_direct_nil this h h' o e :
  pruned this h h' → directPropagationTargets h o e = [] →
  directPropagationTargets h' o e = [].
Proof.
  intros Hp Hn. destruct (pruned_direct _ _ _ o e Hp) as [-> | ->]; [done|].
  by rewrite Hn.
Qed.

Lemma own_listeners_spec h object this event_name args :
  ∃ h', own_listeners h object this event_name args
        = (h', ((λ cb, Called cb this args) <$> listeners h object event_name)
               ++ ((λ cb, Called cb this (VStr event_name :: args))
                     <$> listeners h object wildcard))
        ∧ pruned this h h'.
Proof.
  unfold own_listeners.
  destruct (apply_all_spec (listeners h object event_name) this args h)
    as (h1 & -> & Hp1).
  destruct (apply_all_spec (listeners h1 object wildcard) this
              (VStr event_name :: args) h1) as (h2 & -> & Hp2).
  exists h2. rewrite (pruned_listeners _ _ _ _ _ Hp1). split; [done|].
  by eapply pruned_trans.
Qed.

Lemma forEach_target_pruned this f targets h h' t :
  (∀ o h1 h2 t1, f o h1 = Some (h2, t1) → pruned this h1 h2) →
  forEach_target f targets h = Some (h', t) → pruned this h h'.
Proof.
  intros Hf. revert h t. induction targets as [|o targets IH]; intros h t; simpl.
  - intros [= <- <-]. apply pruned_refl.
  - destruct (f o h) as [[h1 t1]|] eqn:E1; simpl; [|done].
    destruct (forEach_target f targets h1) as [[h2 t2]|] eqn:E2; simpl; [|done].
    intros [= <- <-]. eapply pruned_trans; eauto.
Qed.

Lemma triggerEvent_pruned fuel object this event_name args h h' t :
  triggerEvent fuel object this event_name args h = Some (h', t) →
  pruned this h h'.
Proof.
  revert object h h' t.
  induction fuel as [|n IH]; intros object h h' t; simpl; [done|].
  destruct (h !! object) as [ob|]; [|done].
  destruct (own_listeners_spec h object this event_name args) as (h2 & -> & Hp2).
  destruct (forEach_target _ _ h2) as [[h3 t3]|] eqn:E3; simpl; [|done].
  assert (pruned this h2 h3) as Hp3.
  { eapply forEach_target_pruned; [|exact E3].
    intros o h1 h1' t1 Hf. simpl in Hf. eauto. }
  case_decide.
  - destruct (triggerEvent n root this event_name args h3) as [[h4 t4]|] eqn:E4;
      simpl; [|done].
    intros [= <- <-]. eapply pruned_trans; [exact Hp2|].
    eapply pruned_trans; [exact Hp3|]. eauto.
  - intros [= <- <-]. eapply pruned_trans; eauto.
Qed.
End pruned.

(** ** One entry into [triggerEvent] *)

Section dispatch.
Implicit Types (h : gmap nat Obj) (this object : nat) (args : list value).

#[local] Arguments triggerEvent : simpl never.

Lemma triggerEvent_unfold n object this (event_name : string) args h :
  triggerEvent (S n) object this event_name args h
  = match h !! object with
    | None => None
    | Some _ =>
        let propagate_to := directPropagationTargets h object (Some event_name) in
        let '(h2, t2) := own_listeners h object this event_name args in
        '(h3, t3) ← forEach_target (λ other, triggerEvent n other this event_name args)
                                   propagate_to h2;
        if decide (propagate_to = [] ∧ object ≠ root) then
          '(h4, t4) ← triggerEvent n root this event_name args h3;
          Some (h4, Fired object this event_name args :: t2 ++ t3 ++ t4)
        else
          Some (h3, Fired object this event_name args :: t2 ++ t3)
    end.
Proof. reflexivity. Qed.

Lemma own_listeners_calls h object this (event_name : string) args :
  ∃ h', own_listeners h object this event_name args
        = (h', calls h object this event_name args)
        ∧ pruned this h h'.
Proof. apply own_listeners_spec. Qed.

Lemma calls_pruned this h h' o this' (e : string) args :
  pruned this h h' → calls h' o this' e args = calls h o this' e args.
Proof. intros Hp. unfold calls. by rewrite !(pruned_listeners _ _ _ _ _ Hp). Qed.

Lemma root_sink_pruned this h h' (e : string) :
  pruned this h h' → root_sink h e → root_sink h' e.
Proof.
  intros Hp [Hr Hnil]. split.
  - by eapply pruned_is_Some.
  - by eapply pruned_direct_nil.
Qed.

Lemma descending_pruned this h h' (e : string) rank :
  pruned this h h' → descending h e rank → descending h' e rank.
Proof.
  intros Hp Hd o t Ht. apply (pruned_direct_subseteq _ _ _ _ _ Hp) in Ht.
  destruct (Hd o t Ht) as [Hs Hlt]. split; [|done]. by eapply pruned_is_Some.
Qed.

Lemma no_edge_to_pruned this h h' other :
  pruned this h h' → no_edge_to h other → no_edge_to h' other.
Proof.
  intros Hp Hn o e Ht. apply (pruned_direct_subseteq _ _ _ _ _ Hp) in Ht.
  by apply (Hn o e).
Qed.

Lemma fires_app t1 t2 : fires (t1 ++ t2) = fires t1 ++ fires t2.
Proof. apply omap_app. Qed.

Lemma fires_called (f : callback → event) (cbs : list callback) :
  (∀ cb, ∃ this args, f cb = Called cb this args) → fires (f <$> cbs) = [].
Proof.
  intros Hf. induction cbs as [|cb cbs IH]; [done|].
  rewrite fmap_cons. unfold fires in *. simpl.
  destruct (Hf cb) as (this & args & ->). exact IH.
Qed.

Lemma fires_calls h object this (e : string) args : fires (calls h object this e args) = [].
Proof.
  unfold calls. rewrite fires_app, !fires_called; [done| |]; intros cb; eauto.
Qed.

Lemma triggerEvent_root n this (e : string) args h :
  root_sink h e →
  ∃ h', triggerEvent (S n) root this e args h
        = Some (h', Fired root this e args :: calls h root this e args)
        ∧ pruned this h h'.
Proof.
  intros [[ob Hr] Hnil]. rewrite triggerEvent_unfold, Hr. simpl.
  destruct (own_listeners_calls h root this e args) as (h2 & -> & Hp).
  rewrite Hnil. simpl. exists h2. by rewrite app_nil_r.
Qed.

Lemma triggerEvent_leaf n object this (e : string) args h :
  is_Some (h !! object) →
  directPropagationTargets h object (Some e) = [] →
  root_sink h e →
  ∃ h', triggerEvent (S (S n)) object this e args h
        = Some (h', Fired object this e args :: calls h object this e args
                    ++ (if decide (object = root) then []
                        else Fired root this e args :: calls h root this e args))
        ∧ pruned this h h'.
Proof.
  intros [ob Ho] Hnil Hroot. rewrite triggerEvent_unfold, Ho. simpl.
  destruct (own_listeners_calls h object this e args) as (h2 & -> & Hp).
  rewrite Hnil. simpl.
  destruct (decide (object = root)) as [->|Hne].
  - rewrite decide_False by naive_solver. exists h2. by rewrite !app_nil_r.
  - rewrite decide_True by done.
    destruct (triggerEvent_root n this e args h2) as (h4 & -> & Hp4).
    { by eapply root_sink_pruned. }
    simpl. exists h4. rewrite (calls_pruned _ _ _ _ _ _ _ Hp). split; [done|].
    by eapply pruned_trans.
Qed.

Lemma triggerEvent_propagating n object this (e : string) args h :
  is_Some (h !! object) →
  directPropagationTargets h object (Some e) ≠ [] →
  triggerEvent (S n) object this e args h
  = (let '(h2, t2) := own_listeners h object this e args in
     '(h3, t3) ← forEach_target (λ other, triggerEvent n other this e args)
                                (directPropagationTargets h object (Some e)) h2;
     Some (h3, Fired object this e args :: t2 ++ t3)).
Proof.
  intros [ob Ho] Hne. rewrite triggerEvent_unfold, Ho. simpl.
  destruct (own_listeners h object this e args) as [h2 t2].
  destruct (forEach_target _ _ h2) as [[h3 t3]|]; simpl; [|done].
  by rewrite decide_False by naive_solver.
Qed.

Lemma forEach_target_total (P : gmap nat Obj → Prop) f targets h :
  P h →
  (∀ o h1, o ∈ targets → P h1 → ∃ h2 t, f o h1 = Some (h2, t) ∧ P h2) →
  ∃ h' t, forEach_target f targets h = Some (h', t) ∧ P h'.
Proof.
  revert h. induction targets as [|o targets IH]; intros h HP Hf; simpl.
  - eauto.
  - destruct (Hf o h) as (h1 & t1 & -> & HP1); [apply list_elem_of_here|done|].
    simpl. destruct (IH h1) as (h2 & t2 & -> & HP2); [done| |].
    + intros o' h' Ho'. apply Hf. by apply list_elem_of_further.
    + simpl. eauto.
Qed.

Lemma triggerEvent_terminates rank (e : string) this args (fuel : nat) :
  ∀ object h,
    descending h e rank → root_sink h e → is_Some (h !! object) →
    (rank object + 2 ≤ fuel)%nat →
    ∃ h' t, triggerEvent fuel object this e args h = Some (h', t).
Proof.
  induction fuel as [|n IH]; intros object h Hd Hroot Ho Hfuel; [lia|].
  rewrite triggerEvent_unfold. destruct Ho as [ob Ho]. rewrite Ho. simpl.
  destruct (own_listeners_calls h object this e args) as (h2 & -> & Hp2).
  destruct (forEach_target_total (pruned this h)
              (λ other, triggerEvent n other this e args)
              (directPropagationTargets h object (Some e)) h2)
    as (h3 & t3 & -> & Hp3); [done| |].
  { intros o h1 Hin Hp1.
    destruct (Hd object o Hin) as [Hs Hlt].
    destruct (IH o h1) as (h' & t & E).
    - by eapply descending_pruned.
    - by eapply root_sink_pruned.
    - by eapply pruned_is_Some.
    - lia.
    - exists h', t. split; [done|].
      eapply pruned_trans; [done|]. by eapply triggerEvent_pruned. }
  simpl. case_decide; [|eauto].
  destruct n as [|n]; [lia|].
  destruct (triggerEvent_root n this e args h3) as (h4 & -> & _).
  { by eapply root_sink_pruned. }
  simpl. eauto.
Qed.

Lemma triggerEvent_head fuel object this (e : string) args h h' t :
  triggerEvent fuel object this e args h = Some (h', t) →
  ∃ rest, t = Fired object this e args :: calls h object this e args ++ rest
          ∧ (rest = [] ∨ ∃ o' rest', rest = Fired o' this e args :: rest').
Proof.
  revert object h h' t. induction fuel as [|n IH]; intros object h h' t; [done|].
  rewrite triggerEvent_unfold. destruct (h !! object) as [ob|]; [|done]. simpl.
  destruct (own_listeners_calls h object this e args) as (h2 & -> & Hp2).
  destruct (directPropagationTargets h object (Some e)) as [|o targets]; simpl.
  - case_decide.
    + destruct (triggerEvent n root this e args h2) as [[h4 t4]|] eqn:E4; simpl; [|done].
      intros [= <- <-]. exists t4. split; [done|]. right.
      destruct (IH _ _ _ _ E4) as (rest & -> & _). eauto.
    + intros [= <- <-]. exists []. auto.
  - destruct (triggerEvent n o this e args h2) as [[h1 t1]|] eqn:E1; simpl; [|done].
    destruct (forEach_target _ targets h1) as [[h3 t3]|]; simpl; [|done].
    intros [= <- <-]. exists (t1 ++ t3). split; [done|]. right.
    destruct (IH _ _ _ _ E1) as (rest & -> & _). simpl. eauto.
Qed.
End dispatch.

(** ** Acyclic stores *)

Lemma descendingb_spec (h : gmap nat Obj) (e : string) rank :
  descendingb h e rank = true → descending h e rank.
Proof.
  unfold descendingb, descending, directPropagationTargets.
  rewrite forallb_forall. intros Hall o t Ht.
  destruct (h !! o) as [ob|] eqn:Ho; simpl in Ht; [|by apply elem_of_nil in Ht].
  specialize (Hall (o, ob)). rewrite forallb_forall in Hall.
  assert (In (o, ob) (map_to_list h)) as Hin.
  { apply list_elem_of_In, elem_of_map_to_list. done. }
  specialize (Hall Hin t). simpl in Hall.
  rewrite <- list_elem_of_In in Hall. specialize (Hall Ht).
  apply andb_prop in Hall as [H1 H2].
  apply bool_decide_eq_true in H1, H2. done.
Qed.

(** ** Reaching a direct target *)

Section reach.
Implicit Types (h : gmap nat Obj) (this object : nat) (args : list value).

#[local] Arguments triggerEvent : simpl never.


Lemma forEach_target_elem this f targets h h' t x :
  (∀ o h1 h2 t1, f o h1 = Some (h2, t1) → pruned this h1 h2) →
  x ∈ targets →
  forEach_target f targets h = Some (h', t) →
  ∃ hx hx' tx pre post,
    pruned this h hx ∧ f x hx = Some (hx', tx) ∧ t = pre ++ tx ++ post.
Proof.
  intros Hf. revert h t. induction targets as [|o targets IH]; intros h t Hx; simpl.
  - by apply elem_of_nil in Hx.
  - destruct (f o h) as [[h1 t1]|] eqn:E1; simpl; [|done].
    destruct (forEach_target f targets h1) as [[h2 t2]|] eqn:E2; simpl; [|done].
    intros [= <- <-].
    destruct (decide (x = o)) as [->|Hne].
    + exists h, h1, t1, [], t2. split_and!; [apply pruned_refl|done|done].
    + apply elem_of_cons in Hx as [?|Hx]; [done|].
      destruct (IH h1 t2 Hx E2) as (hx & hx' & tx & pre & post & Hp & Hfx & ->).
      exists hx, hx', tx, (t1 ++ pre), post. split_and!; [|done|].
      * eapply pruned_trans; [|exact Hp]. eauto.
      * by rewrite <- app_assoc.
Qed.

Lemma triggerEvent_reaches_target n object this (e : string) args h h' t x :
  triggerEvent (S n) object this e args h = Some (h', t) →
  x ∈ directPropagationTargets h object (Some e) →
  ∃ hx hx' tx pre post,
    pruned this h hx
    ∧ triggerEvent n x this e args hx = Some (hx', tx)
    ∧ t = Fired object this e args :: calls h object this e args ++ pre ++ tx ++ post.
Proof.
  rewrite triggerEvent_unfold. destruct (h !! object) as [ob|]; [|done]. simpl.
  destruct (own_listeners_calls h object this e args) as (h2 & -> & Hp2).
  destruct (forEach_target _ _ h2) as [[h3 t3]|] eqn:E3; simpl; [|done].
  intros Ht Hx.
  destruct (forEach_target_elem this _ _ _ _ _ x
              (λ o h1 h2 t1, triggerEvent_pruned n o this e args h1 h2 t1) Hx E3)
    as (hx & hx' & tx & pre & post & Hp & Hfx & ->).
  exists hx, hx', tx, pre. 
  rewrite decide_False in Ht.
  - injection Ht as <- <-. exists post. split_and!; [|done|done].
    by eapply pruned_trans.
  - intros [Hnil _]. rewrite Hnil in Hx. by apply elem_of_nil in Hx.
Qed.
End reach.

(** ** Lookups through the prototypes: the dispatch *)

Section prototypes_dispatch.
Implicit Types (h : gmap nat Obj) (pe : list (string * list nat))
  (ls : gmap string (list callback)) (name E : string).

#[local] Arguments triggerEvent : simpl never.

Lemma not_inherited_wildcard : not_inherited wildcard.
Proof. apply (bool_decide_unpack _). by vm_compute. Qed.

Lemma not_inherited_cleanup : not_inherited eventmodelcleanup.
Proof. apply (bool_decide_unpack _). by vm_compute. Qed.

Lemma targets_lookup_own pe name :
  name ∉ object_prototype → targets_lookup pe name = Some (pe_targets name pe).
Proof.
  intros Hn. unfold targets_lookup, pe_targets.
  destruct (pe_get name pe); [done|]. by rewrite decide_False.
Qed.

Lemma pe_keys_get name pe : name ∈ pe_keys pe → is_Some (pe_get name pe).
Proof.
  induction pe as [|[k v] pe IH]; simpl.
  - intros H. by apply elem_of_nil in H.
  - intros H. destruct (decide (k = name)) as [->|Hne]; [eauto|].
    apply elem_of_cons in H as [?|H]; [done|]. by apply IH.
Qed.

Lemma targets_lookup_key pe name :
  name ∈ pe_keys pe → targets_lookup pe name = Some (pe_targets name pe).
Proof.
  intros [l Hl]%pe_keys_get. unfold targets_lookup, pe_targets. by rewrite Hl.
Qed.

Lemma forEach_name_own pe names acc :
  (∀ name, name ∈ names → targets_lookup pe name = Some (pe_targets name pe)) →
  forEach_name pe names acc
  = Some (foldl (λ acc name, foldl push_new acc (pe_targets name pe)) acc names).
Proof.
  revert acc. induction names as [|name names IH]; intros acc Hn; simpl; [done|].
  rewrite Hn by apply list_elem_of_here. simpl.
  apply IH. intros name' H'. apply Hn. by apply list_elem_of_further.
Qed.

Lemma collect_targets_run_own pe E :
  E ∉ object_prototype →
  collect_targets_run pe (Some E) = Some (collect_targets pe (Some E)).
Proof.
  intros HE. unfold collect_targets_run, collect_targets.
  apply forEach_name_own. intros name [->|[->|H]%elem_of_cons]%elem_of_cons.
  - by apply targets_lookup_own.
  - apply targets_lookup_own. apply not_inherited_wildcard.
  - by apply elem_of_nil in H.
Qed.

Lemma own_keys_Permutation pe : own_keys pe ≡ₚ pe_keys pe.
Proof.
  unfold own_keys. rewrite merge_sort_Permutation. apply filter_app_complement.
Qed.

Lemma collect_targets_run_keys pe :
  ∃ l, collect_targets_run pe None = Some l
       ∧ NoDup l
       ∧ ∀ x, x ∈ l ↔ x ∈ collect_targets pe None.
Proof.
  eexists. split_and!.
  - unfold collect_targets_run. apply forEach_name_own.
    intros name Hn. apply targets_lookup_key. by rewrite <- own_keys_Permutation.
  - apply NoDup_foldl_names. constructor.
  - intros x. unfold collect_targets. rewrite !elem_of_foldl_names.
    by setoid_rewrite own_keys_Permutation.
Qed.

Lemma directPropagationTargets_run_own h o ob E :
  h !! o = Some ob → E ∉ object_prototype →
  directPropagationTargets_run h o (Some E) = Done (directPropagationTargets h o (Some E)).
Proof.
  intros Ho HE. unfold directPropagationTargets_run, directPropagationTargets.
  rewrite Ho. simpl. by rewrite collect_targets_run_own.
Qed.

Lemma directPropagationTargets_run_keys h o ob :
  h !! o = Some ob →
  ∃ l, directPropagationTargets_run h o None = Done l
       ∧ NoDup l
       ∧ ∀ x, x ∈ l ↔ x ∈ directPropagationTargets h o None.
Proof.
  intros Ho. unfold directPropagationTargets_run, directPropagationTargets.
  rewrite Ho. simpl.
  destruct (collect_targets_run_keys (propagated_events ob)) as (l & -> & Hl).
  eauto.
Qed.

Lemma listeners_lookup_own ls name :
  not_inherited name → listeners_lookup ls name = Some (default [] (ls !! name)).
Proof.
  intros (Ho & Ha & Hl). unfold listeners_lookup.
  rewrite decide_False by done. destruct (ls !! name); [done|]. simpl.
  case_decide; [done|]. rewrite decide_False; [done|]. by intros [?|?].
Qed.

Lemma addEventListener_run_own h o name cb :
  not_inherited name → is_Some (h !! o) →
  addEventListener_run o name cb h = Done (addEventListener o name cb h).
Proof.
  intros (Ho & Ha & Hl) [ob Hob]. unfold addEventListener_run. rewrite Hob.
  destruct (event_listeners ob !! name); [done|].
  rewrite decide_False by done. case_decide as Hp.
  - subst name. destruct Ho. apply (bool_decide_unpack _). by vm_compute.
  - rewrite decide_False; [done|]. by intros [?|?].
Qed.

Lemma listeners_run_own h o name :
  not_inherited name → is_Some (h !! o) →
  listeners_run h o name = Some (listeners h o name).
Proof.
  intros Hn [ob Ho]. unfold listeners_run, listeners. rewrite Ho. simpl.
  by apply listeners_lookup_own.
Qed.

Lemma forEach_target_run_returned f g targets h :
  (∀ x h1, returned (f x h1) = g x h1) →
  returned (forEach_target_run f targets h) = forEach_target g targets h.
Proof.
  intros Hfg. revert h. induction targets as [|x targets IH]; intros h; simpl; [done|].
  rewrite <- Hfg. destruct (f x h) as [[h1 t1]| | |]; simpl; [|done..].
  rewrite <- IH. by destruct (forEach_target_run f targets h1) as [[h2 t2]| | |].
Qed.

Lemma triggerEvent_run_returned E fuel o this args h :
  not_inherited E →
  returned (triggerEvent_run fuel o this E args h) = triggerEvent fuel o this E args h.
Proof.
  intros HE. revert o h. induction fuel as [|n IH]; intros o h; [done|].
  rewrite triggerEvent_unfold. simpl.
  destruct (h !! o) as [ob|] eqn:Ho.
  2:{ unfold directPropagationTargets_run. by rewrite Ho. }
  rewrite (directPropagationTargets_run_own h o ob E Ho) by apply HE.
  rewrite (listeners_run_own h o E HE) by eauto.
  unfold own_listeners.
  destruct (apply_all_spec (listeners h o E) this args h) as (h1 & E1 & Hp1).
  rewrite E1.
  rewrite (listeners_run_own h1 o wildcard not_inherited_wildcard)
    by (eapply pruned_is_Some; eauto).
  destruct (apply_all (listeners h1 o wildcard) this (VStr E :: args) h1) as [h2 t2].
  rewrite <- (forEach_target_run_returned
                (λ other, triggerEvent_run n other this E args)
                (λ other, triggerEvent n other this E args)) by (intros; apply IH).
  destruct (forEach_target_run _ _ h2) as [[h3 t3]| | |]; simpl; [|done..].
  case_decide; [|done].
  rewrite <- IH. by destruct (triggerEvent_run n root this E args h3) as [[h4 t4]| | |].
Qed.

Lemma triggerEvent_run_Done E fuel o this args h r :
  not_inherited E →
  triggerEvent fuel o this E args h = Some r →
  triggerEvent_run fuel o this E args h = Done r.
Proof.
  intros HE Hr. rewrite <- (triggerEvent_run_returned E) in Hr by done.
  destruct (triggerEvent_run fuel o this E args h); simpl in Hr; congruence.
Qed.

Lemma targets_lookup_Some pe name l :
  targets_lookup pe name = Some l → l = pe_targets name pe.
Proof.
  unfold targets_lookup, pe_targets. destruct (pe_get name pe); simpl; [congruence|].
  case_decide; congruence.
Qed.

Lemma forEach_name_Some pe names acc l :
  forEach_name pe names acc = Some l →
  l = foldl (λ acc name, foldl push_new acc (pe_targets name pe)) acc names.
Proof.
  revert acc. induction names as [|name names IH]; intros acc; simpl; [congruence|].
  destruct (targets_lookup pe name) as [targets|] eqn:El; simpl; [|done].
  apply targets_lookup_Some in El as ->. apply IH.
Qed.

Lemma directPropagationTargets_run_Done h o E l :
  directPropagationTargets_run h o (Some E) = Done l →
  is_Some (h !! o) ∧ l = directPropagationTargets h o (Some E).
Proof.
  unfold directPropagationTargets_run, directPropagationTargets, collect_targets_run.
  destruct (h !! o) as [ob|]; [|done].
  destruct (forEach_name (propagated_events ob) [E; wildcard] []) as [l'|] eqn:El;
    [|done].
  intros [= <-]. split; [eauto|]. by apply forEach_name_Some in El.
Qed.

Lemma listeners_lookup_Some ls name l :
  listeners_lookup ls name = Some l → l = default [] (ls !! name).
Proof.
  unfold listeners_lookup. destruct (ls !! name); simpl; [congruence|].
  repeat case_decide; congruence.
Qed.

Lemma listeners_run_Some h o name l :
  listeners_run h o name = Some l → l = listeners h o name.
Proof.
  unfold listeners_run, listeners. destruct (h !! o) as [ob|]; simpl; [|done].
  apply listeners_lookup_Some.
Qed.

Lemma forEach_target_run_Done f g targets h r :
  (∀ x h1 r1, f x h1 = Done r1 → g x h1 = Some r1) →
  forEach_target_run f targets h = Done r → forEach_target g targets h = Some r.
Proof.
  intros Hfg. revert h r. induction targets as [|x targets IH]; intros h r; simpl.
  - congruence.
  - destruct (f x h) as [[h1 t1]| | |] eqn:E1; [|done..].
    rewrite (Hfg _ _ _ E1). simpl.
    destruct (forEach_target_run f targets h1) as [[h2 t2]| | |] eqn:E2; [|done..].
    rewrite (IH _ _ E2). simpl. congruence.
Qed.

Lemma triggerEvent_run_sound E fuel o this args h r :
  triggerEvent_run fuel o this E args h = Done r →
  triggerEvent fuel o this E args h = Some r.
Proof.
  revert o h r. induction fuel as [|n IH]; intros o h r; [done|].
  rewrite triggerEvent_unfold. simpl.
  destruct (directPropagationTargets_run h o (Some E)) as [propagate_to| | |] eqn:Ed;
    [|done..].
  apply directPropagationTargets_run_Done in Ed as [[ob Ho] ->]. rewrite Ho.
  destruct (listeners_run h o E) as [named|] eqn:En; [|done].
  apply listeners_run_Some in En as ->. unfold own_listeners.
  destruct (apply_all (listeners h o E) this args h) as [h1 t1].
  destruct (listeners_run h1 o wildcard) as [any|] eqn:Ea; [|done].
  apply listeners_run_Some in Ea as ->.
  destruct (apply_all (listeners h1 o wildcard) this (VStr E :: args) h1) as [h2 t2].
  destruct (forEach_target_run _ _ h2) as [[h3 t3]| | |] eqn:E3; [|done..].
  rewrite (forEach_target_run_Done _ (λ other, triggerEvent n other this E args)
             _ _ _ (λ x h1 r1, IH x h1 r1) E3). simpl.
  case_decide; [|congruence].
  destruct (triggerEvent_run n root this E args h3) as [[h4 t4]| | |] eqn:E4; [|done..].
  rewrite (IH _ _ _ E4). simpl. congruence.
Qed.
Lemma triggerEvent_run_propagating n o this E args h :
  not_inherited E →
  is_Some (h !! o) →
  directPropagationTargets h o (Some E) ≠ [] →
  ∃ h2,
    pruned this h h2
    ∧ triggerEvent_run (S n) o this E args h
      = match forEach_target_run (λ other, triggerEvent_run n other this E args)
                (directPropagationTargets h o (Some E)) h2 with
        | Done (h3, t3) => Done (h3, Fired o this E args :: calls h o this E args ++ t3)
        | r => r
        end.
Proof.
  intros HE [ob Ho] Hne. cbn [triggerEvent_run].
  rewrite (directPropagationTargets_run_own h o ob E Ho) by apply HE.
  rewrite (listeners_run_own h o E HE) by eauto.
  destruct (apply_all_spec (listeners h o E) this args h) as (h1 & E1 & Hp1).
  rewrite E1.
  rewrite (listeners_run_own h1 o wildcard not_inherited_wildcard)
    by (eapply pruned_is_Some; eauto).
  destruct (apply_all_spec (listeners h1 o wildcard) this (VStr E :: args) h1)
    as (h2 & E2 & Hp2).
  rewrite E2. exists h2. split; [by eapply pruned_trans|].
  rewrite (pruned_listeners _ _ _ _ _ Hp1).
  destruct (forEach_target_run _ _ h2) as [[h3 t3]| | |]; [|done..].
  by rewrite decide_False by naive_solver.
Qed.

Lemma triggerEvent_run_head fuel o this E args h h' t :
  triggerEvent_run fuel o this E args h = Done (h', t) →
  ∃ rest, t = Fired o this E args :: calls h o this E args ++ rest.
Proof.
  intros Ht. apply triggerEvent_run_sound in Ht.
  destruct (triggerEvent_head _ _ _ _ _ _ _ _ Ht) as (rest & -> & _). eauto.
Qed.

Lemma forEach_target_run_segments f targets h h' t :
  forEach_target_run f targets h = Done (h', t) →
  ∃ segments,
    t = concat segments
    ∧ Forall2 (λ x segment, ∃ hx hx', f x hx = Done (hx', segment)) targets segments.
Proof.
  revert h h' t. induction targets as [|x targets IH]; intros h h' t; simpl.
  - intros [= <- <-]. exists []. split; [done|constructor].
  - destruct (f x h) as [[h1 t1]| | |] eqn:E1; [|done..].
    destruct (forEach_target_run f targets h1) as [[h2 t2]| | |] eqn:E2; [|done..].
    intros [= <- <-]. destruct (IH _ _ _ E2) as (segments & -> & Hall).
    exists (t1 :: segments). split; [done|]. constructor; eauto.
Qed.
End prototypes_dispatch.

(** ** Statements about [triggerEvent] *)

(** X21. At an event name that no prototype defines: if an object other
    than the root has no direct propagation target for the event, triggering
    the event on it runs its own listeners and then fires the event on the
    root node, once, with the same execution context and the same arguments. *)
Theorem fallback_fires_root_once (h : gmap nat Obj) (A this : nat) (E : string)
    (args : list value) (n : nat) :
  not_inherited E →
  A ≠ root →
  is_Some (h !! A) →
  root_sink h E →
  directPropagationTargets h A (Some E) = [] →
  ∃ h' t,
    triggerEvent_run (S (S n)) A this E args h = Done (h', t)
    ∧ t = Fired A this E args :: calls h A this E args
          ++ Fired root this E args :: calls h root this E args
    ∧ fires t = [A; root].
Proof.
  intros HE Hne HA Hroot Hnil.
  destruct (triggerEvent_leaf n A this E args h HA Hnil Hroot) as (h' & Ht & _).
  rewrite decide_False in Ht by done.
  apply (triggerEvent_run_Done E) in Ht; [|done].
  eexists _, _. split_and!; [exact Ht|done|].
  unfold fires at 1. simpl. fold (fires (calls h A this E args
    ++ Fired root this E args :: calls h root this E args)).
  rewrite fires_app, fires_calls. simpl.
  unfold fires at 1. simpl. fold (fires (calls h root this E args)).
  by rewrite fires_calls.
Qed.

(** C5 (amended). At an event name that no prototype defines: if an object
    has at least one direct propagation target for the event, its own step
    of the dispatch ends with the dispatches on those targets: it does not
    apply the fallback.  The fallback is decided
    again at every object the event reaches, so a direct target that has no
    target of its own and is not the root still fires the event on the root
    during the same dispatch. *)
Theorem fallback_is_decided_per_object (h : gmap nat Obj) (A this : nat) (E : string)
    (args : list value) :
  not_inherited E →
  is_Some (h !! A) →
  directPropagationTargets h A (Some E) ≠ [] →
  (∀ n, ∃ h2,
      pruned this h h2
      ∧ triggerEvent_run (S n) A this E args h
        = match forEach_target_run (λ other, triggerEvent_run n other this E args)
                  (directPropagationTargets h A (Some E)) h2 with
          | Done (h3, t3) => Done (h3, Fired A this E args :: calls h A this E args ++ t3)
          | r => r
          end)
  ∧ (∀ rank B fuel,
        descending h E rank → root_sink h E →
        B ∈ directPropagationTargets h A (Some E) →
        directPropagationTargets h B (Some E) = [] → B ≠ root →
        (rank A + 2 ≤ fuel)%nat →
        ∃ h' t, triggerEvent_run fuel A this E args h = Done (h', t)
                ∧ root ∈ fires t).
Proof.
  intros HE HA Hne. split.
  - intros n. by apply triggerEvent_run_propagating.
  - intros rank B fuel Hd Hroot HB HBnil HBroot Hfuel.
    destruct (triggerEvent_terminates rank E this args fuel A h Hd Hroot HA Hfuel)
      as (h' & t & Ht).
    exists h', t. split; [by apply triggerEvent_run_Done|].
    destruct fuel as [|n]; [done|].
    destruct (triggerEvent_reaches_target _ _ _ _ _ _ _ _ B Ht HB)
      as (hB & hB' & tB & pre & post & Hp & HtB & ->).
    destruct (Hd A B HB) as [HBs Hlt].
    destruct n as [|[|n]]; [done|lia|].
    destruct (triggerEvent_leaf n B this E args hB) as (h'' & Ht'' & _).
    { by eapply pruned_is_Some. }
    { by eapply pruned_direct_nil. }
    { by eapply root_sink_pruned. }
    rewrite Ht'' in HtB. injection HtB as _ <-.
    rewrite decide_False by done.
    unfold fires. rewrite list_elem_of_omap.
    exists (Fired root this E args). split; [|done].
    apply list_elem_of_further. rewrite !elem_of_app. right. right. left.
    apply list_elem_of_further. rewrite elem_of_app. right.
    apply list_elem_of_here.
Qed.


(** X22. At an event name that no prototype defines: on one trigger of the
    event on an object, the handlers registered
    under the name of the event run first, in the order of their
    registration, with the arguments of the trigger; the handlers registered
    under the wildcard run next, in the order of their registration, with
    the event name put before those arguments; whatever else the dispatch
    does comes after.  Registration appends to the sequence of its name. *)
Theorem listeners_run_in_order (h : gmap nat Obj) (rank : nat → nat)
    (object this : nat) (E : string) (args : list value) (fuel : nat) :
  not_inherited E →
  descending h E rank →
  root_sink h E →
  is_Some (h !! object) →
  (rank object + 2 ≤ fuel)%nat →
  (∃ h' rest,
      triggerEvent_run fuel object this E args h
      = Done (h', Fired object this E args
                  :: ((λ cb, Called cb this args) <$> listeners h object E)
                  ++ ((λ cb, Called cb this (VStr E :: args))
                        <$> listeners h object wildcard)
                  ++ rest)
      ∧ (rest = [] ∨ ∃ o' rest', rest = Fired o' this E args :: rest'))
  ∧ (∀ name cb,
        not_inherited name →
        ∃ h1, addEventListener_run object name cb h = Done h1
              ∧ listeners h1 object name = listeners h object name ++ [cb]).
Proof.
  intros HE Hd Hroot Ho Hfuel. split.
  - destruct (triggerEvent_terminates rank E this args fuel object h Hd Hroot Ho Hfuel)
      as (h' & t & Ht).
    destruct (triggerEvent_head _ _ _ _ _ _ _ _ Ht) as (rest & -> & Hrest).
    exists h', rest. split; [|done].
    rewrite (triggerEvent_run_Done E _ _ _ _ _ _ HE Ht). unfold calls.
    by rewrite <- app_assoc.
  - intros name cb Hname. exists (addEventListener object name cb h).
    split; [by apply addEventListener_run_own|]. destruct Ho as [ob Ho].
    unfold listeners, addEventListener. rewrite lookup_alter_eq, Ho. simpl.
    by rewrite lookup_insert_eq.
Qed.

(** C10. Triggering the event whose name is the wildcard itself calls every
    handler registered under the wildcard twice in that dispatch: first as
    a listener of the name, with the arguments X of the trigger, then as a
    wildcard listener, with the name put before X. *)
Theorem wildcard_event_calls_twice (h : gmap nat Obj) (rank : nat → nat)
    (object this : nat) (X : list value) (fuel : nat) (cb : callback) :
  descending h wildcard rank →
  root_sink h wildcard →
  is_Some (h !! object) →
  (rank object + 2 ≤ fuel)%nat →
  cb ∈ listeners h object wildcard →
  ∃ h' rest,
    triggerEvent fuel object this wildcard X h
    = Some (h', Fired object this wildcard X
                :: ((λ cb, Called cb this X) <$> listeners h object wildcard)
                ++ ((λ cb, Called cb this (VStr wildcard :: X))
                      <$> listeners h object wildcard)
                ++ rest)
    ∧ Called cb this X ∈ ((λ cb, Called cb this X) <$> listeners h object wildcard)
    ∧ Called cb this (VStr wildcard :: X)
        ∈ ((λ cb, Called cb this (VStr wildcard :: X)) <$> listeners h object wildcard).
Proof.
  intros Hd Hroot Ho Hfuel Hcb.
  destruct (triggerEvent_terminates rank wildcard this X fuel object h Hd Hroot Ho Hfuel)
    as (h' & t & Ht).
  destruct (triggerEvent_head _ _ _ _ _ _ _ _ Ht) as (rest & -> & Hrest).
  exists h', rest. split_and!.
  - rewrite Ht. unfold calls. by rewrite <- app_assoc.
  - apply list_elem_of_fmap. eauto.
  - apply list_elem_of_fmap. eauto.
Qed.

(** ** Updates of the store *)

Section updates.
Implicit Types (h : gmap nat Obj) (o object other : nat) (e : option string).

Lemma direct_alter_listeners f o h o' e :
  directPropagationTargets (alter (with_listeners f) o h) o' e
  = directPropagationTargets h o' e.
Proof.
  unfold directPropagationTargets. destruct (decide (o = o')) as [->|Hne].
  - rewrite lookup_alter_eq. by destruct (h !! o').
  - by rewrite lookup_alter_ne.
Qed.

Lemma direct_alter_propagated_ne f o h o' e :
  o ≠ o' →
  directPropagationTargets (alter (with_propagated f) o h) o' e
  = directPropagationTargets h o' e.
Proof. intros Hne. unfold directPropagationTargets. by rewrite lookup_alter_ne. Qed.

Lemma direct_alter_propagated_eq f o h ob e :
  h !! o = Some ob →
  directPropagationTargets (alter (with_propagated f) o h) o e
  = collect_targets (f (propagated_events ob)) e.
Proof.
  intros Ho. unfold directPropagationTargets. by rewrite lookup_alter_eq, Ho.
Qed.

Lemma direct_lookup h o ob e :
  h !! o = Some ob →
  directPropagationTargets h o e = collect_targets (propagated_events ob) e.
Proof. intros Ho. unfold directPropagationTargets. by rewrite Ho. Qed.

Lemma listeners_alter_propagated f o h o' name :
  listeners (alter (with_propagated f) o h) o' name = listeners h o' name.
Proof.
  unfold listeners. destruct (decide (o = o')) as [->|Hne].
  - rewrite lookup_alter_eq. by destruct (h !! o').
  - by rewrite lookup_alter_ne.
Qed.

Lemma listeners_addEventListener_eq o name cb h :
  is_Some (h !! o) →
  listeners (addEventListener o name cb h) o name = listeners h o name ++ [cb].
Proof.
  intros [ob Ho]. unfold listeners, addEventListener.
  rewrite lookup_alter_eq, Ho. simpl. by rewrite lookup_insert_eq.
Qed.

Lemma listeners_addEventListener_mono o name cb h o' name' cb' :
  cb' ∈ listeners h o' name' →
  cb' ∈ listeners (addEventListener o name cb h) o' name'.
Proof.
  unfold listeners, addEventListener. destruct (decide (o = o')) as [->|Hne].
  - rewrite lookup_alter_eq. destruct (h !! o') as [ob|]; simpl; [|done].
    destruct (decide (name = name')) as [->|Hn].
    + rewrite lookup_insert_eq. simpl. rewrite elem_of_app. auto.
    + by rewrite lookup_insert_ne.
  - by rewrite lookup_alter_ne.
Qed.

Lemma alter_fixed (f : Obj → Obj) o h :
  (∀ ob, h !! o = Some ob → f ob = ob) → alter f o h = h.
Proof.
  intros Hf. apply map_eq. intros o'. destruct (decide (o = o')) as [->|Hne].
  - rewrite lookup_alter_eq. destruct (h !! o') as [ob|] eqn:Ho; simpl; [|done].
    by rewrite Hf.
  - by rewrite lookup_alter_ne.
Qed.

Lemma is_Some_alter (f : Obj → Obj) o h o' :
  is_Some (alter f o h !! o') ↔ is_Some (h !! o').
Proof.
  destruct (decide (o = o')) as [->|Hne].
  - rewrite lookup_alter_eq. by rewrite fmap_is_Some.
  - by rewrite lookup_alter_ne.
Qed.

(** The registry of the source after lines 151 and 161-163. *)
Lemma pe_targets_touch (E k : string) (pe : list (string * list nat)) :
  pe_targets k (pe_set E (pe_targets E pe) pe) = pe_targets k pe.
Proof.
  destruct (decide (E = k)) as [->|Hne].
  - by rewrite pe_targets_set_eq.
  - by rewrite pe_targets_set_ne.
Qed.

Lemma pe_keys_set_mono (E k : string) (l : list nat) (pe : list (string * list nat)) :
  k ∈ pe_keys pe → k ∈ pe_keys (pe_set E l pe).
Proof.
  unfold pe_keys. induction pe as [|[k' v] pe IH]; simpl.
  - intros H. by apply elem_of_nil in H.
  - intros H. destruct (decide (k' = E)) as [->|Hne]; simpl; [done|].
    apply elem_of_cons in H as [->|H]; [apply list_elem_of_here|].
    apply list_elem_of_further. auto.
Qed.

Lemma pe_keys_set_inv (E k : string) (l : list nat) (pe : list (string * list nat)) :
  k ∈ pe_keys (pe_set E l pe) → k = E ∨ k ∈ pe_keys pe.
Proof.
  unfold pe_keys. induction pe as [|[k' v] pe IH]; simpl.
  - intros H. apply list_elem_of_singleton in H. auto.
  - destruct (decide (k' = E)) as [->|Hne]; simpl; intros H.
    + auto.
    + apply elem_of_cons in H as [->|H].
      * right. apply list_elem_of_here.
      * destruct (IH H); auto. right. by apply list_elem_of_further.
Qed.
End updates.

(** ** Recording an edge *)

Section add_edge.
Implicit Types (h : gmap nat Obj) (o object other : nat) (E : string).

Lemma pe_targets_add E other (k : string) pe x :
  x ∈ pe_targets k (pe_add E other pe) ↔ x ∈ pe_targets k pe ∨ (k = E ∧ x = other).
Proof.
  unfold pe_add. rewrite pe_targets_touch. case_decide as Hin.
  - rewrite pe_targets_touch. naive_solver.
  - destruct (decide (E = k)) as [->|Hne].
    + rewrite pe_targets_set_eq, elem_of_app, list_elem_of_singleton. naive_solver.
    + rewrite pe_targets_set_ne, pe_targets_touch by done. naive_solver.
Qed.

Lemma pe_keys_add E other (k : string) pe :
  k ∈ pe_keys (pe_add E other pe) ↔ k = E ∨ k ∈ pe_keys pe.
Proof.
  unfold pe_add. case_decide as Hin; split.
  - apply pe_keys_set_inv.
  - intros [->|H]; [apply pe_keys_set|by apply pe_keys_set_mono].
  - intros H. apply pe_keys_set_inv in H as [?|H]; [auto|].
    by apply pe_keys_set_inv in H.
  - intros [->|H]; [apply pe_keys_set|by do 2 apply pe_keys_set_mono].
Qed.

Lemma collect_add_Some E other (e : string) pe x :
  x ∈ collect_targets (pe_add E other pe) (Some e)
  ↔ x ∈ collect_targets pe (Some e) ∨ (x = other ∧ (e = E ∨ E = wildcard)).
Proof.
  rewrite !elem_of_collect_targets_Some, !pe_targets_add. naive_solver.
Qed.

Lemma collect_add_None E other pe x :
  x ∈ collect_targets (pe_add E other pe) None
  ↔ x ∈ collect_targets pe None ∨ x = other.
Proof.
  rewrite !elem_of_collect_targets_None. split.
  - intros (k & Hk & Hx). apply pe_targets_add in Hx as [Hx|[-> ->]]; [|auto].
    left. exists k. split; [|done].
    apply pe_keys_add in Hk as [->|Hk]; [|done].
    unfold pe_targets in Hx. destruct (pe_get E pe) eqn:Eq.
    + by eapply pe_get_Some_keys.
    + by apply elem_of_nil in Hx.
  - intros [(k & Hk & Hx)| ->].
    + exists k. rewrite pe_keys_add, pe_targets_add. auto.
    + exists E. rewrite pe_keys_add, pe_targets_add. auto.
Qed.

Lemma add_edge_lookup_object object E other h ob :
  h !! object = Some ob →
  ∃ ls, add_edge object E other h !! object
        = Some (mkObj ls (pe_add E other (propagated_events ob))).
Proof.
  intros Ho. unfold add_edge.
  set (h1 := alter _ object h).
  assert (h1 !! object
          = Some (with_propagated
                    (λ pe, pe_set E (pe_targets E pe) pe) ob)) as H1.
  { unfold h1. by rewrite lookup_alter_eq, Ho. }
  set (h2 := if decide (other ∈ directPropagationTargets h1 object None) then h1 else _).
  assert (∃ ls, h2 !! object
                = Some (mkObj ls (pe_set E (pe_targets E (propagated_events ob))
                                         (propagated_events ob)))) as [ls H2].
  { unfold h2. case_decide.
    - rewrite H1. eauto.
    - unfold addEventListener. destruct (decide (other = object)) as [->|Hne].
      + rewrite lookup_alter_eq, H1. simpl. eauto.
      + rewrite lookup_alter_ne, H1 by done. eauto. }
  rewrite lookup_alter_eq, H2. simpl. eauto.
Qed.

Lemma add_edge_lookup_ne object E other h o :
  o ≠ object →
  propagated_events <$> add_edge object E other h !! o = propagated_events <$> h !! o.
Proof.
  intros Hne. unfold add_edge. rewrite lookup_alter_ne by done.
  set (h1 := alter _ object h).
  assert (h1 !! o = h !! o) as H1 by (unfold h1; by rewrite lookup_alter_ne).
  case_decide; [by rewrite H1|].
  unfold addEventListener. destruct (decide (other = o)) as [->|Hne'].
  - rewrite lookup_alter_eq, H1. by destruct (h !! o).
  - by rewrite lookup_alter_ne, H1.
Qed.

Lemma add_edge_is_Some object E other h o :
  is_Some (add_edge object E other h !! o) ↔ is_Some (h !! o).
Proof.
  unfold add_edge. rewrite is_Some_alter. case_decide.
  - apply is_Some_alter.
  - unfold addEventListener. by rewrite !is_Some_alter.
Qed.


Lemma add_edge_direct_ne object E other h o e :
  o ≠ object →
  directPropagationTargets (add_edge object E other h) o e
  = directPropagationTargets h o e.
Proof.
  intros Hne. unfold directPropagationTargets.
  pose proof (add_edge_lookup_ne object E other h o Hne) as H.
  destruct (add_edge object E other h !! o), (h !! o); simpl in *; congruence.
Qed.

Lemma add_edge_direct_Some object E other h (e : string) x :
  is_Some (h !! object) →
  x ∈ directPropagationTargets (add_edge object E other h) object (Some e)
  ↔ x ∈ directPropagationTargets h object (Some e)
    ∨ (x = other ∧ (e = E ∨ E = wildcard)).
Proof.
  intros [ob Ho]. destruct (add_edge_lookup_object object E other h ob Ho) as [ls H'].
  rewrite (direct_lookup _ _ _ _ H'), (direct_lookup _ _ _ _ Ho). simpl.
  apply collect_add_Some.
Qed.

Lemma add_edge_direct_None object E other h x :
  is_Some (h !! object) →
  x ∈ directPropagationTargets (add_edge object E other h) object None
  ↔ x ∈ directPropagationTargets h object None ∨ x = other.
Proof.
  intros [ob Ho]. destruct (add_edge_lookup_object object E other h ob Ho) as [ls H'].
  rewrite (direct_lookup _ _ _ _ H'), (direct_lookup _ _ _ _ Ho). simpl.
  apply collect_add_None.
Qed.

Lemma add_edge_listeners_mono object E other h o (name : string) cb :
  cb ∈ listeners h o name → cb ∈ listeners (add_edge object E other h) o name.
Proof.
  intros Hcb. unfold add_edge. rewrite listeners_alter_propagated.
  case_decide.
  - by rewrite listeners_alter_propagated.
  - apply listeners_addEventListener_mono. by rewrite listeners_alter_propagated.
Qed.

Lemma add_edge_cleanup object E other h :
  is_Some (h !! object) → is_Some (h !! other) →
  other ∉ directPropagationTargets h object None →
  Cleanup object other ∈ listeners (add_edge object E other h) other eventmodelcleanup.
Proof.
  intros [ob Ho] Hother Hnot. unfold add_edge. rewrite listeners_alter_propagated.
  rewrite decide_False.
  - rewrite listeners_addEventListener_eq by (by apply is_Some_alter).
    rewrite elem_of_app, list_elem_of_singleton. by right.
  - rewrite (direct_alter_propagated_eq _ _ _ _ _ Ho).
    rewrite (direct_lookup _ _ _ _ Ho) in Hnot.
    rewrite elem_of_collect_targets_None in *.
    intros (k & Hk & Hx). apply Hnot. rewrite pe_targets_touch in Hx.
    exists k. split; [|done].
    apply pe_keys_set_inv in Hk as [->|Hk]; [|done].
    unfold pe_targets in Hx. destruct (pe_get E (propagated_events ob)) eqn:Eq.
    + by eapply pe_get_Some_keys.
    + by apply elem_of_nil in Hx.
Qed.

Lemma cleanup_wired_add_edge object E other h :
  cleanup_wired h → is_Some (h !! object) → is_Some (h !! other) →
  cleanup_wired (add_edge object E other h).
Proof.
  intros Hw Ho Hother S T HT.
  destruct (decide (S = object)) as [->|Hne].
  - apply (add_edge_direct_None _ _ _ _ _ Ho) in HT as [HT| ->].
    + by apply add_edge_listeners_mono, Hw.
    + destruct (decide (other ∈ directPropagationTargets h object None)) as [Hin|Hnin].
      * by apply add_edge_listeners_mono, Hw.
      * by apply add_edge_cleanup.
  - rewrite add_edge_direct_ne in HT by done.
    by apply add_edge_listeners_mono, Hw.
Qed.

End add_edge.

(** ** The transitive targets *)

Section all_targets.
Implicit Types (h : gmap nat Obj) (o object : nat) (e : option string).

#[local] Arguments allPropagationTargets : simpl never.

Lemma allPropagationTargets_unfold n h object e :
  allPropagationTargets (S n) h object e
  = (ob ← h !! object;
     forEach_collect (λ target, allPropagationTargets n h target e)
                     (collect_targets (propagated_events ob) e)
                     (collect_targets (propagated_events ob) e)).
Proof. reflexivity. Qed.

Lemma forEach_collect_acc f targets acc l :
  forEach_collect f targets acc = Some l → acc ⊆ l.
Proof.
  revert acc. induction targets as [|t targets IH]; intros acc; simpl.
  - by intros [= ->].
  - destruct (f t) as [r|]; simpl; [|done].
    intros H x Hx. apply (IH _ H). rewrite elem_of_foldl_push_new. auto.
Qed.

Lemma forEach_collect_rec f targets acc l t :
  forEach_collect f targets acc = Some l → t ∈ targets →
  ∃ r, f t = Some r ∧ r ⊆ l.
Proof.
  revert acc. induction targets as [|t' targets IH]; intros acc; simpl.
  - intros _ Ht. by apply elem_of_nil in Ht.
  - destruct (f t') as [r|] eqn:Ef; simpl; [|done].
    intros H Ht. apply elem_of_cons in Ht as [->|Ht].
    + exists r. split; [done|]. intros x Hx.
      apply (forEach_collect_acc _ _ _ _ H). rewrite elem_of_foldl_push_new. auto.
    + eauto.
Qed.


Lemma forEach_collect_total f targets acc :
  (∀ t, t ∈ targets → is_Some (f t)) → is_Some (forEach_collect f targets acc).
Proof.
  revert acc. induction targets as [|t targets IH]; intros acc Hf; simpl; [eauto|].
  destruct (Hf t) as [r ->]; [apply list_elem_of_here|]. simpl.
  apply IH. intros t' Ht'. apply Hf. by apply list_elem_of_further.
Qed.

Lemma allPropagationTargets_direct fuel h object e l :
  allPropagationTargets fuel h object e = Some l →
  directPropagationTargets h object e ⊆ l.
Proof.
  destruct fuel as [|n]; [done|]. rewrite allPropagationTargets_unfold.
  unfold directPropagationTargets.
  destruct (h !! object) as [ob|]; simpl; [|done].
  apply forEach_collect_acc.
Qed.



Lemma allPropagationTargets_terminates rank (E : string) (fuel : nat) h :
  descending h E rank →
  ∀ object, is_Some (h !! object) → (rank object < fuel)%nat →
            is_Some (allPropagationTargets fuel h object (Some E)).
Proof.
  intros Hd. induction fuel as [|n IH]; intros object [ob Ho] Hlt; [lia|].
  rewrite allPropagationTargets_unfold, Ho. simpl.
  apply forEach_collect_total. intros t Ht.
  rewrite <- (direct_lookup _ _ _ _ Ho) in Ht.
  destruct (Hd object t Ht) as [Hs Hr]. apply IH; [done|lia].
Qed.

Lemma propagateEventTo_Return fuel h A (E : string) B h1 :
  propagateEventTo fuel h A E B = Return h1 →
  is_Some (h !! A) ∧ is_Some (h !! B) ∧ A ≠ root
  ∧ (∃ l, allPropagationTargets fuel h B (Some E) = Some l ∧ A ∉ l)
  ∧ h1 = add_edge A E B h.
Proof.
  unfold propagateEventTo, has_event_model.
  destruct (h !! A) as [oa|]; [|done].
  case_bool_decide as HB; simpl; [|done].
  case_decide; [done|].
  destruct (allPropagationTargets fuel h B (Some E)) as [l|]; [|done].
  case_decide; [done|]. intros [= <-]. split_and!; eauto.
Qed.

Lemma has_event_model_true h o : is_Some (h !! o) → has_event_model h o = true.
Proof. intros Ho. unfold has_event_model. by apply bool_decide_eq_true. Qed.
End all_targets.

(** ** Lookups through the prototypes: the edges *)

Section prototypes_edges.
Implicit Types (h : gmap nat Obj) (pe : list (string * list nat)) (name E : string).

#[local] Arguments allPropagationTargets : simpl never.

Lemma forEach_collect_run_returned f g targets acc :
  (∀ x, returned (f x) = g x) →
  returned (forEach_collect_run f targets acc) = forEach_collect g targets acc.
Proof.
  intros Hfg. revert acc. induction targets as [|x targets IH]; intros acc; simpl; [done|].
  rewrite <- Hfg. destruct (f x) as [l| | |]; simpl; [|done..]. apply IH.
Qed.

Lemma allPropagationTargets_run_returned E fuel h o :
  E ∉ object_prototype →
  returned (allPropagationTargets_run fuel h o (Some E))
  = allPropagationTargets fuel h o (Some E).
Proof.
  intros HE. revert o. induction fuel as [|n IH]; intros o; [done|].
  rewrite allPropagationTargets_unfold. simpl.
  destruct (h !! o) as [ob|] eqn:Ho.
  2:{ unfold directPropagationTargets_run. by rewrite Ho. }
  rewrite (directPropagationTargets_run_own h o ob E Ho HE). simpl.
  unfold directPropagationTargets. rewrite Ho. simpl.
  by apply forEach_collect_run_returned.
Qed.

Lemma forEach_collect_run_not_Thrown f targets acc e :
  (∀ x, f x ≠ Thrown e) → forEach_collect_run f targets acc ≠ Thrown e.
Proof.
  intros Hf. revert acc. induction targets as [|x targets IH]; intros acc; simpl; [done|].
  specialize (Hf x). destruct (f x) as [l| | |]; [apply IH|done..].
Qed.

Lemma allPropagationTargets_run_not_Thrown fuel h o event_name e :
  allPropagationTargets_run fuel h o event_name ≠ Thrown e.
Proof.
  revert o. induction fuel as [|n IH]; intros o; [done|]. simpl.
  unfold directPropagationTargets_run.
  destruct (h !! o) as [ob|]; [|done].
  destruct (collect_targets_run _ _); [|done].
  by apply forEach_collect_run_not_Thrown.
Qed.

Lemma propagateEventTo_run_outcome E fuel h A B :
  E ∉ object_prototype →
  outcome_of (propagateEventTo_run fuel h A E B) = propagateEventTo fuel h A E B.
Proof.
  intros HE. unfold propagateEventTo_run, propagateEventTo.
  destruct (h !! A) as [oa|]; [|done].
  destruct (negb (has_event_model h B)); [done|].
  case_decide; [done|].
  rewrite <- (allPropagationTargets_run_returned E) by done.
  pose proof (allPropagationTargets_run_not_Thrown fuel h B (Some E)) as Hnt.
  destruct (allPropagationTargets_run fuel h B (Some E)) as [all|e| |]; simpl;
    [|by destruct (Hnt e)|done..].
  case_decide; [done|]. by rewrite targets_lookup_own.
Qed.

Lemma forEach_collect_run_Done f g targets acc l :
  (∀ x r, f x = Done r → g x = Some r) →
  forEach_collect_run f targets acc = Done l → forEach_collect g targets acc = Some l.
Proof.
  intros Hfg. revert acc. induction targets as [|x targets IH]; intros acc; simpl.
  - congruence.
  - destruct (f x) as [rec| | |] eqn:E1; [|done..]. rewrite (Hfg _ _ E1). simpl.
    apply IH.
Qed.

Lemma allPropagationTargets_run_sound fuel h o E l :
  allPropagationTargets_run fuel h o (Some E) = Done l →
  allPropagationTargets fuel h o (Some E) = Some l.
Proof.
  revert o l. induction fuel as [|n IH]; intros o l; [done|].
  rewrite allPropagationTargets_unfold. simpl.
  destruct (directPropagationTargets_run h o (Some E)) as [direct_targets| | |] eqn:Ed;
    [|done..].
  apply directPropagationTargets_run_Done in Ed as [[ob Ho] ->]. rewrite Ho. simpl.
  unfold directPropagationTargets. rewrite Ho. simpl.
  apply forEach_collect_run_Done. apply IH.
Qed.

Lemma propagateEventTo_run_sound fuel h A E B :
  (∀ h1, propagateEventTo_run fuel h A E B = Done h1 →
         propagateEventTo fuel h A E B = Return h1)
  ∧ (∀ e, propagateEventTo_run fuel h A E B = Thrown e →
          propagateEventTo fuel h A E B = Throw e).
Proof.
  unfold propagateEventTo_run, propagateEventTo.
  destruct (h !! A) as [oa|]; [|done].
  destruct (negb (has_event_model h B)); [split; intros; congruence|].
  case_decide; [split; intros; congruence|].
  pose proof (allPropagationTargets_run_not_Thrown fuel h B (Some E)) as Hnt.
  destruct (allPropagationTargets_run fuel h B (Some E)) as [all|e| |] eqn:Ea;
    [|by destruct (Hnt e)|done..].
  rewrite (allPropagationTargets_run_sound _ _ _ _ _ Ea).
  case_decide; [split; intros; congruence|].
  destruct (targets_lookup _ E); split; intros; congruence.
Qed.

Lemma propagateEventTo_run_Return E fuel h A B h1 :
  E ∉ object_prototype →
  propagateEventTo fuel h A E B = Return h1 →
  propagateEventTo_run fuel h A E B = Done h1.
Proof.
  intros HE Hr. rewrite <- (propagateEventTo_run_outcome E) in Hr by done.
  destruct (propagateEventTo_run fuel h A E B); simpl in Hr; congruence.
Qed.

Lemma propagateEventTo_run_Throw E fuel h A B e :
  E ∉ object_prototype →
  propagateEventTo fuel h A E B = Throw e →
  propagateEventTo_run fuel h A E B = Thrown e.
Proof.
  intros HE Hr. rewrite <- (propagateEventTo_run_outcome E) in Hr by done.
  destruct (propagateEventTo_run fuel h A E B); simpl in Hr; congruence.
Qed.
End prototypes_edges.

(** ** Statements about [propagateEventTo] *)

Section propagate.
Implicit Types (h : gmap nat Obj) (A B T : nat) (E : string).

#[local] Arguments allPropagationTargets : simpl never.
#[local] Arguments triggerEvent : simpl never.

Lemma allPropagationTargets_leaf n h o (E : string) :
  is_Some (h !! o) → directPropagationTargets h o (Some E) = [] →
  allPropagationTargets (S n) h o (Some E) = Some [].
Proof.
  intros [ob Ho] Hnil. rewrite allPropagationTargets_unfold, Ho. simpl.
  rewrite (direct_lookup _ _ _ _ Ho) in Hnil. by rewrite Hnil.
Qed.

Lemma apply_all_no_cleanup cbs this args h :
  (∀ object, Cleanup object this ∉ cbs) → (apply_all cbs this args h).1 = h.
Proof.
  revert h. induction cbs as [|cb cbs IH]; intros h Hno; simpl; [done|].
  assert (call cb this h = h) as ->.
  { destruct cb as [id|object other]; simpl; [done|].
    case_decide as Eq; [|done]. subst other.
    destruct (Hno object). apply list_elem_of_here. }
  specialize (IH h). destruct (apply_all cbs this args h) as [h' t]. simpl in *.
  apply IH. intros object Hin. apply (Hno object). by apply list_elem_of_further.
Qed.

(** Once an object propagates an event to itself and to nothing else, and
    none of its listeners for the event unlinks it, triggering the event on
    it never returns: every bound on the depth of the call stack is reached. *)
Lemma self_edge_never_returns h A this E args :
  is_Some (h !! A) →
  directPropagationTargets h A (Some E) = [A] →
  (∀ object, Cleanup object this ∉ listeners h A E) →
  (∀ object, Cleanup object this ∉ listeners h A wildcard) →
  ∀ fuel, triggerEvent fuel A this E args h = None.
Proof.
  intros [ob Ho] Hself Hno1 Hno2 fuel. induction fuel as [|n IH]; [done|].
  rewrite triggerEvent_unfold, Ho. simpl. rewrite Hself.
  unfold own_listeners.
  pose proof (apply_all_no_cleanup (listeners h A E) this args h Hno1) as H1.
  destruct (apply_all (listeners h A E) this args h) as [h1 t1]. simpl in H1. subst h1.
  pose proof (apply_all_no_cleanup (listeners h A wildcard) this (VStr E :: args) h Hno2)
    as H2.
  destruct (apply_all (listeners h A wildcard) this (VStr E :: args) h) as [h2 t2].
  simpl in H2. subst h2. simpl. by rewrite IH.
Qed.

(** C1 (what the code does at the failing input). An object other than the
    root that has no direct propagation target for an event is accepted as
    its own propagation target for that event: the call returns and the
    object is then among its own direct targets. *)
Theorem self_propagation_is_accepted h A E (n : nat) :
  A ≠ root →
  is_Some (h !! A) →
  directPropagationTargets h A (Some E) = [] →
  propagateEventTo (S n) h A E A = Return (add_edge A E A h)
  ∧ A ∈ directPropagationTargets (add_edge A E A h) A (Some E).
Proof.
  intros Hne HA Hnil. split.
  - unfold propagateEventTo. rewrite has_event_model_true by done.
    rewrite allPropagationTargets_leaf by done.
    destruct HA as [ob ->]. cbn [negb].
    rewrite decide_False by done.
    rewrite decide_False; [done|]. apply not_elem_of_nil.
  - apply add_edge_direct_Some; auto.
Qed.

Lemma cycle_check_by_own_keys h A B (e1 e2 : string) (fuel : nat) h1 :
  propagateEventTo fuel h A e1 B = Return h1 →
  (e1 = wildcard ∨ e1 = e2 →
   ∀ (rank : nat → nat) fuel',
     descending h1 e2 rank → rank A < fuel' →
     propagateEventTo fuel' h1 B e2 A = Throw CycleError)
  ∧ (e1 ≠ e2 → e1 ≠ wildcard → e2 ≠ wildcard → B ≠ root →
     directPropagationTargets h A (Some e2) = [] →
     ∀ n, propagateEventTo (S n) h1 B e2 A = Return (add_edge B e2 A h1)).
Proof.
  intros Hfirst.
  apply propagateEventTo_Return in Hfirst as (HA & HB & HAroot & _ & ->).
  pose proof (proj2 (add_edge_is_Some A e1 B h A) HA) as HA1.
  pose proof (proj2 (add_edge_is_Some A e1 B h B) HB) as HB1.
  split.
  - intros He rank fuel' Hd Hfuel.
    assert (B ∈ directPropagationTargets (add_edge A e1 B h) A (Some e2)) as Hin.
    { apply add_edge_direct_Some; [done|]. right. naive_solver. }
    destruct (allPropagationTargets_terminates rank e2 fuel' _ Hd A HA1 Hfuel) as [l Hl].
    unfold propagateEventTo. rewrite has_event_model_true by done.
    destruct HB1 as [ob ->]. cbn [negb].
    case_decide; [done|].
    rewrite Hl. rewrite decide_True; [done|].
    by apply (allPropagationTargets_direct _ _ _ _ _ Hl).
  - intros Hne Hw1 Hw2 HBroot Hnil n.
    assert (directPropagationTargets (add_edge A e1 B h) A (Some e2) = []) as Hnil1.
    { apply elem_of_nil_inv. intros x Hx.
      apply add_edge_direct_Some in Hx as [Hx|[_ [?|?]]]; [|done..].
      rewrite Hnil in Hx. by apply elem_of_nil in Hx. }
    unfold propagateEventTo. rewrite has_event_model_true by done.
    rewrite allPropagationTargets_leaf by done.
    destruct HB1 as [ob ->]. cbn [negb].
    rewrite decide_False by done.
    rewrite decide_False; [done|]. apply not_elem_of_nil.
Qed.

(** C2 (amended). For an event name e2 that no prototype defines: after
    A.propagateEventTo(e1, B) succeeded, B.propagateEventTo(e2, A) fails
    with the cycle error when e1 is the wildcard (or e1 is e2): the check
    looks at the targets that A has for e2, which are those recorded under
    e2 and under the wildcard.  For two different names, neither of them the
    wildcard, the edge recorded under e1 is not seen: the second call
    succeeds when A had no target for e2. *)
Theorem cycle_check_is_per_event_name h A B (e1 e2 : string) (fuel : nat) h1 :
  not_inherited e2 →
  propagateEventTo_run fuel h A e1 B = Done h1 →
  (e1 = wildcard ∨ e1 = e2 →
   ∀ (rank : nat → nat) fuel',
     descending h1 e2 rank → rank A < fuel' →
     propagateEventTo_run fuel' h1 B e2 A = Thrown CycleError)
  ∧ (e1 ≠ e2 → e1 ≠ wildcard → e2 ≠ wildcard → B ≠ root →
     directPropagationTargets h A (Some e2) = [] →
     ∀ n, propagateEventTo_run (S n) h1 B e2 A = Done (add_edge B e2 A h1)).
Proof.
  intros He2 Hfirst.
  apply (proj1 (propagateEventTo_run_sound fuel h A e1 B)) in Hfirst.
  destruct (cycle_check_by_own_keys h A B e1 e2 fuel h1 Hfirst) as [Hcycle Hplain].
  split.
  - intros He rank fuel' Hd Hfuel.
    apply propagateEventTo_run_Throw; [apply He2|]. by eapply Hcycle.
  - intros Hne Hw1 Hw2 HBroot Hnil n.
    apply propagateEventTo_run_Return; [apply He2|]. by apply Hplain.
Qed.

(** C3 (amended). The root node is rejected as the source of an edge, with
    the cycle error, whatever the event name and the target that carries the
    event model; as a target it is accepted like any object that does not
    lead back to the source, and the edge is recorded (for an event name
    that no prototype defines). *)
Theorem root_is_rejected_as_source h E :
  is_Some (h !! root) →
  (∀ X fuel, is_Some (h !! X) → propagateEventTo_run fuel h root E X = Thrown CycleError)
  ∧ (not_inherited E →
     ∀ A n, A ≠ root → is_Some (h !! A) →
            directPropagationTargets h root (Some E) = [] →
            propagateEventTo_run (S n) h A E root = Done (add_edge A E root h)
            ∧ root ∈ directPropagationTargets (add_edge A E root h) A (Some E)).
Proof.
  intros Hroot. split.
  - intros X fuel HX. unfold propagateEventTo_run.
    rewrite has_event_model_true by done.
    destruct Hroot as [orr ->]. cbn [negb]. by rewrite decide_True.
  - intros HE A n Hne HA Hnil. split.
    + apply propagateEventTo_run_Return; [apply HE|].
      unfold propagateEventTo. rewrite has_event_model_true by done.
      rewrite allPropagationTargets_leaf by done.
      destruct HA as [oa ->]. cbn [negb].
      rewrite decide_False by done.
      rewrite decide_False; [done|]. apply not_elem_of_nil.
    + apply add_edge_direct_Some; auto.
Qed.

End propagate.

(** ** The cleanup event *)

Section cleanup.
Implicit Types (h : gmap nat Obj) (A B this : nat) (E : string).

#[local] Arguments triggerEvent : simpl never.

Lemma stopPropagatingTo_direct object other h e :
  other ∉ directPropagationTargets (stopPropagatingTo object other h) object e.
Proof.
  unfold stopPropagatingTo, directPropagationTargets. rewrite lookup_alter_eq.
  destruct (h !! object) as [ob|]; simpl; [|apply not_elem_of_nil].
  rewrite collect_targets_prune, list_elem_of_filter. naive_solver.
Qed.

Lemma apply_all_cleanup cbs this args h object e :
  Cleanup object this ∈ cbs →
  this ∉ directPropagationTargets (apply_all cbs this args h).1 object e.
Proof.
  revert h. induction cbs as [|cb cbs IH]; intros h Hin; simpl.
  - by apply elem_of_nil in Hin.
  - destruct (apply_all_spec cbs this args (call cb this h)) as (h' & Eq & Hp).
    apply elem_of_cons in Hin as [<-|Hin].
    + rewrite Eq. simpl in *. rewrite decide_True in Hp by done.
      intros Hx. apply (pruned_direct_subseteq _ _ _ _ _ Hp) in Hx.
      by apply stopPropagatingTo_direct in Hx.
    + specialize (IH (call cb this h) Hin). by rewrite Eq in *.
Qed.

Lemma triggerEvent_after_named fuel object this E args h h' t :
  triggerEvent fuel object this E args h = Some (h', t) →
  pruned this (apply_all (listeners h object E) this args h).1 h'.
Proof.
  destruct fuel as [|n]; [done|]. rewrite triggerEvent_unfold.
  destruct (h !! object) as [ob|]; [|done]. simpl. unfold own_listeners.
  destruct (apply_all_spec (listeners h object E) this args h) as (h1 & -> & Hp1).
  destruct (apply_all_spec (listeners h1 object wildcard) this (VStr E :: args) h1)
    as (h2 & -> & Hp2).
  destruct (forEach_target _ _ h2) as [[h3 t3]|] eqn:E3; simpl; [|done].
  assert (pruned this h2 h3) as Hp3.
  { eapply forEach_target_pruned; [|exact E3].
    intros o ha hb tb Hf. simpl in Hf. eapply triggerEvent_pruned. exact Hf. }
  case_decide.
  - destruct (triggerEvent n root this E args h3) as [[h4 t4]|] eqn:E4; simpl; [|done].
    intros [= <- <-]. eapply pruned_trans; [exact Hp2|].
    eapply pruned_trans; [exact Hp3|]. eapply triggerEvent_pruned. exact E4.
  - intros [= <- <-]. by eapply pruned_trans.
Qed.

Lemma cleanup_unlinks_everyone h B args fuel h' t :
  cleanup_wired h →
  trigger fuel B eventmodelcleanup args h = Some (h', t) →
  no_edge_to h' B.
Proof.
  intros Hw Ht o e Hin. unfold trigger in Ht.
  pose proof (triggerEvent_after_named _ _ _ _ _ _ _ _ Ht) as Hp.
  apply (pruned_direct_subseteq _ _ _ _ _ Hp) in Hin.
  destruct (decide (B ∈ directPropagationTargets h o None)) as [Hedge|Hnone].
  - revert Hin. apply apply_all_cleanup. by apply Hw.
  - apply Hnone.
    destruct (apply_all_spec (listeners h B eventmodelcleanup) B args h)
      as (h1 & Eq & Hp1).
    rewrite Eq in Hin. simpl in Hin.
    apply (pruned_direct_subseteq _ _ _ _ _ Hp1) in Hin.
    destruct e as [e|]; [|done].
    unfold directPropagationTargets in *. destruct (h !! o); simpl in *; [|done].
    by eapply collect_targets_Some_None.
Qed.

Lemma forEach_target_fires (P : gmap nat Obj → Prop) B f targets h h' t :
  (∀ x h1 h2 t1, x ∈ targets → P h1 → f x h1 = Some (h2, t1) →
                 (B ∉ fires t1) ∧ P h2) →
  P h → forEach_target f targets h = Some (h', t) → (B ∉ fires t) ∧ P h'.
Proof.
  revert h t. induction targets as [|x targets IH]; intros h t Hf HP; simpl.
  - intros [= <- <-]. split; [apply not_elem_of_nil|done].
  - destruct (f x h) as [[h1 t1]|] eqn:E1; simpl; [|done].
    destruct (forEach_target f targets h1) as [[h2 t2]|] eqn:E2; simpl; [|done].
    intros [= <- <-].
    destruct (Hf x h h1 t1) as [Hn1 HP1]; [apply list_elem_of_here|done|done|].
    destruct (IH h1 t2) as [Hn2 HP2]; [|done|done|].
    + intros x' ha hb tb Hx'. apply Hf. by apply list_elem_of_further.
    + split; [|done]. rewrite fires_app, elem_of_app. naive_solver.
Qed.

Lemma unlinked_is_not_reached B this E args fuel :
  B ≠ root →
  ∀ object h h' t,
    no_edge_to h B → object ≠ B →
    triggerEvent fuel object this E args h = Some (h', t) →
    B ∉ fires t.
Proof.
  intros HBroot. induction fuel as [|n IH]; intros object h h' t Hno Hne; [done|].
  rewrite triggerEvent_unfold. destruct (h !! object) as [ob|]; [|done]. simpl.
  destruct (own_listeners_calls h object this E args) as (h2 & -> & Hp2).
  destruct (forEach_target _ _ h2) as [[h3 t3]|] eqn:E3; simpl; [|done].
  assert (∀ x h1 h1' t1,
            x ∈ directPropagationTargets h object (Some E) → pruned this h h1 →
            triggerEvent n x this E args h1 = Some (h1', t1) →
            (B ∉ fires t1) ∧ pruned this h h1') as Hstep.
  { intros x h1 h1' t1 Hx Hp1 Hf. split.
    - eapply (IH x h1); [by eapply no_edge_to_pruned| |exact Hf].
      intros ->. by apply (Hno object (Some E)).
    - eapply pruned_trans; [exact Hp1|]. eapply triggerEvent_pruned. exact Hf. }
  destruct (forEach_target_fires (λ h1, pruned this h h1) B _ _ _ _ _ Hstep Hp2 E3)
    as [Hn3 Hp3].
  assert (∀ rest, B ∉ fires rest →
            B ∉ fires (Fired object this E args :: calls h object this E args ++ rest))
    as Hcons.
  { intros rest Hrest. unfold fires at 1. simpl.
    fold (fires (calls h object this E args ++ rest)).
    rewrite fires_app, fires_calls. simpl.
    rewrite not_elem_of_cons. split; [congruence|done]. }
  case_decide.
  - destruct (triggerEvent n root this E args h3) as [[h4 t4]|] eqn:E4; simpl; [|done].
    intros [= <- <-]. apply Hcons. rewrite fires_app, elem_of_app.
    intros [?|Hin]; [done|]. revert Hin.
    eapply (IH root h3); [by eapply no_edge_to_pruned|congruence|exact E4].
  - intros [= <- <-]. by apply Hcons.
Qed.

Lemma stopPropagatingTo_idempotent object other h :
  stopPropagatingTo object other (stopPropagatingTo object other h)
  = stopPropagatingTo object other h.
Proof.
  unfold stopPropagatingTo. apply map_eq. intros o.
  destruct (decide (object = o)) as [->|Hne].
  - rewrite !lookup_alter_eq. apply with_propagated_prune_idemp.
  - by rewrite !lookup_alter_ne.
Qed.

Lemma prune_absent other (pe : list (string * list nat)) :
  (∀ k l, (k, l) ∈ pe → other ∉ l) → prune other pe = pe.
Proof.
  unfold prune. induction pe as [|[k l] pe IH]; intros H; simpl; [done|].
  rewrite filter_ne_id, IH; [done| |].
  - intros k' l' Hin. apply (H k'). by apply list_elem_of_further.
  - apply (H k). apply list_elem_of_here.
Qed.

Lemma stopPropagatingTo_absent object other h :
  (∀ ob k l, h !! object = Some ob → (k, l) ∈ propagated_events ob → other ∉ l) →
  stopPropagatingTo object other h = h.
Proof.
  intros H. apply alter_fixed. intros [ls pe] Ho. unfold with_propagated. simpl.
  f_equal. apply prune_absent. intros k l. by apply (H _ k l Ho).
Qed.

(** C9 (amended). On a store where every edge has its cleanup closure and
    the graph of the cleanup event is acyclic: after A.propagateEventTo(e, B)
    succeeded, B is a direct target of A; triggering the cleanup event on B
    calls the closure of the edge, returns, and leaves A without any edge to
    B, under whatever event name; a later trigger of any event on A does not
    fire on B when B is neither A nor the root (the root is still reached,
    by the fallback).  stopPropagatingTo never fails, calling it again
    changes nothing, and it changes nothing when the source has no edge to
    the target. *)
Theorem cleanup_event_unlinks_target h A B (e : string) (fuel : nat) h1
    (rank : nat → nat) (args : list value) (fuel' : nat) :
  cleanup_wired h →
  propagateEventTo fuel h A e B = Return h1 →
  descending h1 eventmodelcleanup rank →
  root_sink h1 eventmodelcleanup →
  rank B + 2 ≤ fuel' →
  B ∈ directPropagationTargets h1 A (Some e)
  ∧ (∃ h2 t,
      trigger fuel' B eventmodelcleanup args h1 = Some (h2, t)
      ∧ Called (Cleanup A B) B args ∈ t
      ∧ (∀ name : option string, B ∉ directPropagationTargets h2 A name)
      ∧ (B ≠ root → A ≠ B →
         ∀ E args' n h3 t', trigger n A E args' h2 = Some (h3, t') → B ∉ fires t'))
  ∧ (∀ object other h0,
        stopPropagatingTo object other (stopPropagatingTo object other h0)
        = stopPropagatingTo object other h0)
  ∧ (∀ object other h0,
        (∀ ob k l, h0 !! object = Some ob → (k, l) ∈ propagated_events ob → other ∉ l) →
        stopPropagatingTo object other h0 = h0).
Proof.
  intros Hw Hfirst Hd Hroot Hfuel.
  apply propagateEventTo_Return in Hfirst as (HA & HB & HAroot & _ & ->).
  pose proof (cleanup_wired_add_edge A e B h Hw HA HB) as Hw1.
  assert (B ∈ directPropagationTargets (add_edge A e B h) A (Some e)) as Hedge.
  { apply add_edge_direct_Some; auto. }
  split_and!.
  - exact Hedge.
  - destruct (triggerEvent_terminates rank eventmodelcleanup B args fuel' B _
                Hd Hroot) as (h2 & t & Ht); [by apply add_edge_is_Some|done|].
    exists h2, t. split; [done|].
    pose proof (cleanup_unlinks_everyone _ B args fuel' h2 t Hw1 Ht) as Hno.
    split.
    { destruct (triggerEvent_head _ _ _ _ _ _ _ _ Ht) as (rest & -> & _).
      apply list_elem_of_further. rewrite elem_of_app. left.
      unfold calls. rewrite elem_of_app. left.
      apply list_elem_of_fmap. exists (Cleanup A B). split; [done|].
      apply Hw1. unfold directPropagationTargets in *.
      destruct (add_edge A e B h !! A) as [oa|]; simpl in *;
        [|by apply elem_of_nil in Hedge].
      by eapply collect_targets_Some_None. }
    split; [intros name; apply Hno|].
    intros HBroot HAB E args' n h3 t' Ht'.
    by eapply (unlinked_is_not_reached B A E args' n HBroot A h2 h3 t').
  - apply stopPropagatingTo_idempotent.
  - apply stopPropagatingTo_absent.
Qed.
End cleanup.

(** ** Stores built through the methods

    The hypotheses of the statements above are invariants of the stores
    that the methods build from the initial one. *)

Section invariants.
Implicit Types (h : gmap nat Obj) (A B o : nat) (E e : string).

Lemma cleanup_wiredb_spec h : cleanup_wiredb h = true → cleanup_wired h.
Proof.
  unfold cleanup_wiredb, cleanup_wired, directPropagationTargets.
  rewrite forallb_forall. intros Hall object other Hin.
  destruct (h !! object) as [ob|] eqn:Ho; simpl in Hin; [|by apply elem_of_nil in Hin].
  specialize (Hall (object, ob)). rewrite forallb_forall in Hall.
  assert (In (object, ob) (map_to_list h)) as Hmem.
  { apply list_elem_of_In, elem_of_map_to_list. done. }
  specialize (Hall Hmem other). simpl in Hall.
  rewrite <- list_elem_of_In in Hall. specialize (Hall Hin).
  by apply bool_decide_eq_true in Hall.
Qed.

Lemma root_sink_initial e : root_sink initial e.
Proof.
  split.
  - unfold initial, addEventModel. rewrite lookup_insert_eq. eauto.
  - unfold directPropagationTargets, initial, addEventModel.
    by rewrite lookup_insert_eq.
Qed.

Lemma root_sink_addEventModel o h e : root_sink h e → root_sink (addEventModel o h) e.
Proof.
  intros [Hs Hnil]. unfold root_sink, directPropagationTargets, addEventModel in *.
  destruct (decide (o = root)) as [->|Hne].
  - rewrite lookup_insert_eq. split; [eauto|done].
  - by rewrite lookup_insert_ne.
Qed.

Lemma root_sink_addEventListener o (name : string) cb h e :
  root_sink h e → root_sink (addEventListener o name cb h) e.
Proof.
  intros [Hs Hnil]. unfold addEventListener. split.
  - by apply is_Some_alter.
  - by rewrite direct_alter_listeners.
Qed.

Lemma root_sink_stopPropagatingTo o other h e :
  root_sink h e → root_sink (stopPropagatingTo o other h) e.
Proof. apply root_sink_pruned with (this := other), stopPropagatingTo_pruned. Qed.

Lemma root_sink_propagateEventTo fuel h A E B h1 e :
  propagateEventTo fuel h A E B = Return h1 → root_sink h e → root_sink h1 e.
Proof.
  intros Hret [Hs Hnil].
  apply propagateEventTo_Return in Hret as (HA & HB & HAroot & _ & ->). split.
  - by apply add_edge_is_Some.
  - rewrite add_edge_direct_ne; [done|congruence].
Qed.

Lemma root_sink_triggerEvent fuel o this E args h h' t e :
  triggerEvent fuel o this E args h = Some (h', t) → root_sink h e → root_sink h' e.
Proof. intros Ht. eapply root_sink_pruned, triggerEvent_pruned, Ht. Qed.

Lemma cleanup_wired_initial : cleanup_wired initial.
Proof. apply cleanup_wiredb_spec. reflexivity. Qed.

Lemma cleanup_wired_addEventListener o (name : string) cb h :
  cleanup_wired h → cleanup_wired (addEventListener o name cb h).
Proof.
  intros Hw object other Hin. unfold addEventListener in Hin.
  rewrite direct_alter_listeners in Hin.
  by apply listeners_addEventListener_mono, Hw.
Qed.

Lemma cleanup_wired_pruned this h h' :
  pruned this h h' → cleanup_wired h → cleanup_wired h'.
Proof.
  intros Hp Hw object other Hin.
  apply (pruned_direct_subseteq _ _ _ _ _ Hp) in Hin.
  rewrite (pruned_listeners _ _ _ _ _ Hp). by apply Hw.
Qed.

Lemma cleanup_wired_stopPropagatingTo o other h :
  cleanup_wired h → cleanup_wired (stopPropagatingTo o other h).
Proof. apply cleanup_wired_pruned with (this := other), stopPropagatingTo_pruned. Qed.

Lemma cleanup_wired_propagateEventTo fuel h A E B h1 :
  propagateEventTo fuel h A E B = Return h1 → cleanup_wired h → cleanup_wired h1.
Proof.
  intros Hret Hw.
  apply propagateEventTo_Return in Hret as (HA & HB & _ & _ & ->).
  by apply cleanup_wired_add_edge.
Qed.

Lemma cleanup_wired_triggerEvent fuel o this E args h h' t :
  triggerEvent fuel o this E args h = Some (h', t) → cleanup_wired h → cleanup_wired h'.
Proof. intros Ht. eapply cleanup_wired_pruned, triggerEvent_pruned, Ht. Qed.

Lemma cleanup_wired_addEventModel o h :
  no_edge_to h o → cleanup_wired h → cleanup_wired (addEventModel o h).
Proof.
  intros Hno Hw object other Hin.
  unfold directPropagationTargets, listeners, addEventModel in *.
  destruct (decide (o = object)) as [->|Hne].
  - rewrite lookup_insert_eq in Hin. by apply elem_of_nil in Hin.
  - rewrite lookup_insert_ne in Hin by done.
    destruct (decide (o = other)) as [->|Hne'].
    + by destruct (Hno object None).
    + rewrite lookup_insert_ne by done. by apply Hw.
Qed.

Lemma closed_pruned this h h' : pruned this h h' → closed h → closed h'.
Proof.
  intros Hp Hc o' e' t Hin. apply (pruned_direct_subseteq _ _ _ _ _ Hp) in Hin.
  eapply pruned_is_Some; [exact Hp|]. by eapply Hc.
Qed.

Lemma closed_add_edge A E B h :
  is_Some (h !! A) → is_Some (h !! B) → closed h → closed (add_edge A E B h).
Proof.
  intros HA HB Hc o' e' t Hin. apply add_edge_is_Some.
  destruct (decide (o' = A)) as [->|Hne].
  - destruct e' as [e'|].
    + apply (add_edge_direct_Some _ _ _ _ _ _ HA) in Hin as [Hin|[-> _]]; [|done].
      by eapply Hc.
    + apply (add_edge_direct_None _ _ _ _ _ HA) in Hin as [Hin| ->]; [|done].
      by eapply Hc.
  - rewrite add_edge_direct_ne in Hin by done. by eapply Hc.
Qed.

Lemma closed_addEventModel o h : closed h → closed (addEventModel o h).
Proof.
  intros Hc o' e' t Hin. unfold directPropagationTargets, addEventModel in *.
  destruct (decide (o = t)) as [->|Hnt]; [rewrite lookup_insert_eq; eauto|].
  rewrite lookup_insert_ne by done.
  destruct (decide (o = o')) as [->|Hne].
  - rewrite lookup_insert_eq in Hin. simpl in Hin.
    rewrite collect_targets_nil in Hin. by apply elem_of_nil in Hin.
  - rewrite lookup_insert_ne in Hin by done. by eapply Hc.
Qed.

(** Every store built through the methods has the cleanup listener of each
    of its edges, has its edges inside the store, and has a root that
    propagates nothing. *)
Lemma built_invariants h :
  built h → cleanup_wired h ∧ closed h ∧ ∀ e, root_sink h e.
Proof.
  induction 1 as [ | o h Hb (Hw & Hc & Hr) Hfresh
                   | o name id h Hb (Hw & Hc & Hr)
                   | fuel A E B h h1 Hb (Hw & Hc & Hr) Hret
                   | o other h Hb (Hw & Hc & Hr)
                   | fuel o this E args h h1 t Hb (Hw & Hc & Hr) Ht ].
  - split_and!; [apply cleanup_wired_initial| |apply root_sink_initial].
    intros o e t Hin. unfold directPropagationTargets, initial, addEventModel in Hin.
    destruct (decide (root = o)) as [<-|Hne].
    + rewrite lookup_insert_eq in Hin. simpl in Hin.
      rewrite collect_targets_nil in Hin. by apply elem_of_nil in Hin.
    + rewrite lookup_insert_ne, lookup_empty in Hin by done.
      by apply elem_of_nil in Hin.
  - split_and!.
    + apply cleanup_wired_addEventModel; [|done].
      intros o' e' Hin. apply Hc in Hin. rewrite Hfresh in Hin. by destruct Hin.
    + by apply closed_addEventModel.
    + intros e. by apply root_sink_addEventModel.
  - split_and!.
    + by apply cleanup_wired_addEventListener.
    + intros o' e' t Hin. unfold addEventListener in *.
      rewrite direct_alter_listeners in Hin. apply is_Some_alter. by eapply Hc.
    + intros e. by apply root_sink_addEventListener.
  - split_and!.
    + by eapply cleanup_wired_propagateEventTo.
    + apply propagateEventTo_Return in Hret as (HA & HB & _ & _ & ->).
      by apply closed_add_edge.
    + intros e. by eapply root_sink_propagateEventTo.
  - split_and!.
    + by apply cleanup_wired_stopPropagatingTo.
    + eapply closed_pruned; [apply stopPropagatingTo_pruned|done].
    + intros e. by apply root_sink_stopPropagatingTo.
  - split_and!.
    + by eapply cleanup_wired_triggerEvent.
    + eapply closed_pruned; [|done]. eapply triggerEvent_pruned. exact Ht.
    + intros e. by eapply root_sink_triggerEvent.
Qed.
End invariants.

(** ** The statements on the scenarios *)

Ltac by_evaluation :=
  vm_compute;
  first [ reflexivity | by eexists | by apply list_elem_of_here | lia | done ].

Ltac descending_by_evaluation := apply descendingb_spec; vm_compute; reflexivity.

Ltac root_sink_by_evaluation := split; by_evaluation.

Ltac not_inherited_by_evaluation := apply (bool_decide_unpack _); by vm_compute.

(** C1, at the failing input: the fresh object 1 is accepted as its own
    target for "e". *)
Lemma self_propagation_is_accepted_witness :
  1 ≠ root
  ∧ directPropagationTargets two_objects 1 (Some "e") = []
  ∧ propagateEventTo 1 two_objects 1 "e" 1 = Return (add_edge 1 "e" 1 two_objects)
  ∧ 1 ∈ directPropagationTargets (add_edge 1 "e" 1 two_objects) 1 (Some "e").
Proof.
  split; [discriminate|]. split; [reflexivity|].
  apply (self_propagation_is_accepted two_objects 1 "e" 0).
  - discriminate.
  - by_evaluation.
  - reflexivity.
Defined.

(** After that call, triggering "e" on the object exhausts every stack. *)
Lemma self_edge_trigger_diverges :
  ∀ fuel, trigger fuel 1 "e" [] (add_edge 1 "e" 1 two_objects) = None.
Proof.
  apply self_edge_never_returns.
  - by_evaluation.
  - reflexivity.
  - intros object Hin. vm_compute in Hin. by apply elem_of_nil in Hin.
  - intros object Hin. vm_compute in Hin. by apply elem_of_nil in Hin.
Qed.

(** C2 refuted: 1 propagates "a" to 2, then 2 propagates "b" to 1, and the
    second call returns. *)
Lemma different_names_counterexample :
  1 ≠ 2 ∧ "a" ≠ "b"
  ∧ propagateEventTo 2 two_objects 1 "a" 2 = Return (link 1 "a" 2 two_objects)
  ∧ propagateEventTo 2 (link 1 "a" 2 two_objects) 2 "b" 1
    = Return (link 2 "b" 1 (link 1 "a" 2 two_objects))
  ∧ propagateEventTo 2 (link 1 "a" 2 two_objects) 2 "b" 1 ≠ Throw CycleError.
Proof.
  split; [discriminate|]. split; [discriminate|].
  split; [by_evaluation|]. split; [by_evaluation|].
  vm_compute. discriminate.
Qed.

Lemma cycle_check_is_per_event_name_witness :
  propagateEventTo_run 2 two_objects 1 wildcard 2 = Done (link 1 wildcard 2 two_objects)
  ∧ propagateEventTo_run 5 (link 1 wildcard 2 two_objects) 2 "b" 1 = Thrown CycleError.
Proof.
  assert (propagateEventTo_run 2 two_objects 1 wildcard 2
          = Done (link 1 wildcard 2 two_objects)) as Hfirst by by_evaluation.
  assert (not_inherited "b") as Hb by not_inherited_by_evaluation.
  split; [exact Hfirst|].
  refine (proj1 (cycle_check_is_per_event_name two_objects 1 2 wildcard "b" 2 _ Hb Hfirst)
            _ (λ o, 2 - o) 5 _ _).
  - by left.
  - descending_by_evaluation.
  - by_evaluation.
Defined.

(** C3 refuted: the object 1 registers the root as a target for "e". *)
Lemma root_as_target_counterexample :
  1 ≠ root
  ∧ propagateEventTo 1 two_objects 1 "e" root = Return (link 1 "e" root two_objects)
  ∧ directPropagationTargets (link 1 "e" root two_objects) 1 (Some "e") = [root]
  ∧ propagateEventTo 1 two_objects 1 "e" root ≠ Throw CycleError.
Proof.
  split; [discriminate|]. split; [by_evaluation|]. split; [by_evaluation|].
  vm_compute. discriminate.
Qed.

Lemma root_is_rejected_as_source_witness :
  propagateEventTo_run 3 two_objects root "e" 1 = Thrown CycleError
  ∧ propagateEventTo_run 1 two_objects 1 "e" root
    = Done (add_edge 1 "e" root two_objects)
  ∧ root ∈ directPropagationTargets (add_edge 1 "e" root two_objects) 1 (Some "e").
Proof.
  assert (is_Some (two_objects !! root)) as Hroot by by_evaluation.
  assert (not_inherited "e") as He by not_inherited_by_evaluation.
  destruct (root_is_rejected_as_source two_objects "e" Hroot) as [Hsource Htarget].
  split.
  - apply Hsource. by_evaluation.
  - apply (Htarget He 1 0).
    + discriminate.
    + by_evaluation.
    + reflexivity.
Defined.

Lemma fallback_fires_root_once_witness :
  directPropagationTargets load_listeners 1 (Some "load") = []
  ∧ ∃ h' t,
      triggerEvent_run 2 1 1 "load" [VNum 42] load_listeners = Done (h', t)
      ∧ t = Fired 1 1 "load" [VNum 42] :: calls load_listeners 1 1 "load" [VNum 42]
            ++ Fired root 1 "load" [VNum 42] :: calls load_listeners root 1 "load" [VNum 42]
      ∧ fires t = [1; root].
Proof.
  split; [reflexivity|].
  apply (fallback_fires_root_once load_listeners 1 1 "load" [VNum 42] 0).
  - not_inherited_by_evaluation.
  - discriminate.
  - by_evaluation.
  - root_sink_by_evaluation.
  - reflexivity.
Defined.

(** C5 refuted: 1 has the direct target 2 for "e", and triggering "e" on 1
    runs the handler of the root, through the fallback of 2. *)
Lemma nested_fallback_counterexample :
  directPropagationTargets pair 1 (Some "e") = [2]
  ∧ listeners pair root "e" = [Handler 0]
  ∧ snd <$> trigger 3 1 "e" [] pair
    = Some [Fired 1 1 "e" []; Fired 2 1 "e" []; Fired root 1 "e" [];
            Called (Handler 0) 1 []].
Proof. split_and!; by_evaluation. Qed.

Lemma fallback_is_decided_per_object_witness :
  directPropagationTargets pair 1 (Some "e") ≠ []
  ∧ ∃ h' t, triggerEvent_run 3 1 1 "e" [] pair = Done (h', t) ∧ root ∈ fires t.
Proof.
  assert (is_Some (pair !! 1)) as H1 by by_evaluation.
  assert (not_inherited "e") as He by not_inherited_by_evaluation.
  assert (directPropagationTargets pair 1 (Some "e") ≠ []) as Hne.
  { vm_compute. discriminate. }
  split; [exact Hne|].
  destruct (fallback_is_decided_per_object pair 1 1 "e" [] He H1 Hne) as [_ Hleaf].
  apply (Hleaf (λ o, 2 - o) 2 3).
  - descending_by_evaluation.
  - root_sink_by_evaluation.
  - by_evaluation.
  - reflexivity.
  - discriminate.
  - by_evaluation.
Defined.



(** The run of the chain, in full. *)
Lemma chain_trace :
  snd <$> returned (triggerEvent_run 5 1 1 "e" [VNum 7] chain)
  = Some [Fired 1 1 "e" [VNum 7]; Called (Handler 1) 1 [VNum 7];
          Fired 2 1 "e" [VNum 7]; Called (Handler 2) 1 [VNum 7];
          Called (Handler 20) 1 [VStr "e"; VNum 7];
          Fired 3 1 "e" [VNum 7]; Called (Handler 3) 1 [VNum 7];
          Fired root 1 "e" [VNum 7]; Called (Handler 0) 1 [VNum 7]].
Proof. by_evaluation. Qed.

(** The example of the specification: h1(42), then h2("load", 42). *)
Lemma listeners_run_in_order_witness :
  addEventListener_run 1 wildcard (Handler 2)
    (addEventListener 1 "load" (Handler 1) two_objects) = Done load_listeners
  ∧ listeners load_listeners 1 "load" = [Handler 1]
  ∧ listeners load_listeners 1 wildcard = [Handler 2]
  ∧ ∃ h' rest,
      triggerEvent_run 2 1 1 "load" [VNum 42] load_listeners
      = Done (h', Fired 1 1 "load" [VNum 42]
                  :: ((λ cb, Called cb 1 [VNum 42]) <$> listeners load_listeners 1 "load")
                  ++ ((λ cb, Called cb 1 [VStr "load"; VNum 42])
                        <$> listeners load_listeners 1 wildcard)
                  ++ rest)
      ∧ (rest = [] ∨ ∃ o' rest', rest = Fired o' 1 "load" [VNum 42] :: rest').
Proof.
  split; [reflexivity|]. split; [reflexivity|]. split; [reflexivity|].
  apply (listeners_run_in_order load_listeners (λ _, 0) 1 1 "load" [VNum 42] 2).
  - not_inherited_by_evaluation.
  - descending_by_evaluation.
  - root_sink_by_evaluation.
  - by_evaluation.
  - by_evaluation.
Defined.

Lemma load_trace :
  snd <$> returned (triggerEvent_run 2 1 1 "load" [VNum 42] load_listeners)
  = Some [Fired 1 1 "load" [VNum 42]; Called (Handler 1) 1 [VNum 42];
          Called (Handler 2) 1 [VStr "load"; VNum 42]; Fired root 1 "load" [VNum 42]].
Proof. by_evaluation. Qed.


Lemma cleanup_event_unlinks_target_witness :
  propagateEventTo 2 two_objects 1 "e" 2 = Return (link 1 "e" 2 two_objects)
  ∧ 2 ∈ directPropagationTargets (link 1 "e" 2 two_objects) 1 (Some "e")
  ∧ ∃ h2 t,
      trigger 3 2 eventmodelcleanup [] (link 1 "e" 2 two_objects) = Some (h2, t)
      ∧ Called (Cleanup 1 2) 2 [] ∈ t
      ∧ (∀ name : option string, 2 ∉ directPropagationTargets h2 1 name)
      ∧ (2 ≠ root → 1 ≠ 2 →
         ∀ E args' n h3 t', trigger n 1 E args' h2 = Some (h3, t') → 2 ∉ fires t').
Proof.
  assert (propagateEventTo 2 two_objects 1 "e" 2 = Return (link 1 "e" 2 two_objects))
    as Hfirst by by_evaluation.
  split; [exact Hfirst|].
  refine (let H := cleanup_event_unlinks_target two_objects 1 2 "e" 2 _ (λ _, 0) [] 3
                     _ Hfirst _ _ _ in conj (proj1 H) (proj1 (proj2 H))).
  - apply cleanup_wiredb_spec. reflexivity.
  - descending_by_evaluation.
  - root_sink_by_evaluation.
  - by_evaluation.
Defined.

(** C9 refuted: 1 propagates "e" to the root; the cleanup event on the root
    removes that edge, and a trigger on 1 afterwards still fires on the
    root. *)
Lemma root_stays_reached_counterexample :
  propagateEventTo 2 two_objects 1 "e" root = Return to_root
  ∧ root ∈ directPropagationTargets to_root 1 (Some "e")
  ∧ ∃ h2 t,
      trigger 3 root eventmodelcleanup [] to_root = Some (h2, t)
      ∧ directPropagationTargets h2 1 None = []
      ∧ ∃ h3 t', trigger 3 1 "e" [] h2 = Some (h3, t') ∧ root ∈ fires t'.
Proof.
  split; [by_evaluation|]. split; [by_evaluation|].
  destruct (trigger 3 root eventmodelcleanup [] to_root) as [[h2 t]|] eqn:Ht;
    [|vm_compute in Ht; discriminate].
  exists h2, t. split; [reflexivity|].
  vm_compute in Ht. injection Ht as <- _.
  split; [by_evaluation|].
  match goal with
  | |- ∃ h3 t', trigger 3 1 "e" [] ?h = _ ∧ _ =>
      destruct (trigger 3 1 "e" [] h) as [[h3 t']|] eqn:Ht';
        [|vm_compute in Ht'; discriminate]
  end.
  exists h3, t'. split; [reflexivity|].
  vm_compute in Ht'. injection Ht' as _ <-.
  apply (bool_decide_unpack _). by vm_compute.
Qed.

Lemma cleanup_trace :
  (λ r, (directPropagationTargets r.1 1 None, r.2))
    <$> trigger 3 2 eventmodelcleanup [] (link 1 "e" 2 two_objects)
  = Some ([], [Fired 2 2 eventmodelcleanup []; Called (Cleanup 1 2) 2 [];
               Fired root 2 eventmodelcleanup []]).
Proof. by_evaluation. Qed.

Lemma wildcard_event_calls_twice_witness :
  Handler 2 ∈ listeners load_listeners 1 wildcard
  ∧ ∃ h' rest,
      triggerEvent 2 1 1 wildcard [VNum 5] load_listeners
      = Some (h', Fired 1 1 wildcard [VNum 5]
                  :: ((λ cb, Called cb 1 [VNum 5]) <$> listeners load_listeners 1 wildcard)
                  ++ ((λ cb, Called cb 1 [VStr wildcard; VNum 5])
                        <$> listeners load_listeners 1 wildcard)
                  ++ rest)
      ∧ Called (Handler 2) 1 [VNum 5]
          ∈ ((λ cb, Called cb 1 [VNum 5]) <$> listeners load_listeners 1 wildcard)
      ∧ Called (Handler 2) 1 [VStr wildcard; VNum 5]
          ∈ ((λ cb, Called cb 1 [VStr wildcard; VNum 5])
               <$> listeners load_listeners 1 wildcard).
Proof.
  assert (Handler 2 ∈ listeners load_listeners 1 wildcard) as Hin by by_evaluation.
  split; [exact Hin|].
  apply (wildcard_event_calls_twice load_listeners (λ _, 0) 1 1 [VNum 5] 2 (Handler 2)).
  - descending_by_evaluation.
  - root_sink_by_evaluation.
  - by_evaluation.
  - by_evaluation.
  - exact Hin.
Defined.

Lemma wildcard_trace :
  snd <$> trigger 2 1 wildcard [VNum 5] load_listeners
  = Some [Fired 1 1 wildcard [VNum 5]; Called (Handler 2) 1 [VNum 5];
          Called (Handler 2) 1 [VStr wildcard; VNum 5]; Fired root 1 wildcard [VNum 5]].
Proof. by_evaluation. Qed.

(** * Further properties of the event model *)

(** ** The two queries *)

Section queries.
Implicit Types (h : gmap nat Obj) (o A B : nat) (e : option string) (E : string).

#[local] Arguments allPropagationTargets : simpl never.

Lemma forEach_collect_elem f targets acc l x :
  forEach_collect f targets acc = Some l →
  x ∈ l ↔ x ∈ acc ∨ ∃ t r, t ∈ targets ∧ f t = Some r ∧ x ∈ r.
Proof.
  revert acc. induction targets as [|t targets IH]; intros acc; simpl.
  - intros [= ->]. split; [auto|]. intros [?|(t & r & Ht & _)]; [done|].
    by apply elem_of_nil in Ht.
  - destruct (f t) as [r|] eqn:Ef; simpl; [|done].
    intros H. rewrite (IH _ H), elem_of_foldl_push_new. split.
    + intros [[?|?]|(t' & r' & Ht' & Hf & Hx)]; [auto| |].
      * right. exists t, r. split_and!; [apply list_elem_of_here|done..].
      * right. exists t', r'. split_and!; [by apply list_elem_of_further|done..].
    + intros [?|(t' & r' & Ht' & Hf & Hx)]; [auto|].
      apply elem_of_cons in Ht' as [->|Ht'].
      * rewrite Ef in Hf. injection Hf as ->. auto.
      * right. eauto.
Qed.

Lemma foldl_push_new_prefix acc l : ∃ rest, foldl push_new acc l = acc ++ rest.
Proof.
  revert acc. induction l as [|y l IH]; intros acc; simpl.
  - exists []. by rewrite app_nil_r.
  - destruct (IH (push_new acc y)) as [rest ->]. unfold push_new.
    case_decide; [eauto|]. exists (y :: rest). by rewrite <- app_assoc.
Qed.

Lemma forEach_collect_prefix f targets acc l :
  forEach_collect f targets acc = Some l → ∃ rest, l = acc ++ rest.
Proof.
  revert acc. induction targets as [|t targets IH]; intros acc; simpl.
  - intros [= ->]. exists []. by rewrite app_nil_r.
  - destruct (f t) as [r|]; simpl; [|done]. intros H.
    destruct (IH _ H) as [rest ->].
    destruct (foldl_push_new_prefix acc r) as [rest' ->].
    exists (rest' ++ rest). by rewrite app_assoc.
Qed.

Lemma forEach_collect_NoDup f targets acc l :
  NoDup acc → forEach_collect f targets acc = Some l → NoDup l.
Proof.
  revert acc. induction targets as [|t targets IH]; intros acc Hnd; simpl.
  - by intros [= <-].
  - destruct (f t) as [r|]; simpl; [|done]. apply IH.
    by apply NoDup_foldl_push_new.
Qed.

Lemma reaches_trans h e o t x : reaches h e o t → reaches h e t x → reaches h e o x.
Proof.
  induction 1 as [o t Ht|o t' t Ht' _ IH]; intros Hx.
  - by eapply reaches_step.
  - eapply reaches_step; [exact Ht'|]. by apply IH.
Qed.

Lemma allPropagationTargets_reaches fuel h o e l :
  allPropagationTargets fuel h o e = Some l → ∀ x, x ∈ l ↔ reaches h e o x.
Proof.
  revert o l. induction fuel as [|n IH]; intros o l; [done|].
  rewrite allPropagationTargets_unfold.
  destruct (h !! o) as [ob|] eqn:Ho; simpl; [|done].
  intros H x. rewrite (forEach_collect_elem _ _ _ _ x H).
  rewrite <- !(direct_lookup _ _ _ _ Ho). split.
  - intros [Hd|(t & r & Ht & Hf & Hx)]; [by apply reaches_direct|].
    eapply reaches_step; [exact Ht|]. by apply (IH _ _ Hf).
  - intros Hr. inversion Hr as [? ? Hd|? t ? Ht Hx]; subst; [auto|].
    right. pose proof Ht as Ht'. rewrite (direct_lookup _ _ _ _ Ho) in Ht'.
    destruct (forEach_collect_rec _ _ _ _ t H Ht') as (r & Hf & _).
    exists t, r. split_and!; [done|done|]. by apply (IH _ _ Hf).
Qed.

Lemma descending_reaches h E rank o x :
  descending h E rank → reaches h (Some E) o x → rank x < rank o.
Proof.
  intros Hd. induction 1 as [o x Hx|o t x Ht _ IH].
  - by apply Hd.
  - destruct (Hd o t Ht) as [_ Hlt]. lia.
Qed.

Lemma descending_acyclic h E rank : descending h E rank → acyclic h (Some E).
Proof.
  intros Hd o Hr. apply (descending_reaches _ _ _ _ _ Hd) in Hr. lia.
Qed.

(** X1. [directPropagationTargets] returns a list without repetition.  With
    an event name that no prototype defines it holds exactly the targets
    recorded under that name or under the wildcard; without a name, exactly
    the targets recorded under any name. *)
Theorem directPropagationTargets_is_the_union h o ob :
  h !! o = Some ob →
  (∀ E, not_inherited E →
        ∃ l, directPropagationTargets_run h o (Some E) = Done l
             ∧ NoDup l
             ∧ ∀ x, x ∈ l ↔ x ∈ pe_targets E (propagated_events ob)
                            ∨ x ∈ pe_targets wildcard (propagated_events ob))
  ∧ (∃ l, directPropagationTargets_run h o None = Done l
          ∧ NoDup l
          ∧ ∀ x, x ∈ l ↔ ∃ name, x ∈ pe_targets name (propagated_events ob)).
Proof.
  intros Ho. split.
  - intros E HE. exists (directPropagationTargets h o (Some E)). split_and!.
    + eapply directPropagationTargets_run_own; [done|apply HE].
    + rewrite (direct_lookup _ _ _ _ Ho). apply NoDup_collect_targets.
    + intros x. rewrite (direct_lookup _ _ _ _ Ho).
      apply elem_of_collect_targets_Some.
  - destruct (directPropagationTargets_run_keys h o ob Ho) as (l & Hl & Hnd & Hin).
    exists l. split_and!; [done|done|].
    intros x. rewrite Hin, (direct_lookup _ _ _ _ Ho), elem_of_collect_targets_None.
    split; [naive_solver|]. intros [name Hx]. exists name. split; [|done].
    unfold pe_targets in Hx. destruct (pe_get name _) eqn:Eq.
    + by eapply pe_get_Some_keys.
    + by apply elem_of_nil in Hx.
Qed.

(** X2. When [allPropagationTargets] returns, its result holds exactly the
    objects reached along one or more propagation edges of the event, each
    once, the direct targets first. *)
Theorem allPropagationTargets_is_reachability (fuel : nat) h o e l :
  allPropagationTargets fuel h o e = Some l →
  (∀ x, x ∈ l ↔ reaches h e o x)
  ∧ NoDup l
  ∧ ∃ rest, l = directPropagationTargets h o e ++ rest.
Proof.
  intros H. split; [by eapply allPropagationTargets_reaches|].
  destruct fuel as [|n]; [done|]. rewrite allPropagationTargets_unfold in H.
  destruct (h !! o) as [ob|] eqn:Ho; simpl in H; [|done].
  rewrite (direct_lookup _ _ _ _ Ho). split.
  - eapply forEach_collect_NoDup; [|exact H]. apply NoDup_collect_targets.
  - by eapply forEach_collect_prefix.
Qed.

Lemma cycle_check_reaches_by_own_keys h (rank : nat → nat) A E B (fuel : nat) :
  descending h E rank →
  is_Some (h !! A) → is_Some (h !! B) → A ≠ root →
  rank B < fuel →
  (propagateEventTo fuel h A E B = Throw CycleError ↔ reaches h (Some E) B A)
  ∧ (propagateEventTo fuel h A E B = Return (add_edge A E B h)
     ↔ ¬ reaches h (Some E) B A).
Proof.
  intros Hd HA HB Hroot Hfuel.
  destruct (allPropagationTargets_terminates rank E fuel h Hd B HB Hfuel) as [l Hl].
  pose proof (allPropagationTargets_reaches _ _ _ _ _ Hl A) as Hiff.
  unfold propagateEventTo. rewrite has_event_model_true by done.
  destruct HA as [oa ->]. cbn [negb]. rewrite decide_False by done. rewrite Hl.
  case_decide as Hin; split; split; try done; try (by rewrite <- Hiff).
Qed.

(** X3. At an event name that no prototype defines, on an acyclic graph of
    the event and given enough stack, a call of [propagateEventTo] from an
    object other than the root to a target with the event model raises the
    cycle error exactly when the target already reaches the source along
    the edges of the event, and records the edge exactly when it does not. *)
Theorem cycle_check_is_reachability h (rank : nat → nat) A E B (fuel : nat) :
  not_inherited E →
  descending h E rank →
  is_Some (h !! A) → is_Some (h !! B) → A ≠ root →
  rank B < fuel →
  (propagateEventTo_run fuel h A E B = Thrown CycleError ↔ reaches h (Some E) B A)
  ∧ (propagateEventTo_run fuel h A E B = Done (add_edge A E B h)
     ↔ ¬ reaches h (Some E) B A).
Proof.
  intros HE Hd HA HB Hroot Hfuel.
  destruct (cycle_check_reaches_by_own_keys h rank A E B fuel Hd HA HB Hroot Hfuel)
    as [Hcycle Hedge].
  destruct (propagateEventTo_run_sound fuel h A E B) as [Hdone Hthrown].
  split.
  - rewrite <- Hcycle. split; [apply Hthrown|].
    apply propagateEventTo_run_Throw, HE.
  - rewrite <- Hedge. split; [apply Hdone|].
    apply propagateEventTo_run_Return, HE.
Qed.

(** X4. Once the graph of an event has a cycle, the query of the transitive
    targets never returns on an object that lies on the cycle or leads to
    it, whatever the stack; a call of [propagateEventTo] for that event
    with such a target, from an object other than the root, is aborted by
    the exhausted stack: it raises no cycle error and records nothing. *)
Theorem cycle_exhausts_the_check h e o B :
  B = o ∨ reaches h e B o →
  reaches h e o o →
  (∀ fuel, allPropagationTargets fuel h B e = None)
  ∧ (∀ A E fuel, e = Some E → is_Some (h !! A) → is_Some (h !! B) → A ≠ root →
                 propagateEventTo fuel h A E B = Abort).
Proof.
  intros HB Hcycle.
  assert (∀ fuel b, (b = o ∨ reaches h e b o) → allPropagationTargets fuel h b e = None)
    as Hnone.
  { induction fuel as [|n IH]; intros b Hb; [done|].
    rewrite allPropagationTargets_unfold.
    destruct (h !! b) as [ob|] eqn:Hob; simpl; [|done].
    assert (∃ t, t ∈ directPropagationTargets h b e ∧ (t = o ∨ reaches h e t o))
      as (t & Ht & Hto).
    { destruct Hb as [->|Hb].
      - inversion Hcycle as [? ? Hd|? t ? Ht Hx]; subst; eauto.
      - inversion Hb as [? ? Hd|? t ? Ht Hx]; subst; eauto. }
    rewrite (direct_lookup _ _ _ _ Hob) in Ht.
    destruct (forEach_collect _ _ _) as [l|] eqn:Hl; [|done].
    destruct (forEach_collect_rec _ _ _ _ t Hl Ht) as (r & Hr & _).
    by rewrite (IH t Hto) in Hr. }
  split; [intros fuel; by apply Hnone|].
  intros A E fuel -> HA HB' Hroot. unfold propagateEventTo.
  rewrite has_event_model_true by done.
  destruct HA as [oa ->]. cbn [negb]. rewrite decide_False by done.
  by rewrite Hnone.
Qed.

Lemma collect_targets_Some_eq (pe : list (string * list nat)) E :
  collect_targets pe (Some E)
  = foldl push_new (foldl push_new [] (pe_targets E pe)) (pe_targets wildcard pe).
Proof. reflexivity. Qed.

Lemma pe_targets_add_ne E B (k : string) (pe : list (string * list nat)) :
  k ≠ E → pe_targets k (pe_add E B pe) = pe_targets k pe.
Proof.
  intros Hne. unfold pe_add. case_decide.
  - by rewrite pe_targets_touch.
  - rewrite pe_targets_set_ne by done. by rewrite pe_targets_touch.
Qed.

Lemma pe_targets_add_eq E B (pe : list (string * list nat)) :
  pe_targets E (pe_add E B pe)
  = if decide (B ∈ pe_targets E pe) then pe_targets E pe else pe_targets E pe ++ [B].
Proof.
  unfold pe_add. rewrite !pe_targets_touch. case_decide.
  - by rewrite pe_targets_touch.
  - by rewrite pe_targets_set_eq.
Qed.

Lemma add_edge_other_names A E B h o (name : string) :
  name ≠ E → E ≠ wildcard →
  directPropagationTargets (add_edge A E B h) o (Some name)
  = directPropagationTargets h o (Some name).
Proof.
  intros Hne Hw. destruct (decide (o = A)) as [->|HoA].
  - destruct (h !! A) as [ob|] eqn:Ho.
    + destruct (add_edge_lookup_object A E B h ob Ho) as [ls H'].
      rewrite (direct_lookup _ _ _ _ H'), (direct_lookup _ _ _ _ Ho). simpl.
      rewrite !collect_targets_Some_eq. by rewrite !pe_targets_add_ne.
    + unfold directPropagationTargets. rewrite Ho.
      destruct (add_edge A E B h !! A) eqn:H'; [|done].
      assert (is_Some (h !! A)) as [? ?]; [|congruence].
      apply (add_edge_is_Some A E B). eauto.
  - by apply add_edge_direct_ne.
Qed.

Lemma reaches_with_one_more_edge h h1 e A B :
  (∀ o x, x ∈ directPropagationTargets h1 o e
          → x ∈ directPropagationTargets h o e ∨ (o = A ∧ x = B)) →
  ∀ o x, reaches h1 e o x →
         reaches h e o x
         ∨ ((o = A ∨ reaches h e o A) ∧ (x = B ∨ reaches h e B x)).
Proof.
  intros Hedges o x. induction 1 as [o x Hx|o t x Ht _ IH].
  - apply Hedges in Hx as [Hx|[-> ->]]; [left; by apply reaches_direct|auto].
  - apply Hedges in Ht as [Ht|[-> ->]].
    + destruct IH as [IH|[Hl Hr]].
      * left. by eapply reaches_step.
      * right. split; [|done]. right. destruct Hl as [->|Hl].
        -- by apply reaches_direct.
        -- by eapply reaches_step.
    + right. split; [by left|]. destruct IH as [IH|[_ Hr]]; auto.
Qed.

(** X5. A call of [propagateEventTo] that succeeds under a name other than
    the wildcard, to a target other than the source, keeps the graph of
    that name free of cycles when it was, and leaves the direct targets of
    every object for every other name as they were. *)
Theorem plain_edge_keeps_the_graph_acyclic (fuel : nat) h A E B h1 :
  propagateEventTo fuel h A E B = Return h1 →
  E ≠ wildcard → A ≠ B →
  acyclic h (Some E) →
  acyclic h1 (Some E)
  ∧ (∀ o name, name ≠ E →
               directPropagationTargets h1 o (Some name)
               = directPropagationTargets h o (Some name)).
Proof.
  intros Hret Hw HAB Hacyc.
  apply propagateEventTo_Return in Hret as (HA & HB & _ & (l & Hl & HAl) & ->).
  assert (¬ reaches h (Some E) B A) as Hno.
  { intros Hr. by apply HAl, (allPropagationTargets_reaches _ _ _ _ _ Hl). }
  split; [|intros o name Hne; by apply add_edge_other_names].
  intros o Hcyc.
  apply (reaches_with_one_more_edge h _ (Some E) A B) in Hcyc.
  - destruct Hcyc as [Hold|[[->|HoA] [->|HBo]]].
    + by apply (Hacyc o).
    + done.
    + done.
    + done.
    + apply Hno. by eapply reaches_trans.
  - intros o' x Hx. destruct (decide (o' = A)) as [->|Hne].
    + apply (add_edge_direct_Some _ _ _ _ _ _ HA) in Hx as [Hx|[-> _]]; auto.
    + rewrite add_edge_direct_ne in Hx by done. auto.
Qed.
End queries.

(** ** Listeners under the updates *)

Section listeners_exact.
Implicit Types (h : gmap nat Obj) (o A B : nat) (E name : string).

Lemma listeners_addEventListener_ne o name cb h o' name' :
  o ≠ o' ∨ name ≠ name' →
  listeners (addEventListener o name cb h) o' name' = listeners h o' name'.
Proof.
  intros Hne. unfold listeners, addEventListener.
  destruct (decide (o = o')) as [->|Ho].
  - destruct Hne as [?|Hn]; [done|].
    rewrite lookup_alter_eq. destruct (h !! o') as [ob|]; simpl; [|done].
    by rewrite lookup_insert_ne.
  - by rewrite lookup_alter_ne.
Qed.

Lemma listeners_addEventModel o h o' name :
  listeners (addEventModel o h) o' name
  = if decide (o = o') then [] else listeners h o' name.
Proof.
  unfold listeners, addEventModel. case_decide as Ho.
  - subst. by rewrite lookup_insert_eq.
  - by rewrite lookup_insert_ne.
Qed.

Lemma collect_touch_None E (pe : list (string * list nat)) x :
  x ∈ collect_targets (pe_set E (pe_targets E pe) pe) None
  ↔ x ∈ collect_targets pe None.
Proof.
  rewrite !elem_of_collect_targets_None. split.
  - intros (k & Hk & Hx). rewrite pe_targets_touch in Hx.
    exists k. split; [|done].
    unfold pe_targets in Hx. destruct (pe_get k pe) eqn:Eq.
    + by eapply pe_get_Some_keys.
    + by apply elem_of_nil in Hx.
  - intros (k & Hk & Hx). exists k. rewrite pe_targets_touch.
    split; [by apply pe_keys_set_mono|done].
Qed.

Lemma add_edge_listeners_known A E B h o name :
  is_Some (h !! A) →
  B ∈ directPropagationTargets h A None →
  listeners (add_edge A E B h) o name = listeners h o name.
Proof.
  intros [ob Ho] Hin. unfold add_edge. rewrite listeners_alter_propagated.
  rewrite decide_True.
  - by rewrite listeners_alter_propagated.
  - rewrite (direct_alter_propagated_eq _ _ _ _ _ Ho).
    rewrite (direct_lookup _ _ _ _ Ho) in Hin. by apply collect_touch_None.
Qed.

Lemma add_edge_listeners_new A E B h :
  is_Some (h !! A) → is_Some (h !! B) →
  B ∉ directPropagationTargets h A None →
  listeners (add_edge A E B h) B eventmodelcleanup
  = listeners h B eventmodelcleanup ++ [Cleanup A B]
  ∧ ∀ o name, o ≠ B ∨ name ≠ eventmodelcleanup →
              listeners (add_edge A E B h) o name = listeners h o name.
Proof.
  intros [ob Ho] HB Hnin. unfold add_edge.
  assert (B ∉ directPropagationTargets
                (alter (with_propagated (λ pe, pe_set E (pe_targets E pe) pe)) A h)
                A None) as Hnin'.
  { rewrite (direct_alter_propagated_eq _ _ _ _ _ Ho).
    rewrite (direct_lookup _ _ _ _ Ho) in Hnin. by rewrite collect_touch_None. }
  rewrite decide_False by done. split.
  - rewrite listeners_alter_propagated.
    rewrite listeners_addEventListener_eq by (by apply is_Some_alter).
    by rewrite listeners_alter_propagated.
  - intros o name Hne. rewrite listeners_alter_propagated.
    rewrite listeners_addEventListener_ne by naive_solver.
    by rewrite listeners_alter_propagated.
Qed.

Lemma add_edge_listeners_inv A E B h o name cb :
  is_Some (h !! A) → is_Some (h !! B) →
  cb ∈ listeners (add_edge A E B h) o name →
  cb ∈ listeners h o name ∨ (cb = Cleanup A B ∧ o = B ∧ name = eventmodelcleanup).
Proof.
  intros HA HB Hin.
  destruct (decide (B ∈ directPropagationTargets h A None)) as [Hk|Hn].
  - rewrite add_edge_listeners_known in Hin by done. auto.
  - destruct (add_edge_listeners_new A E B h HA HB Hn) as [Hnew Hother].
    destruct (decide (o = B ∧ name = eventmodelcleanup)) as [[-> ->]|Hne].
    + rewrite Hnew, elem_of_app, list_elem_of_singleton in Hin. naive_solver.
    + rewrite Hother in Hin; [auto|].
      destruct (decide (o = B)); [right|left]; naive_solver.
Qed.

(** X6. A call of [propagateEventTo] that succeeds registers the cleanup
    closure on the target only when the source had no edge to it under any
    name: then the closure is appended to the target's listeners of the
    cleanup event and no other sequence of listeners changes; when the
    source already had an edge to the target, no listener is registered. *)
Theorem cleanup_closure_once_per_target (fuel : nat) h A E B h1 :
  propagateEventTo fuel h A E B = Return h1 →
  (B ∈ directPropagationTargets h A None →
   ∀ o name, listeners h1 o name = listeners h o name)
  ∧ (B ∉ directPropagationTargets h A None →
     listeners h1 B eventmodelcleanup
     = listeners h B eventmodelcleanup ++ [Cleanup A B]
     ∧ ∀ o name, o ≠ B ∨ name ≠ eventmodelcleanup →
                 listeners h1 o name = listeners h o name).
Proof.
  intros Hret.
  apply propagateEventTo_Return in Hret as (HA & HB & _ & _ & ->). split.
  - intros Hin o name. by apply add_edge_listeners_known.
  - intros Hnin. by apply add_edge_listeners_new.
Qed.

End listeners_exact.

(** ** What a dispatch does and does not do *)

Section dispatch_effects.
Implicit Types (h : gmap nat Obj) (o this A B : nat) (E name : string)
  (args : list value).

#[local] Arguments triggerEvent : simpl never.

Lemma pruned_is_Some_inv this h h' o :
  pruned this h h' → is_Some (h' !! o) → is_Some (h !! o).
Proof.
  intros Hp Hs. destruct (Hp o) as [Eq|Eq]; rewrite Eq in Hs; [done|].
  by apply fmap_is_Some in Hs.
Qed.

(** X8. A dispatch that returns has removed no listener and added none, has
    attached or detached no event model, and has added no propagation
    edge: the direct targets of every object are what they were, or what
    they were without the object that is the execution context of the
    dispatch. *)
Theorem dispatch_only_unlinks_its_context (fuel : nat) o this E args h h' t :
  triggerEvent fuel o this E args h = Some (h', t) →
  (∀ x name, listeners h' x name = listeners h x name)
  ∧ (∀ x, is_Some (h' !! x) ↔ is_Some (h !! x))
  ∧ (∀ x e, directPropagationTargets h' x e = directPropagationTargets h x e
            ∨ directPropagationTargets h' x e
              = filter (λ target, target ≠ this) (directPropagationTargets h x e)).
Proof.
  intros Ht. apply triggerEvent_pruned in Ht. split_and!.
  - intros x name. by apply (pruned_listeners this).
  - intros x. split; [by apply (pruned_is_Some_inv this)|by apply (pruned_is_Some this)].
  - intros x e. by apply pruned_direct.
Qed.

Lemma forEach_target_same f targets h h' t :
  (∀ x h2 t2, f x h = Some (h2, t2) → h2 = h) →
  forEach_target f targets h = Some (h', t) → h' = h.
Proof.
  intros Hf. revert t. induction targets as [|x targets IH]; intros t; simpl.
  - by intros [= <- <-].
  - destruct (f x h) as [[h1 t1]|] eqn:E1; simpl; [|done].
    apply Hf in E1 as ->.
    destruct (forEach_target f targets h) as [[h2 t2]|] eqn:E2; simpl; [|done].
    intros [= <- <-]. by eapply IH.
Qed.

Lemma triggerEvent_without_cleanup fuel o this E args h h' t :
  (∀ x object, Cleanup object this ∉ listeners h x E) →
  (∀ x object, Cleanup object this ∉ listeners h x wildcard) →
  triggerEvent fuel o this E args h = Some (h', t) → h' = h.
Proof.
  intros Hno1 Hno2. revert o h' t.
  induction fuel as [|n IH]; intros o h' t; [done|].
  rewrite triggerEvent_unfold. destruct (h !! o) as [ob|]; [|done]. simpl.
  unfold own_listeners.
  pose proof (apply_all_no_cleanup (listeners h o E) this args h (Hno1 o)) as H1.
  destruct (apply_all (listeners h o E) this args h) as [h1 t1]. simpl in H1. subst h1.
  pose proof (apply_all_no_cleanup (listeners h o wildcard) this (VStr E :: args) h
                (Hno2 o)) as H2.
  destruct (apply_all (listeners h o wildcard) this (VStr E :: args) h) as [h2 t2].
  simpl in H2. subst h2.
  destruct (forEach_target _ _ h) as [[h3 t3]|] eqn:E3; simpl; [|done].
  apply forEach_target_same in E3 as ->; [|intros x h2 t2' Hx; by eapply IH].
  case_decide.
  - destruct (triggerEvent n root this E args h) as [[h4 t4]|] eqn:E4; simpl; [|done].
    apply IH in E4 as ->. by intros [= <- <-].
  - by intros [= <- <-].
Qed.

Lemma cleanup_in_place_pruned this h h' :
  pruned this h h' → cleanup_in_place h → cleanup_in_place h'.
Proof.
  intros Hp Hc o name object other Hin.
  rewrite (pruned_listeners _ _ _ _ _ Hp) in Hin. by eapply Hc.
Qed.

Lemma built_cleanup_in_place h : built h → cleanup_in_place h.
Proof.
  induction 1 as [ | o h Hb IH Hfresh
                   | o name id h Hb IH
                   | fuel A E B h h1 Hb IH Hret
                   | o other h Hb IH
                   | fuel o this E args h h1 t Hb IH Ht ].
  - intros o name object other Hin. unfold initial in Hin.
    rewrite listeners_addEventModel in Hin. case_decide.
    + by apply elem_of_nil in Hin.
    + unfold listeners in Hin. rewrite lookup_empty in Hin.
      by apply elem_of_nil in Hin.
  - intros o' name object other Hin. rewrite listeners_addEventModel in Hin.
    case_decide; [by apply elem_of_nil in Hin|]. by eapply IH.
  - intros o' name' object other Hin.
    destruct (decide (o = o' ∧ name = name')) as [[<- <-]|Hne].
    + destruct (h !! o) as [ob|] eqn:Ho.
      * rewrite listeners_addEventListener_eq in Hin by eauto.
        apply elem_of_app in Hin as [Hin|Hin]; [by eapply IH|].
        by apply list_elem_of_singleton in Hin.
      * unfold listeners, addEventListener in Hin.
        rewrite lookup_alter_eq, Ho in Hin. by apply elem_of_nil in Hin.
    + rewrite listeners_addEventListener_ne in Hin; [by eapply IH|].
      destruct (decide (o = o')); [right|left]; naive_solver.
  - apply propagateEventTo_Return in Hret as (HA & HB & _ & _ & ->).
    intros o name object other Hin.
    apply (add_edge_listeners_inv _ _ _ _ _ _ _ HA HB) in Hin
      as [Hin|(Heq & -> & ->)].
    + by eapply IH.
    + by injection Heq as _ ->.
  - eapply cleanup_in_place_pruned; [apply stopPropagatingTo_pruned|done].
  - eapply cleanup_in_place_pruned; [|done]. eapply triggerEvent_pruned. exact Ht.
Qed.

(** X9. On a store built through the methods, a dispatch of an event other
    than the cleanup event changes nothing: the store it returns is the
    store it started from. *)
Theorem ordinary_events_leave_the_store (fuel : nat) o this E args h h' t :
  built h →
  E ≠ eventmodelcleanup →
  triggerEvent fuel o this E args h = Some (h', t) →
  h' = h.
Proof.
  intros Hb HE. apply built_cleanup_in_place in Hb.
  apply triggerEvent_without_cleanup.
  - intros x object Hin. apply Hb in Hin as [? _]. done.
  - intros x object Hin. apply Hb in Hin as [? _]. done.
Qed.

Lemma Forall_of_dispatch_calls this E args h o :
  Forall (of_dispatch this E args) (calls h o this E args).
Proof.
  unfold calls. apply Forall_app. split; apply Forall_fmap, Forall_true;
    intros cb; simpl; auto.
Qed.

Lemma forEach_target_Forall (P : event → Prop) f targets h h' t :
  (∀ x h1 h2 t1, f x h1 = Some (h2, t1) → Forall P t1) →
  forEach_target f targets h = Some (h', t) → Forall P t.
Proof.
  intros Hf. revert h t. induction targets as [|x targets IH]; intros h t; simpl.
  - by intros [= <- <-].
  - destruct (f x h) as [[h1 t1]|] eqn:E1; simpl; [|done].
    destruct (forEach_target f targets h1) as [[h2 t2]|] eqn:E2; simpl; [|done].
    intros [= <- <-]. apply Forall_app. eauto.
Qed.

(** X10. Every record of a dispatch that returns carries the execution
    context of the trigger that started it; the event fires under the same
    name and with the same arguments on every object it reaches, and every
    callback receives those arguments, or the event name followed by them. *)
Theorem dispatch_keeps_context_and_arguments (fuel : nat) o this E args h h' t :
  triggerEvent fuel o this E args h = Some (h', t) →
  Forall (of_dispatch this E args) t.
Proof.
  revert o h h' t. induction fuel as [|n IH]; intros o h h' t; [done|].
  rewrite triggerEvent_unfold. destruct (h !! o) as [ob|]; [|done]. simpl.
  destruct (own_listeners_calls h o this E args) as (h2 & -> & _).
  destruct (forEach_target _ _ h2) as [[h3 t3]|] eqn:E3; simpl; [|done].
  assert (Forall (of_dispatch this E args) t3) as H3.
  { eapply forEach_target_Forall; [|exact E3].
    intros x h1 h1' t1 Hx. simpl in Hx. eapply IH. exact Hx. }
  case_decide.
  - destruct (triggerEvent n root this E args h3) as [[h4 t4]|] eqn:E4; simpl; [|done].
    intros [= <- <-]. apply Forall_cons. split; [done|].
    rewrite !Forall_app. split_and!; [apply Forall_of_dispatch_calls|done|].
    eapply IH. exact E4.
  - intros [= <- <-]. apply Forall_cons. split; [done|].
    rewrite Forall_app. split; [apply Forall_of_dispatch_calls|done].
Qed.

Lemma built_root_registry h :
  built h → ∃ ob, h !! root = Some ob ∧ propagated_events ob = [].
Proof.
  induction 1 as [ | o h Hb (ob & Hr & Hpe) Hfresh
                   | o name id h Hb (ob & Hr & Hpe)
                   | fuel A E B h h1 Hb (ob & Hr & Hpe) Hret
                   | o other h Hb (ob & Hr & Hpe)
                   | fuel o this E args h h1 t Hb (ob & Hr & Hpe) Ht ].
  - eexists. split; [apply lookup_insert_eq|done].
  - exists ob. split; [|done]. unfold addEventModel.
    rewrite lookup_insert_ne; [done|]. intros ->. congruence.
  - unfold addEventListener. destruct (decide (o = root)) as [->|Hne].
    + rewrite lookup_alter_eq, Hr. simpl. eauto.
    + rewrite lookup_alter_ne by done. eauto.
  - apply propagateEventTo_Return in Hret as (_ & _ & HA & _ & ->).
    pose proof (add_edge_lookup_ne A E B h root ltac:(congruence)) as Heq.
    rewrite Hr in Heq. simpl in Heq.
    destruct (add_edge A E B h !! root) as [ob'|]; [|done].
    injection Heq as Heq. exists ob'. split; [done|congruence].
  - destruct (pruned_lookup_Some _ _ _ _ _ (stopPropagatingTo_pruned o other h) Hr)
      as (ob' & Hr' & _ & [Eq|Eq]); exists ob'; (split; [done|]);
      rewrite Eq, Hpe; done.
  - destruct (pruned_lookup_Some _ _ _ _ _ (triggerEvent_pruned _ _ _ _ _ _ _ _ Ht) Hr)
      as (ob' & Hr' & _ & [Eq|Eq]); exists ob'; (split; [done|]);
      rewrite Eq, Hpe; done.
Qed.

(** X11. On a store built through the methods the root never has a
    propagation target, under any name; triggering on the root an event
    whose name no prototype defines therefore runs the listeners of the
    root and nothing else, with one entry into [triggerEvent]. *)
Theorem the_root_is_a_sink h this E args (n : nat) :
  built h →
  (∀ e, directPropagationTargets h root e = [])
  ∧ (not_inherited E →
     ∃ h', triggerEvent_run (S n) root this E args h
           = Done (h', Fired root this E args :: calls h root this E args)).
Proof.
  intros Hb. split.
  - intros e. destruct (built_root_registry h Hb) as (ob & Hr & Hpe).
    rewrite (direct_lookup _ _ _ _ Hr), Hpe. apply collect_targets_nil.
  - intros HE. destruct (built_invariants h Hb) as (_ & _ & Hroot).
    destruct (triggerEvent_root n this E args h (Hroot E)) as (h' & Ht & _).
    exists h'. by apply triggerEvent_run_Done.
Qed.
End dispatch_effects.

(** ** Adding and removing edges *)

Section edges.
Implicit Types (h : gmap nat Obj) (o A B : nat) (E name : string).

#[local] Arguments allPropagationTargets : simpl never.
#[local] Arguments triggerEvent : simpl never.

(** X12. [stopPropagatingTo] never fails.  It removes the target from the
    direct targets of the source for every event name, keeping the others
    in their order; it leaves the direct targets of every other object, the
    listeners of every object (the cleanup closure stays registered on the
    target) and the objects that carry the event model as they were. *)
Theorem stopPropagatingTo_removes_one_target h object other :
  (∀ e, directPropagationTargets (stopPropagatingTo object other h) object e
        = filter (λ target, target ≠ other) (directPropagationTargets h object e))
  ∧ (∀ o e, o ≠ object →
            directPropagationTargets (stopPropagatingTo object other h) o e
            = directPropagationTargets h o e)
  ∧ (∀ o name, listeners (stopPropagatingTo object other h) o name = listeners h o name)
  ∧ (∀ o, is_Some (stopPropagatingTo object other h !! o) ↔ is_Some (h !! o)).
Proof.
  unfold stopPropagatingTo. split_and!.
  - intros e. unfold directPropagationTargets. rewrite lookup_alter_eq.
    destruct (h !! object) as [ob|]; simpl; [|done]. apply collect_targets_prune.
  - intros o e Hne. by apply direct_alter_propagated_ne.
  - intros o name. apply listeners_alter_propagated.
  - intros o. apply is_Some_alter.
Qed.

(** X13. Cleanup closures accumulate: when the source has dropped its edges
    to a target with [stopPropagatingTo], a later [propagateEventTo] to that
    target that succeeds registers the cleanup closure on it once more,
    after the listeners the target already has. *)
Theorem cleanup_closures_accumulate (fuel : nat) h A E B h1 :
  propagateEventTo fuel (stopPropagatingTo A B h) A E B = Return h1 →
  listeners h1 B eventmodelcleanup
  = listeners h B eventmodelcleanup ++ [Cleanup A B].
Proof.
  intros Hret.
  apply propagateEventTo_Return in Hret as (HA & HB & _ & _ & ->).
  destruct (add_edge_listeners_new A E B (stopPropagatingTo A B h) HA HB) as [Hnew _].
  { apply stopPropagatingTo_direct. }
  rewrite Hnew. unfold stopPropagatingTo. by rewrite listeners_alter_propagated.
Qed.

(** X14. [object.propagateEventFrom(E, other)] that succeeds records the
    edge from [other] to [object]: [object] joins the direct targets of
    [other] for E (for every name when E is the wildcard), nothing else
    joins them, and the direct targets of every other object are unchanged;
    [other] is not the root. *)
Theorem propagateEventFrom_records_the_reverse_edge (fuel : nat) h object E other h1 :
  propagateEventFrom fuel h object E other = Return h1 →
  other ≠ root
  ∧ (∀ name x, x ∈ directPropagationTargets h1 other (Some name)
               ↔ x ∈ directPropagationTargets h other (Some name)
                 ∨ (x = object ∧ (name = E ∨ E = wildcard)))
  ∧ (∀ x, x ∈ directPropagationTargets h1 other None
          ↔ x ∈ directPropagationTargets h other None ∨ x = object)
  ∧ (∀ o e, o ≠ other →
            directPropagationTargets h1 o e = directPropagationTargets h o e).
Proof.
  unfold propagateEventFrom. intros Hret.
  apply propagateEventTo_Return in Hret as (HA & HB & Hroot & _ & ->).
  split_and!; [done| | |].
  - intros name x. by apply add_edge_direct_Some.
  - intros x. by apply add_edge_direct_None.
  - intros o e Hne. by apply add_edge_direct_ne.
Qed.

(** X15. Whatever the stack, [propagateEventTo] called on an object with the
    event model reports a target without the event model before anything
    else (also when the source is the root); it raises the cycle error
    only when the source is the root or the target reaches the source
    along the edges of the event; and it records the edge only when the
    source is not the root and the target does not reach it. *)
Theorem propagateEventTo_outcomes (fuel : nat) h A E B :
  is_Some (h !! A) →
  (propagateEventTo fuel h A E B = Throw MissingCapabilityError ↔ h !! B = None)
  ∧ (propagateEventTo fuel h A E B = Throw CycleError →
     is_Some (h !! B) ∧ (A = root ∨ reaches h (Some E) B A))
  ∧ (∀ h1, propagateEventTo fuel h A E B = Return h1 →
           is_Some (h !! B) ∧ A ≠ root ∧ ¬ reaches h (Some E) B A
           ∧ h1 = add_edge A E B h).
Proof.
  intros [oa HA]. unfold propagateEventTo, has_event_model. rewrite HA.
  case_bool_decide as HB; cbn [negb].
  - assert (h !! B ≠ None) as HB' by (destruct HB; congruence).
    case_decide as Hroot.
    + split_and!; [naive_solver|auto|done].
    + destruct (allPropagationTargets fuel h B (Some E)) as [l|] eqn:Hl.
      * pose proof (allPropagationTargets_reaches _ _ _ _ _ Hl A) as Hiff.
        case_decide as Hin.
        -- split_and!; [naive_solver| |done]. intros _. split; [done|].
           right. by apply Hiff.
        -- split_and!; [naive_solver|done|]. intros h1 [= <-].
           split_and!; [done|done| |done]. by rewrite <- Hiff.
      * split_and!; [naive_solver|done|done].
  - assert (h !! B = None) as HB'.
    { destruct (h !! B) eqn:Eq; [|done]. destruct HB. eauto. }
    split_and!; [done|done|done].
Qed.
End edges.

(** ** The order of the targets *)

Section order.
Implicit Types (h : gmap nat Obj) (o A B : nat) (E name : string)
  (pe : list (string * list nat)).

#[local] Arguments triggerEvent : simpl never.

Lemma filter_ext_elem (P Q : nat → Prop) `{∀ x, Decision (P x)} `{∀ x, Decision (Q x)}
    (l : list nat) :
  (∀ x, x ∈ l → P x ↔ Q x) → filter P l = filter Q l.
Proof.
  induction l as [|y l IH]; intros Hpq; [done|].
  assert (filter P l = filter Q l) as Hl.
  { apply IH. intros x Hx. apply Hpq. by apply list_elem_of_further. }
  destruct (decide (P y)) as [Hy|Hy].
  - rewrite !filter_cons_True; [by rewrite Hl|by apply Hpq; [apply list_elem_of_here|]|done].
  - rewrite !filter_cons_False; [done| |done].
    intros Hq. apply Hy, Hpq; [apply list_elem_of_here|done].
Qed.

Lemma filter_all (P : nat → Prop) `{∀ x, Decision (P x)} (l : list nat) :
  (∀ x, x ∈ l → P x) → filter P l = l.
Proof.
  induction l as [|y l IH]; intros Hp; [done|].
  rewrite filter_cons_True by apply Hp, list_elem_of_here.
  f_equal. apply IH. intros x Hx. apply Hp. by apply list_elem_of_further.
Qed.

Lemma foldl_push_new_NoDup (acc l : list nat) :
  NoDup l → foldl push_new acc l = acc ++ filter (λ x, x ∉ acc) l.
Proof.
  revert acc. induction l as [|y l IH]; intros acc Hnd; simpl.
  - by rewrite filter_nil, app_nil_r.
  - apply NoDup_cons in Hnd as [Hy Hnd]. rewrite (IH _ Hnd). unfold push_new.
    destruct (decide (y ∈ acc)) as [Hin|Hnin].
    + by rewrite filter_cons_False by naive_solver.
    + rewrite filter_cons_True by done. rewrite <- app_assoc. simpl. do 2 f_equal.
      apply filter_ext_elem. intros x Hx. rewrite elem_of_app, list_elem_of_singleton.
      split; [naive_solver|]. intros Hxa [?| ->]; done.
Qed.

Lemma collect_targets_ordered pe E :
  NoDup (pe_targets E pe) → NoDup (pe_targets wildcard pe) →
  collect_targets pe (Some E)
  = pe_targets E pe ++ filter (λ x, x ∉ pe_targets E pe) (pe_targets wildcard pe).
Proof.
  intros H1 H2. rewrite collect_targets_Some_eq.
  rewrite (foldl_push_new_NoDup [] _ H1). simpl.
  rewrite filter_all by (intros x _; apply not_elem_of_nil).
  by apply foldl_push_new_NoDup.
Qed.

Lemma nodup_targets_pruned this h h' :
  pruned this h h' → nodup_targets h → nodup_targets h'.
Proof.
  intros Hp Hn o ob' name Ho'.
  destruct (h !! o) as [ob|] eqn:Ho.
  - destruct (pruned_lookup_Some _ _ _ _ _ Hp Ho) as (ob'' & Ho'' & _ & [Eq|Eq]).
    + rewrite Ho' in Ho''. injection Ho'' as <-. rewrite Eq. by eapply Hn.
    + rewrite Ho' in Ho''. injection Ho'' as <-. rewrite Eq, pe_targets_prune.
      apply NoDup_filter. by eapply Hn.
  - by rewrite (pruned_lookup_None _ _ _ _ Hp Ho) in Ho'.
Qed.

Lemma NoDup_pe_targets_add E B pe name :
  NoDup (pe_targets name pe) → NoDup (pe_targets name (pe_add E B pe)).
Proof.
  intros Hnd. destruct (decide (name = E)) as [->|Hne].
  - rewrite pe_targets_add_eq. case_decide; [done|].
    apply NoDup_app. split_and!; [done| |apply NoDup_singleton].
    intros x Hx Hx'. apply list_elem_of_singleton in Hx'. congruence.
  - by rewrite pe_targets_add_ne.
Qed.

Lemma built_nodup_targets h : built h → nodup_targets h.
Proof.
  induction 1 as [ | o h Hb IH Hfresh
                   | o name id h Hb IH
                   | fuel A E B h h1 Hb IH Hret
                   | o other h Hb IH
                   | fuel o this E args h h1 t Hb IH Ht ].
  - intros o ob name Ho. unfold initial, addEventModel in Ho.
    destruct (decide (root = o)) as [<-|Hne].
    + rewrite lookup_insert_eq in Ho. injection Ho as <-. apply NoDup_nil_2.
    + by rewrite lookup_insert_ne, lookup_empty in Ho.
  - intros o' ob name Ho. unfold addEventModel in Ho.
    destruct (decide (o = o')) as [<-|Hne].
    + rewrite lookup_insert_eq in Ho. injection Ho as <-. apply NoDup_nil_2.
    + rewrite lookup_insert_ne in Ho by done. by eapply IH.
  - intros o' ob name' Ho. unfold addEventListener in Ho.
    destruct (decide (o = o')) as [<-|Hne].
    + rewrite lookup_alter_eq in Ho. destruct (h !! o) as [ob0|] eqn:Ho0; [|done].
      injection Ho as <-. simpl. by eapply IH.
    + rewrite lookup_alter_ne in Ho by done. by eapply IH.
  - apply propagateEventTo_Return in Hret as ([oa HA] & HB & _ & _ & ->).
    intros o ob name Ho. destruct (decide (o = A)) as [->|Hne].
    + destruct (add_edge_lookup_object A E B h oa HA) as [ls H'].
      rewrite H' in Ho. injection Ho as <-. simpl.
      apply NoDup_pe_targets_add. by eapply IH.
    + pose proof (add_edge_lookup_ne A E B h o Hne) as Heq. rewrite Ho in Heq.
      destruct (h !! o) as [ob0|] eqn:Ho0; [|done].
      injection Heq as ->. by eapply IH.
  - eapply nodup_targets_pruned; [apply stopPropagatingTo_pruned|done].
  - eapply nodup_targets_pruned; [|done]. eapply triggerEvent_pruned. exact Ht.
Qed.

(** X16. On a store built through the methods, for an event name that no
    prototype defines, [directPropagationTargets] returns the targets
    recorded under the name of the event, in the order of their
    registration, followed by the targets recorded under the wildcard that
    are not among those, in the order of their registration. *)
Theorem targets_are_in_registration_order h o ob E :
  built h →
  h !! o = Some ob →
  not_inherited E →
  directPropagationTargets_run h o (Some E)
  = Done (pe_targets E (propagated_events ob)
          ++ filter (λ x, x ∉ pe_targets E (propagated_events ob))
                    (pe_targets wildcard (propagated_events ob))).
Proof.
  intros Hb Ho HE. apply built_nodup_targets in Hb.
  rewrite (directPropagationTargets_run_own h o ob E Ho) by apply HE.
  rewrite (direct_lookup _ _ _ _ Ho). f_equal.
  apply collect_targets_ordered; by eapply Hb.
Qed.

(** X17. A call of [propagateEventTo] that succeeds puts the target at the
    end of the source's sequence for the name when it is not in it, leaves
    that sequence alone when it is, and leaves the source's sequences for
    all other names, and the sequences of every other object, as they
    were. *)
Theorem propagateEventTo_appends_the_target (fuel : nat) h A E B h1 oa :
  propagateEventTo fuel h A E B = Return h1 →
  h !! A = Some oa →
  (∃ oa1, h1 !! A = Some oa1
          ∧ pe_targets E (propagated_events oa1)
            = (if decide (B ∈ pe_targets E (propagated_events oa))
               then pe_targets E (propagated_events oa)
               else pe_targets E (propagated_events oa) ++ [B])
          ∧ ∀ name, name ≠ E →
                    pe_targets name (propagated_events oa1)
                    = pe_targets name (propagated_events oa))
  ∧ (∀ o, o ≠ A → propagated_events <$> h1 !! o = propagated_events <$> h !! o).
Proof.
  intros Hret HA.
  apply propagateEventTo_Return in Hret as (_ & HB & _ & _ & ->). split.
  - destruct (add_edge_lookup_object A E B h oa HA) as [ls H'].
    eexists. split; [exact H'|]. simpl. split.
    + apply pe_targets_add_eq.
    + intros name Hne. by apply pe_targets_add_ne.
  - intros o Hne. by apply add_edge_lookup_ne.
Qed.

Lemma filter_ne_snoc (l : list nat) B :
  B ∉ l → filter (λ target, target ≠ B) (l ++ [B]) = l.
Proof.
  intros Hn. rewrite filter_app, filter_cons_False by naive_solver.
  rewrite filter_nil, app_nil_r. by apply filter_ne_id.
Qed.

Lemma pe_targets_undo E B pe name :
  B ∉ pe_targets name pe →
  filter (λ target, target ≠ B) (pe_targets name (pe_add E B pe)) = pe_targets name pe.
Proof.
  intros Hn. destruct (decide (name = E)) as [->|Hne].
  - rewrite pe_targets_add_eq. rewrite decide_False by done. by apply filter_ne_snoc.
  - rewrite pe_targets_add_ne by done. by apply filter_ne_id.
Qed.

(** X18. Undoing an edge: when the source had no edge to the target, a call
    of [propagateEventTo] that succeeds followed by [stopPropagatingTo] for
    that target gives every object, for every event name, the direct
    targets it had before the two calls. *)
Theorem stopPropagatingTo_undoes_propagateEventTo (fuel : nat) h A E B h1 :
  propagateEventTo fuel h A E B = Return h1 →
  B ∉ directPropagationTargets h A None →
  ∀ o name,
    directPropagationTargets (stopPropagatingTo A B h1) o (Some name)
    = directPropagationTargets h o (Some name).
Proof.
  intros Hret Hnin o name.
  apply propagateEventTo_Return in Hret as ([oa HA] & HB & _ & _ & ->).
  destruct (decide (o = A)) as [->|Hne].
  - unfold stopPropagatingTo, directPropagationTargets at 1.
    rewrite lookup_alter_eq.
    destruct (add_edge_lookup_object A E B h oa HA) as [ls H'].
    rewrite H', (direct_lookup _ _ _ _ HA). simpl.
    rewrite (direct_lookup _ _ _ _ HA), elem_of_collect_targets_None in Hnin.
    assert (∀ k, B ∉ pe_targets k (propagated_events oa)) as Hk.
    { intros k Hin. apply Hnin. exists k. split; [|done].
      unfold pe_targets in Hin. destruct (pe_get k _) eqn:Eq.
      - by eapply pe_get_Some_keys.
      - by apply elem_of_nil in Hin. }
    rewrite !collect_targets_Some_eq, !pe_targets_prune.
    by rewrite !pe_targets_undo.
  - unfold stopPropagatingTo. rewrite direct_alter_propagated_ne by done.
    by apply add_edge_direct_ne.
Qed.
End order.

(** ** The model attached again, and the way to the root *)

Section root_and_reset.
Implicit Types (h : gmap nat Obj) (o A B this : nat) (E name : string)
  (args : list value).

#[local] Arguments triggerEvent : simpl never.

(** X19. Attaching the event model to an object that has it replaces its
    registries by empty ones: the object loses its listeners, the cleanup
    closures among them, and its own edges, while the edges that other
    objects have to it stay.  On a store built through the methods, the
    cleanup event triggered on the object (not the root) after that returns
    and unlinks nothing. *)
Theorem addEventModel_again_forgets_the_cleanup h B args (n : nat) :
  built h →
  B ≠ root →
  (∀ name, listeners (addEventModel B h) B name = [])
  ∧ (∀ e, directPropagationTargets (addEventModel B h) B e = [])
  ∧ (∀ A e, A ≠ B →
            directPropagationTargets (addEventModel B h) A e
            = directPropagationTargets h A e)
  ∧ ∃ t, trigger (S (S n)) B eventmodelcleanup args (addEventModel B h)
         = Some (addEventModel B h, t).
Proof.
  intros Hb HB. split_and!.
  - intros name. rewrite listeners_addEventModel. by rewrite decide_True.
  - intros e. unfold directPropagationTargets, addEventModel.
    rewrite lookup_insert_eq. simpl. apply collect_targets_nil.
  - intros A e Hne. unfold directPropagationTargets, addEventModel.
    by rewrite lookup_insert_ne.
  - destruct (built_invariants h Hb) as (_ & _ & Hroot).
    pose proof (built_cleanup_in_place h Hb) as Hplace.
    destruct (triggerEvent_leaf n B B eventmodelcleanup args (addEventModel B h))
      as (h' & Ht & _).
    + unfold addEventModel. rewrite lookup_insert_eq. eauto.
    + unfold directPropagationTargets, addEventModel. by rewrite lookup_insert_eq.
    + by apply root_sink_addEventModel.
    + unfold trigger. rewrite Ht. eexists. do 2 f_equal.
      eapply triggerEvent_without_cleanup; [| |exact Ht].
      * intros x object Hin. rewrite listeners_addEventModel in Hin.
        case_decide; [by apply elem_of_nil in Hin|].
        apply Hplace in Hin as [_ ?]. congruence.
      * intros x object Hin. rewrite listeners_addEventModel in Hin.
        case_decide; [by apply elem_of_nil in Hin|].
        apply Hplace in Hin as [_ ?]. congruence.
Qed.

Lemma forEach_target_fires_elem (r : nat) f targets h h' t :
  targets ≠ [] →
  (∀ x h1 h2 t1, f x h1 = Some (h2, t1) → r ∈ fires t1) →
  forEach_target f targets h = Some (h', t) → r ∈ fires t.
Proof.
  intros Hne Hf. destruct targets as [|x targets]; [done|]. simpl.
  destruct (f x h) as [[h1 t1]|] eqn:E1; simpl; [|done].
  destruct (forEach_target f targets h1) as [[h2 t2]|]; simpl; [|done].
  intros [= <- <-]. rewrite fires_app, elem_of_app. left. eauto.
Qed.

(** X20. Every dispatch that returns fires the event first on the object it
    was triggered on and, before it ends, on the root: an event that is
    propagated nowhere falls back to the root, and so does each branch of
    its propagation. *)
Theorem every_dispatch_reaches_the_root (fuel : nat) o this E args h h' t :
  triggerEvent fuel o this E args h = Some (h', t) →
  head (fires t) = Some o ∧ root ∈ fires t.
Proof.
  intros Ht. split.
  - destruct (triggerEvent_head _ _ _ _ _ _ _ _ Ht) as (rest & -> & _). done.
  - revert o h h' t Ht. induction fuel as [|n IH]; intros o h h' t; [done|].
    rewrite triggerEvent_unfold. destruct (h !! o) as [ob|]; [|done]. simpl.
    destruct (own_listeners_calls h o this E args) as (h2 & -> & _).
    destruct (forEach_target _ _ h2) as [[h3 t3]|] eqn:E3; simpl; [|done].
    assert (∀ rest, root ∈ fires rest →
              root ∈ fires (Fired o this E args :: calls h o this E args ++ rest))
      as Hlater.
    { intros rest Hrest. unfold fires at 1. simpl.
      fold (fires (calls h o this E args ++ rest)).
      rewrite fires_app, fires_calls. simpl. by apply list_elem_of_further. }
    destruct (decide (o = root)) as [->|Hne].
    + rewrite decide_False by naive_solver. intros [= <- <-].
      unfold fires. simpl. apply list_elem_of_here.
    + case_decide as Hnil.
      * destruct (triggerEvent n root this E args h3) as [[h4 t4]|] eqn:E4;
          simpl; [|done].
        intros [= <- <-]. apply Hlater. rewrite fires_app, elem_of_app. right.
        destruct (triggerEvent_head _ _ _ _ _ _ _ _ E4) as (rest & -> & _).
        unfold fires. simpl. apply list_elem_of_here.
      * intros [= <- <-]. apply Hlater.
        eapply forEach_target_fires_elem; [|intros x h1 h1' t1 Hx; eapply IH; exact Hx
                                           |exact E3].
        intros Heq. apply Hnil. done.
Qed.
End root_and_reset.

(** ** The names that the registries inherit *)

Section prototypes.
Implicit Types (h : gmap nat Obj) (pe : list (string * list nat))
  (ls : gmap string (list callback)) (name E : string).

#[local] Arguments triggerEvent : simpl never.
#[local] Arguments allPropagationTargets : simpl never.

(** C4 (what the code does at the failing input). An event whose name is a
    property of [Object.prototype], and not a key of the propagation registry
    of the object, cannot be triggered: line 94 asks for the direct targets,
    the lookup of line 234 finds the inherited property, and line 235 throws
    a [TypeError].  No listener has run and the root has not been reached,
    although the object has no direct target registered for the name. *)
Theorem inherited_name_defeats_the_fallback h A ob this E args :
  h !! A = Some ob →
  E ∈ object_prototype →
  pe_get E (propagated_events ob) = None →
  directPropagationTargets_run h A (Some E) = TypeError
  ∧ ∀ n, triggerEvent_run (S n) A this E args h = TypeError.
Proof.
  intros HA HE Hget.
  assert (directPropagationTargets_run h A (Some E) = TypeError) as Hrun.
  { assert (targets_lookup (propagated_events ob) E = None) as Hl.
    { unfold targets_lookup. rewrite Hget. by rewrite decide_True. }
    unfold directPropagationTargets_run, collect_targets_run. rewrite HA.
    cbn [forEach_name]. by rewrite Hl. }
  split; [done|]. intros n. simpl. by rewrite Hrun.
Qed.

(** C7 (what the code does at the failing input). An event whose name is a
    method of [Array.prototype], and not a key of the listener registry of
    the object, cannot be triggered either: the direct targets are computed
    (the name means nothing to a plain object), then line 96 finds the
    inherited method, which is truthy, and line 97 throws a [TypeError].  The
    handlers registered under the wildcard are not called.  No handler can
    be registered under such a name: line 74 throws as well. *)
Theorem inherited_method_name_stops_the_listeners h A ob this E args cb (n : nat) :
  h !! A = Some ob →
  E ∈ array_prototype →
  E ∉ object_prototype →
  event_listeners ob !! E = None →
  directPropagationTargets_run h A (Some E) = Done (directPropagationTargets h A (Some E))
  ∧ listeners_run h A E = None
  ∧ triggerEvent_run (S n) A this E args h = TypeError
  ∧ addEventListener_run A E cb h = TypeError.
Proof.
  intros HA HE HnE Hget.
  assert (E ≠ "length") as Hlen.
  { intros ->. revert HE. apply (bool_decide_unpack _). by vm_compute. }
  assert (E ≠ "__proto__") as Hproto.
  { intros ->. apply HnE. apply (bool_decide_unpack _). by vm_compute. }
  assert (listeners_run h A E = None) as Hrun.
  { unfold listeners_run. rewrite HA. simpl. unfold listeners_lookup.
    rewrite Hget. rewrite !decide_False by done. rewrite decide_True; [done|]. by left. }
  split_and!.
  - by eapply directPropagationTargets_run_own.
  - done.
  - simpl. rewrite (directPropagationTargets_run_own h A ob E HA HnE). by rewrite Hrun.
  - unfold addEventListener_run. rewrite HA, Hget.
    rewrite !decide_False by done. rewrite decide_True; [done|]. by left.
Qed.

(** X23. A call of [triggerEvent] or of [propagateEventTo] that returns, at
    whatever event name, returns what the registries read by their own keys
    give, and a call of [propagateEventTo] that raises one of its two errors
    raises it on that reading too.  At an event name that no prototype
    defines the converse holds: the lookups find keys of the registries
    only, so that the methods that look a name up in the registries end
    exactly as that reading says. *)
Theorem own_keys_decide_at_other_names E :
  (∀ fuel o this args h r,
      triggerEvent_run fuel o this E args h = Done r →
      triggerEvent fuel o this E args h = Some r)
  ∧ (∀ fuel h A B,
        (∀ h1, propagateEventTo_run fuel h A E B = Done h1 →
               propagateEventTo fuel h A E B = Return h1)
        ∧ (∀ e, propagateEventTo_run fuel h A E B = Thrown e →
                propagateEventTo fuel h A E B = Throw e))
  ∧ (not_inherited E →
     (∀ fuel o this args h,
         returned (triggerEvent_run fuel o this E args h)
         = triggerEvent fuel o this E args h)
     ∧ (∀ fuel h A B,
           outcome_of (propagateEventTo_run fuel h A E B) = propagateEventTo fuel h A E B)
     ∧ (∀ h o, is_Some (h !! o) →
           directPropagationTargets_run h o (Some E)
           = Done (directPropagationTargets h o (Some E)))
     ∧ (∀ h o cb, is_Some (h !! o) →
           addEventListener_run o E cb h = Done (addEventListener o E cb h))).
Proof.
  split_and!.
  - intros fuel o this args h r. apply triggerEvent_run_sound.
  - intros fuel h A B. apply propagateEventTo_run_sound.
  - intros HE. split_and!.
    + intros fuel o this args h. by apply triggerEvent_run_returned.
    + intros fuel h A B. apply propagateEventTo_run_outcome, HE.
    + intros h o [ob Ho]. eapply directPropagationTargets_run_own; [done|apply HE].
    + intros h o cb Ho. by apply addEventListener_run_own.
Qed.

(** X24. A dispatch that returns has visited the direct targets of the
    object in the order in which [directPropagationTargets] lists them, one
    after the other: after the calls to the listeners of the object, its
    trace is the whole dispatch on the first target, then the whole dispatch
    on the second, and so on; the dispatch on the root follows when the
    object has no target and is not the root, and nothing follows
    otherwise. *)
Theorem dispatch_follows_the_target_order (n : nat) o this E args h h' t :
  triggerEvent_run (S n) o this E args h = Done (h', t) →
  ∃ segments last,
    t = Fired o this E args :: calls h o this E args ++ concat segments ++ last
    ∧ Forall2 (λ x segment,
                 (∃ hx hx', triggerEvent_run n x this E args hx = Done (hx', segment))
                 ∧ ∃ rest, segment = Fired x this E args :: rest)
              (directPropagationTargets h o (Some E)) segments
    ∧ (if decide (directPropagationTargets h o (Some E) = [] ∧ o ≠ root)
       then ∃ hr hr', triggerEvent_run n root this E args hr = Done (hr', last)
       else last = []).
Proof.
  cbn [triggerEvent_run].
  destruct (directPropagationTargets_run h o (Some E)) as [propagate_to| | |] eqn:Ed;
    [|done..].
  apply directPropagationTargets_run_Done in Ed as [[ob Ho] ->].
  destruct (listeners_run h o E) as [named|] eqn:En; [|done].
  apply listeners_run_Some in En as ->.
  destruct (apply_all_spec (listeners h o E) this args h) as (h1 & -> & Hp1).
  destruct (listeners_run h1 o wildcard) as [any|] eqn:Ea; [|done].
  apply listeners_run_Some in Ea as ->.
  rewrite (pruned_listeners _ _ _ _ _ Hp1).
  destruct (apply_all_spec (listeners h o wildcard) this (VStr E :: args) h1)
    as (h2 & -> & Hp2).
  destruct (forEach_target_run _ _ h2) as [[h3 t3]| | |] eqn:E3; [|done..].
  apply forEach_target_run_segments in E3 as (segments & -> & Hall).
  assert (Forall2 (λ x segment,
             (∃ hx hx', triggerEvent_run n x this E args hx = Done (hx', segment))
             ∧ ∃ rest, segment = Fired x this E args :: rest)
            (directPropagationTargets h o (Some E)) segments) as Hall'.
  { eapply Forall2_impl; [exact Hall|]. simpl. intros x segment (hx & hx' & Hx).
    split; [eauto|]. destruct (triggerEvent_run_head _ _ _ _ _ _ _ _ Hx) as [rest ->].
    eauto. }
  case_decide as Hfall.
  - destruct (triggerEvent_run n root this E args h3) as [[h4 t4]| | |] eqn:E4; [|done..].
    intros [= <- <-]. exists segments, t4. split_and!; [done|done|eauto].
  - intros [= <- <-]. exists segments, []. split_and!; [|done|done].
    by rewrite app_nil_r.
Qed.
End prototypes.

(** ** The further properties on the scenarios *)

Lemma built_two_objects : built two_objects.
Proof.
  unfold two_objects. apply built_addEventModel; [|reflexivity].
  apply built_addEventModel; [|reflexivity]. apply built_initial.
Qed.

Lemma built_pair : built pair.
Proof.
  unfold pair. apply built_addEventListener.
  apply (built_propagateEventTo 8 1 "e" 2 two_objects); [apply built_two_objects|].
  by_evaluation.
Qed.

Lemma built_chain : built chain.
Proof.
  unfold chain. do 5 apply built_addEventListener.
  apply (built_propagateEventTo 8 2 "e" 3 (link 1 "e" 2 (addEventModel 3 two_objects)));
    [|by_evaluation].
  apply (built_propagateEventTo 8 1 "e" 2 (addEventModel 3 two_objects)); [|by_evaluation].
  apply built_addEventModel; [apply built_two_objects|reflexivity].
Qed.

Lemma built_wild_first : built wild_first.
Proof.
  unfold wild_first.
  apply (built_propagateEventTo 8 1 "e" 2
           (link 1 wildcard 3 (addEventModel 3 two_objects))); [|by_evaluation].
  apply (built_propagateEventTo 8 1 wildcard 3 (addEventModel 3 two_objects));
    [|by_evaluation].
  apply built_addEventModel; [apply built_two_objects|reflexivity].
Qed.

Lemma directPropagationTargets_is_the_union_witness :
  directPropagationTargets_run wild_first 1 (Some "e") = Done [2; 3]
  ∧ directPropagationTargets_run wild_first 1 None = Done [3; 2]
  ∧ (∃ l, directPropagationTargets_run wild_first 1 (Some "e") = Done l
          ∧ NoDup l
          ∧ ∀ x, x ∈ l ↔ x ∈ pe_targets "e" [(wildcard, [3]); ("e", [2])]
                         ∨ x ∈ pe_targets wildcard [(wildcard, [3]); ("e", [2])])
  ∧ (∃ l, directPropagationTargets_run wild_first 1 None = Done l
          ∧ NoDup l
          ∧ ∀ x, x ∈ l ↔ ∃ name, x ∈ pe_targets name [(wildcard, [3]); ("e", [2])]).
Proof.
  split; [by_evaluation|]. split; [by_evaluation|].
  destruct (directPropagationTargets_is_the_union wild_first 1
              (mkObj ∅ [(wildcard, [3]); ("e", [2])])) as [Hname Hany];
    [by_evaluation|].
  split; [|exact Hany]. apply Hname. not_inherited_by_evaluation.
Defined.

(** The keys that are array indices are enumerated first: the registry of
    object 1 holds "b" and then "7", and the query without a name lists
    the target recorded under "7" before the one recorded under "b". *)
Lemma numbered_keys :
  (propagated_events <$> numbered !! 1) = Some [("b", [3]); ("7", [2])]
  ∧ directPropagationTargets_run numbered 1 None = Done [2; 3].
Proof. split; by_evaluation. Qed.

Lemma allPropagationTargets_is_reachability_witness :
  allPropagationTargets 3 chain 1 (Some "e") = Some [2; 3]
  ∧ (∀ x, x ∈ [2; 3] ↔ reaches chain (Some "e") 1 x)
  ∧ NoDup [2; 3]
  ∧ ∃ rest, [2; 3] = directPropagationTargets chain 1 (Some "e") ++ rest.
Proof.
  assert (allPropagationTargets 3 chain 1 (Some "e") = Some [2; 3]) as H by by_evaluation.
  split; [exact H|].
  exact (allPropagationTargets_is_reachability 3 chain 1 (Some "e") [2; 3] H).
Defined.

Lemma cycle_check_is_reachability_witness :
  (propagateEventTo_run 4 chain 3 "e" 1 = Thrown CycleError ↔ reaches chain (Some "e") 1 3)
  ∧ (propagateEventTo_run 4 chain 3 "e" 1 = Done (add_edge 3 "e" 1 chain)
     ↔ ¬ reaches chain (Some "e") 1 3).
Proof.
  apply (cycle_check_is_reachability chain chain_rank 3 "e" 1 4).
  - not_inherited_by_evaluation.
  - descending_by_evaluation.
  - by_evaluation.
  - by_evaluation.
  - discriminate.
  - by_evaluation.
Defined.

Lemma cycle_check_on_the_chain :
  propagateEventTo_run 4 chain 3 "e" 1 = Thrown CycleError
  ∧ propagateEventTo_run 4 chain 1 "e" 3 = Done (add_edge 1 "e" 3 chain).
Proof. split; by_evaluation. Qed.

Lemma reaches_looped : reaches looped (Some "e") 1 1.
Proof. apply reaches_direct. by_evaluation. Qed.

Lemma cycle_exhausts_the_check_witness :
  (∀ fuel, allPropagationTargets fuel looped 1 (Some "e") = None)
  ∧ (∀ fuel, propagateEventTo fuel looped 2 "e" 1 = Abort).
Proof.
  destruct (cycle_exhausts_the_check looped (Some "e") 1 1 (or_introl eq_refl)
              reaches_looped) as [Hquery Hcall].
  split; [exact Hquery|].
  intros fuel. apply Hcall; [reflexivity|by_evaluation|by_evaluation|discriminate].
Defined.

Lemma plain_edge_keeps_the_graph_acyclic_witness :
  acyclic (link 1 "e" 2 two_objects) (Some "e")
  ∧ (∀ o name, name ≠ "e" →
               directPropagationTargets (link 1 "e" 2 two_objects) o (Some name)
               = directPropagationTargets two_objects o (Some name)).
Proof.
  apply (plain_edge_keeps_the_graph_acyclic 2 two_objects 1 "e" 2).
  - by_evaluation.
  - discriminate.
  - discriminate.
  - apply (descending_acyclic _ _ (λ _, 0)). descending_by_evaluation.
Defined.

Lemma cleanup_closure_once_per_target_witness :
  listeners (link 1 "e" 2 two_objects) 2 eventmodelcleanup = [Cleanup 1 2]
  ∧ ∀ o name, listeners (link 1 "f" 2 (link 1 "e" 2 two_objects)) o name
              = listeners (link 1 "e" 2 two_objects) o name.
Proof.
  split; [by_evaluation|].
  refine (proj1 (cleanup_closure_once_per_target 2 (link 1 "e" 2 two_objects) 1 "f" 2
                   _ _) _); by_evaluation.
Defined.

(** Registered twice, called twice. *)
Lemma registered_twice_trace :
  snd <$> trigger 2 1 "load" [VNum 42] (addEventListener 1 "load" (Handler 1) load_listeners)
  = Some [Fired 1 1 "load" [VNum 42]; Called (Handler 1) 1 [VNum 42];
          Called (Handler 1) 1 [VNum 42]; Called (Handler 2) 1 [VStr "load"; VNum 42];
          Fired root 1 "load" [VNum 42]].
Proof. by_evaluation. Qed.

Lemma dispatch_only_unlinks_its_context_witness :
  ∃ h' t,
    triggerEvent 3 2 2 eventmodelcleanup [] chain = Some (h', t)
    ∧ (∀ x name, listeners h' x name = listeners chain x name)
    ∧ (∀ x, is_Some (h' !! x) ↔ is_Some (chain !! x))
    ∧ (∀ x e, directPropagationTargets h' x e = directPropagationTargets chain x e
              ∨ directPropagationTargets h' x e
                = filter (λ target, target ≠ 2) (directPropagationTargets chain x e)).
Proof.
  destruct (triggerEvent 3 2 2 eventmodelcleanup [] chain) as [[h' t]|] eqn:Ht;
    [|vm_compute in Ht; discriminate].
  exists h', t. split; [reflexivity|].
  exact (dispatch_only_unlinks_its_context 3 2 2 eventmodelcleanup [] chain h' t Ht).
Defined.

Lemma ordinary_events_leave_the_store_witness :
  ∃ t, triggerEvent 5 1 1 "e" [VNum 7] chain = Some (chain, t).
Proof.
  destruct (triggerEvent 5 1 1 "e" [VNum 7] chain) as [[h' t]|] eqn:Ht;
    [|vm_compute in Ht; discriminate].
  exists t. do 2 f_equal.
  apply (ordinary_events_leave_the_store 5 1 1 "e" [VNum 7] chain h' t).
  - apply built_chain.
  - discriminate.
  - exact Ht.
Defined.

Lemma dispatch_keeps_context_and_arguments_witness :
  ∃ h' t, triggerEvent 5 1 1 "e" [VNum 7] chain = Some (h', t)
          ∧ Forall (of_dispatch 1 "e" [VNum 7]) t.
Proof.
  destruct (triggerEvent 5 1 1 "e" [VNum 7] chain) as [[h' t]|] eqn:Ht;
    [|vm_compute in Ht; discriminate].
  exists h', t. split; [reflexivity|].
  exact (dispatch_keeps_context_and_arguments 5 1 1 "e" [VNum 7] chain h' t Ht).
Defined.

Lemma the_root_is_a_sink_witness :
  (∀ e, directPropagationTargets chain root e = [])
  ∧ ∃ h', triggerEvent_run 1 root root "e" [VNum 7] chain
          = Done (h', Fired root root "e" [VNum 7] :: calls chain root root "e" [VNum 7]).
Proof.
  destruct (the_root_is_a_sink chain root "e" [VNum 7] 0 built_chain) as [Hnone Hrun].
  split; [exact Hnone|]. apply Hrun. not_inherited_by_evaluation.
Defined.

Lemma cleanup_closures_accumulate_witness :
  listeners (link 1 "e" 2 (stopPropagatingTo 1 2 (link 1 "e" 2 two_objects)))
            2 eventmodelcleanup
  = listeners (link 1 "e" 2 two_objects) 2 eventmodelcleanup ++ [Cleanup 1 2].
Proof.
  apply (cleanup_closures_accumulate 2 (link 1 "e" 2 two_objects) 1 "e" 2).
  by_evaluation.
Defined.

Lemma propagateEventFrom_records_the_reverse_edge_witness :
  propagateEventFrom 2 two_objects 2 "e" 1 = Return (link 1 "e" 2 two_objects)
  ∧ 1 ≠ root
  ∧ (∀ name x, x ∈ directPropagationTargets (link 1 "e" 2 two_objects) 1 (Some name)
               ↔ x ∈ directPropagationTargets two_objects 1 (Some name)
                 ∨ (x = 2 ∧ (name = "e" ∨ "e" = wildcard)))
  ∧ (∀ x, x ∈ directPropagationTargets (link 1 "e" 2 two_objects) 1 None
          ↔ x ∈ directPropagationTargets two_objects 1 None ∨ x = 2)
  ∧ (∀ o e, o ≠ 1 →
            directPropagationTargets (link 1 "e" 2 two_objects) o e
            = directPropagationTargets two_objects o e).
Proof.
  assert (propagateEventFrom 2 two_objects 2 "e" 1 = Return (link 1 "e" 2 two_objects))
    as H by by_evaluation.
  split; [exact H|].
  exact (propagateEventFrom_records_the_reverse_edge 2 two_objects 2 "e" 1 _ H).
Defined.

Lemma propagateEventTo_outcomes_witness :
  (propagateEventTo 0 two_objects root "e" 7 = Throw MissingCapabilityError
   ↔ two_objects !! 7 = None)
  ∧ (propagateEventTo 0 two_objects root "e" 7 = Throw CycleError →
     is_Some (two_objects !! 7) ∧ (root = root ∨ reaches two_objects (Some "e") 7 root))
  ∧ (∀ h1, propagateEventTo 0 two_objects root "e" 7 = Return h1 →
           is_Some (two_objects !! 7) ∧ root ≠ root
           ∧ ¬ reaches two_objects (Some "e") 7 root
           ∧ h1 = add_edge root "e" 7 two_objects).
Proof.
  apply (propagateEventTo_outcomes 0 two_objects root "e" 7). by_evaluation.
Defined.

(** The root as source and a target without the event model: the missing
    event model is what is reported. *)
Lemma missing_model_on_the_root :
  propagateEventTo 0 two_objects root "e" 7 = Throw MissingCapabilityError.
Proof. by_evaluation. Qed.

Lemma targets_are_in_registration_order_witness :
  pe_targets "e" [(wildcard, [3]); ("e", [2])]
  ++ filter (λ x, x ∉ pe_targets "e" [(wildcard, [3]); ("e", [2])])
            (pe_targets wildcard [(wildcard, [3]); ("e", [2])])
  = [2; 3]
  ∧ directPropagationTargets_run wild_first 1 (Some "e")
    = Done (pe_targets "e" [(wildcard, [3]); ("e", [2])]
            ++ filter (λ x, x ∉ pe_targets "e" [(wildcard, [3]); ("e", [2])])
                      (pe_targets wildcard [(wildcard, [3]); ("e", [2])])).
Proof.
  split; [by_evaluation|].
  apply (targets_are_in_registration_order wild_first 1
           (mkObj ∅ [(wildcard, [3]); ("e", [2])])).
  - apply built_wild_first.
  - by_evaluation.
  - not_inherited_by_evaluation.
Defined.

Lemma propagateEventTo_appends_the_target_witness :
  (∃ oa1, link 1 "e" 3 chain !! 1 = Some oa1
          ∧ pe_targets "e" (propagated_events oa1)
            = (if decide (3 ∈ pe_targets "e" [("e", [2])])
               then pe_targets "e" [("e", [2])]
               else pe_targets "e" [("e", [2])] ++ [3])
          ∧ ∀ name, name ≠ "e" →
                    pe_targets name (propagated_events oa1) = pe_targets name [("e", [2])])
  ∧ (∀ o, o ≠ 1 →
          propagated_events <$> link 1 "e" 3 chain !! o = propagated_events <$> chain !! o).
Proof.
  apply (propagateEventTo_appends_the_target 3 chain 1 "e" 3 (link 1 "e" 3 chain)
           (mkObj (event_listeners (default (mkObj ∅ []) (chain !! 1))) [("e", [2])])).
  - by_evaluation.
  - by_evaluation.
Defined.

Lemma stopPropagatingTo_undoes_propagateEventTo_witness :
  directPropagationTargets chain 1 None = [2]
  ∧ ∀ o name,
      directPropagationTargets (stopPropagatingTo 1 3 (link 1 "e" 3 chain)) o (Some name)
      = directPropagationTargets chain o (Some name).
Proof.
  split; [by_evaluation|].
  apply (stopPropagatingTo_undoes_propagateEventTo 3 chain 1 "e" 3).
  - by_evaluation.
  - intros Hin. vm_compute in Hin. apply list_elem_of_singleton in Hin. discriminate.
Defined.

Lemma addEventModel_again_forgets_the_cleanup_witness :
  listeners pair 2 eventmodelcleanup = [Cleanup 1 2]
  ∧ (∀ name, listeners (addEventModel 2 pair) 2 name = [])
  ∧ (∀ e, directPropagationTargets (addEventModel 2 pair) 2 e = [])
  ∧ (∀ A e, A ≠ 2 →
            directPropagationTargets (addEventModel 2 pair) A e
            = directPropagationTargets pair A e)
  ∧ ∃ t, trigger 2 2 eventmodelcleanup [] (addEventModel 2 pair)
         = Some (addEventModel 2 pair, t).
Proof.
  split; [by_evaluation|].
  apply (addEventModel_again_forgets_the_cleanup pair 2 [] 0).
  - apply built_pair.
  - discriminate.
Defined.

(** The failing input of C4: a fresh object, which has no direct target,
    and the event "constructor". *)
Lemma inherited_name_defeats_the_fallback_witness :
  1 ≠ root
  ∧ directPropagationTargets two_objects 1 (Some "constructor") = []
  ∧ directPropagationTargets_run two_objects 1 (Some "constructor") = TypeError
  ∧ ∀ n, triggerEvent_run (S n) 1 1 "constructor" [] two_objects = TypeError.
Proof.
  split; [discriminate|]. split; [reflexivity|].
  apply (inherited_name_defeats_the_fallback two_objects 1 (mkObj ∅ []) 1
           "constructor" []).
  - by_evaluation.
  - by_evaluation.
  - reflexivity.
Defined.

(** The failing input of C7: the object of the example, with its handler
    under "load" and its handler under the wildcard, and the event "filter". *)
Lemma inherited_method_name_stops_the_listeners_witness :
  listeners load_listeners 1 wildcard = [Handler 2]
  ∧ directPropagationTargets_run load_listeners 1 (Some "filter")
    = Done (directPropagationTargets load_listeners 1 (Some "filter"))
  ∧ listeners_run load_listeners 1 "filter" = None
  ∧ triggerEvent_run 2 1 1 "filter" [VNum 42] load_listeners = TypeError
  ∧ addEventListener_run 1 "filter" (Handler 3) load_listeners = TypeError.
Proof.
  split; [reflexivity|].
  apply (inherited_method_name_stops_the_listeners load_listeners 1
           (default (mkObj ∅ []) (load_listeners !! 1)) 1 "filter" [VNum 42]
           (Handler 3) 1).
  - by_evaluation.
  - apply (bool_decide_unpack _). by vm_compute.
  - apply (bool_decide_unpack _). by vm_compute.
  - by_evaluation.
Defined.

(** Registration under names that the array defines: "push" and "length". *)
Lemma registration_under_inherited_names :
  addEventListener_run 1 "push" (Handler 3) load_listeners = TypeError
  ∧ addEventListener_run 1 "length" (Handler 3) load_listeners = TypeError
  ∧ triggerEvent_run 2 1 1 "toString" [] load_listeners = TypeError.
Proof. split_and!; by_evaluation. Qed.

Lemma own_keys_decide_at_other_names_witness :
  returned (triggerEvent_run 5 1 1 "e" [VNum 7] chain) = triggerEvent 5 1 1 "e" [VNum 7] chain
  ∧ outcome_of (propagateEventTo_run 4 chain 3 "e" 1) = propagateEventTo 4 chain 3 "e" 1
  ∧ directPropagationTargets_run chain 1 (Some "e")
    = Done (directPropagationTargets chain 1 (Some "e"))
  ∧ addEventListener_run 1 "e" (Handler 9) chain
    = Done (addEventListener 1 "e" (Handler 9) chain).
Proof.
  destruct (own_keys_decide_at_other_names "e") as (_ & _ & Hsame).
  destruct Hsame as (Ht & Hp & Hd & Ha); [not_inherited_by_evaluation|].
  split_and!; [apply Ht|apply Hp|apply Hd; by_evaluation|apply Ha; by_evaluation].
Defined.

Lemma dispatch_follows_the_target_order_witness :
  directPropagationTargets fan 1 (Some "e") = [2; 3]
  ∧ ∃ h' t,
      triggerEvent_run 3 1 1 "e" [VNum 7] fan = Done (h', t)
      ∧ ∃ segments last,
          t = Fired 1 1 "e" [VNum 7] :: calls fan 1 1 "e" [VNum 7]
              ++ concat segments ++ last
          ∧ Forall2 (λ x segment,
                       (∃ hx hx', triggerEvent_run 2 x 1 "e" [VNum 7] hx
                                  = Done (hx', segment))
                       ∧ ∃ rest, segment = Fired x 1 "e" [VNum 7] :: rest)
                    (directPropagationTargets fan 1 (Some "e")) segments
          ∧ (if decide (directPropagationTargets fan 1 (Some "e") = [] ∧ 1 ≠ root)
             then ∃ hr hr', triggerEvent_run 2 root 1 "e" [VNum 7] hr = Done (hr', last)
             else last = []).
Proof.
  split; [by_evaluation|].
  destruct (triggerEvent_run 3 1 1 "e" [VNum 7] fan) as [[h' t]| | |] eqn:Ht;
    [|vm_compute in Ht; discriminate..].
  exists h', t. split; [reflexivity|].
  exact (dispatch_follows_the_target_order 2 1 1 "e" [VNum 7] fan h' t Ht).
Defined.

Lemma fan_trace :
  snd <$> returned (triggerEvent_run 3 1 1 "e" [VNum 7] fan)
  = Some [Fired 1 1 "e" [VNum 7]; Called (Handler 1) 1 [VNum 7];
          Fired 2 1 "e" [VNum 7]; Called (Handler 2) 1 [VNum 7];
          Fired root 1 "e" [VNum 7];
          Fired 3 1 "e" [VNum 7]; Called (Handler 3) 1 [VNum 7];
          Fired root 1 "e" [VNum 7]].
Proof. by_evaluation. Qed.

Lemma every_dispatch_reaches_the_root_witness :
  ∃ h' t, triggerEvent 5 1 1 "e" [VNum 7] chain = Some (h', t)
          ∧ head (fires t) = Some 1 ∧ root ∈ fires t.
Proof.
  destruct (triggerEvent 5 1 1 "e" [VNum 7] chain) as [[h' t]|] eqn:Ht;
    [|vm_compute in Ht; discriminate].
  exists h', t. split; [reflexivity|].
  exact (every_dispatch_reaches_the_root 5 1 1 "e" [VNum 7] chain h' t Ht).
Defined.
